(** * Language-server settings: schema composition, validation gate, cache
      and dotted-key collapse

    Shallow embedding of [packages/jupyterlab-lsp/src/settings.ts]
    ([SettingsUIManager]) and the properties of it that the specification
    states.

    Conventions of the embedding.

    - Values are JSON data, as produced by [JSON.parse] and
      [JSONExt.deepCopy].  A JavaScript object is an association list kept in
      insertion order; [ownEntries] gives the order in which [Object.entries]
      and [for .. in] enumerate it (array-index keys first, ascending).
    - Numbers are integers: the code never computes with a setting, it only
      tests a number for truthiness.  The attempt counter is a natural
      number.
    - Strings are strings of 8-bit characters: the code compares keys, tests
      a string for emptiness and looks for an ASCII prefix.
    - Member reads are reads of own members.  Members inherited from
      [Object.prototype], [Array.prototype] or [String.prototype] are not
      data and are outside the embedding.
    - The module is an ES module, hence strict: assigning to a member of a
      primitive throws.
    - Mutation is explicit state passing.  The objects the code mutates in
      place (the manager's specs, the cached canonical schema, the fields of
      the manager object, the module counter) live in [State]; a thrown
      exception keeps every mutation made before it. *)

From Stdlib Require Import String Ascii List ZArith NArith Bool Lia.
From Stdlib Require Import Decimal DecimalString DecimalN Permutation.
Import ListNotations.
Open Scope string_scope.
Open Scope list_scope.

Set Implicit Arguments.
Set Warnings "-register-all".


(* ================================================================== *)
(** ** JSON values and the JavaScript operations the code applies to them *)

Module JS.

Inductive JSON : Type :=
| JNull
| JBool (b : bool)
| JNum (z : Z)
| JStr (s : string)
| JArr (l : list JSON)
| JObj (m : list (string * JSON)).

(** The members of an object, in insertion order. *)
Definition obj : Type := list (string * JSON).

(** What a JavaScript exception is, as far as this code can raise one. *)
Inductive JSError : Type :=
| TypeError
  (** An assignment of a named member to an array: legal JavaScript, but the
      result is not JSON data.  Only reachable when the plugin's own schema
      is not of its declared type. *)
| NotJSON.

Inductive Outcome (A : Type) : Type :=
| Ok (a : A)
| Throw (e : JSError).
Arguments Ok {A} a.
Arguments Throw {A} e.

Definition obind {A B} (o : Outcome A) (f : A -> Outcome B) : Outcome B :=
  match o with
  | Ok a => f a
  | Throw e => Throw e
  end.

(** [!!v] *)
Definition truthy (v : JSON) : bool :=
  match v with
  | JNull => false
  | JBool b => b
  | JNum z => negb (z =? 0)%Z
  | JStr s => negb (s =? "")
  | JArr _ => true
  | JObj _ => true
  end.

(** [!!v] where [v] may be [undefined]. *)
Definition truthy_opt (v : option JSON) : bool :=
  match v with
  | Some j => truthy j
  | None => false
  end.

(** [v == null] *)
Definition nullish (v : option JSON) : bool :=
  match v with
  | None | Some JNull => true
  | _ => false
  end.

(** *** Objects *)

Fixpoint obj_get (m : obj) (k : string) : option JSON :=
  match m with
  | [] => None
  | (k', v) :: r => if k =? k' then Some v else obj_get r k
  end.

(** [k in o], for an object. *)
Definition obj_has (m : obj) (k : string) : bool :=
  match obj_get m k with
  | Some _ => true
  | None => false
  end.

(** [o[k] = v]: an existing member keeps its place, a new one goes last. *)
Fixpoint obj_set (m : obj) (k : string) (v : JSON) : obj :=
  match m with
  | [] => [(k, v)]
  | (k', v') :: r =>
    if k =? k' then (k', v) :: r else (k', v') :: obj_set r k v
  end.

(** [delete o[k]] *)
Definition obj_delete (m : obj) (k : string) : obj :=
  filter (fun kv => negb (k =? fst kv)) m.

Definition keys (m : obj) : list string := map fst m.

(** *** Enumeration order *)

Definition digit_of (c : ascii) : option N :=
  let n := N_of_ascii c in
  if ((48 <=? n) && (n <=? 57))%N then Some (n - 48)%N else None.

Fixpoint digits_value (s : string) (acc : N) : option N :=
  match s with
  | EmptyString => Some acc
  | String c r =>
    match digit_of c with
    | Some d => digits_value r (10 * acc + d)%N
    | None => None
    end
  end.

(** A key is an array index when it is the canonical decimal form of an
    integer below 2^32 - 1. *)
Definition array_index (k : string) : option N :=
  match k with
  | EmptyString => None
  | String c r =>
    if (c =? "0")%char
    then (if r =? "" then Some 0%N else None)
    else match digits_value k 0 with
         | Some n => if (n <? 4294967295)%N then Some n else None
         | None => None
         end
  end.

Definition index_key (i : nat) : string :=
  NilEmpty.string_of_uint (Nat.to_uint i).

Fixpoint insert_index (x : N * (string * JSON))
    (l : list (N * (string * JSON))) : list (N * (string * JSON)) :=
  match l with
  | [] => [x]
  | y :: r => if (fst x <=? fst y)%N then x :: l else y :: insert_index x r
  end.

(** The members whose key is an array index, by ascending index. *)
Fixpoint index_members (m : obj) : list (N * (string * JSON)) :=
  match m with
  | [] => []
  | (k, v) :: r =>
    match array_index k with
    | Some i => insert_index (i, (k, v)) (index_members r)
    | None => index_members r
    end
  end.

Definition is_named (kv : string * JSON) : bool :=
  match array_index (fst kv) with
  | None => true
  | Some _ => false
  end.

(** The own members of an object in the order [Object.entries], [for .. in]
    and the spread syntax visit them. *)
Definition ownEntries (m : obj) : obj :=
  map snd (index_members m) ++ filter is_named m.

Fixpoint indexed_from {A} (i : nat) (l : list A) : list (string * A) :=
  match l with
  | [] => []
  | x :: r => (index_key i, x) :: indexed_from (S i) r
  end.

Fixpoint chars (s : string) : list JSON :=
  match s with
  | EmptyString => []
  | String c r => JStr (String c EmptyString) :: chars r
  end.

(** The entries of a value that is neither [undefined] nor [null]. *)
Definition entries_of (v : JSON) : obj :=
  match v with
  | JStr s => indexed_from 0 (chars s)
  | JArr l => indexed_from 0 l
  | JObj m => ownEntries m
  | _ => []
  end.

(** [Object.entries(v)] *)
Definition entries (v : option JSON) : Outcome obj :=
  match v with
  | None | Some JNull => Throw TypeError
  | Some j => Ok (entries_of j)
  end.

(** *** Member access *)

Definition seq_member (l : list JSON) (k : string) : option JSON :=
  match array_index k with
  | Some i => nth_error l (N.to_nat i)
  | None =>
    if k =? "length" then Some (JNum (Z.of_nat (List.length l))) else None
  end.

(** [v[k]] for a value that is neither [undefined] nor [null]. *)
Definition member (v : JSON) (k : string) : option JSON :=
  match v with
  | JObj m => obj_get m k
  | JArr l => seq_member l k
  | JStr s => seq_member (chars s) k
  | _ => None
  end.

(** [v[k]]: reading a member of [undefined] or [null] throws. *)
Definition get_member (v : option JSON) (k : string) : Outcome (option JSON) :=
  match v with
  | None | Some JNull => Throw TypeError
  | Some j => Ok (member j k)
  end.

(** [v?.[k]] *)
Definition get_member_opt (v : option JSON) (k : string) : option JSON :=
  match v with
  | None | Some JNull => None
  | Some j => member j k
  end.

(** [v[k] = x], returning the updated [v]. *)
Definition set_member (v : option JSON) (k : string) (x : JSON) : Outcome JSON :=
  match v with
  | Some (JObj m) => Ok (JObj (obj_set m k x))
  | Some (JArr _) => Throw NotJSON
  | _ => Throw TypeError
  end.

(** [delete v[k]] for an object or array [v], returning the updated [v]. *)
Definition delete_member (v : JSON) (k : string) : JSON :=
  match v with
  | JObj m => JObj (obj_delete m k)
  | _ => v
  end.

Fixpoint list_update {A} (l : list A) (i : nat) (f : A -> A) : list A :=
  match l, i with
  | [], _ => []
  | x :: r, O => f x :: r
  | x :: r, S j => x :: list_update r j f
  end.

Fixpoint obj_update (m : obj) (k : string) (f : JSON -> JSON) : obj :=
  match m with
  | [] => []
  | (k', v) :: r =>
    if k =? k' then (k', f v) :: r else (k', v) :: obj_update r k f
  end.

(** The container [c] after the object it holds under the existing own key
    [k] has been mutated in place by [f]. *)
Definition update_member (c : JSON) (k : string) (f : JSON -> JSON) : JSON :=
  match c with
  | JObj m => JObj (obj_update m k f)
  | JArr l =>
    match array_index k with
    | Some i => JArr (list_update l (N.to_nat i) f)
    | None => c
    end
  | _ => c
  end.

(** *** [JSONExt.deepCopy] of [@lumino/coreutils]

    Primitives are returned as they are, an array is copied element by
    element, an object member by member in [for .. in] order; [undefined]
    is copied to an empty object. *)
Fixpoint deepCopy (v : JSON) : JSON :=
  match v with
  | JArr l => JArr (map deepCopy l)
  | JObj m => JObj (ownEntries (map (fun kv => (fst kv, deepCopy (snd kv))) m))
  | _ => v
  end.

Definition deepCopy_obj (m : obj) : obj :=
  ownEntries (map (fun kv => (fst kv, deepCopy (snd kv))) m).

Definition deepCopy_opt (v : option JSON) : JSON :=
  match v with
  | Some j => deepCopy j
  | None => JObj []
  end.

End JS.

(* ================================================================== *)
(** ** The settings manager *)

Module Settings.
Import JS.

(** [ISchemaValidator.IError] *)
Record IError : Type := mkError {
  dataPath : string;
  keyword : string;
  message : string
}.

(** [plugin.data] *)
Record PluginData : Type := mkData {
  composite : obj;
  user : obj
}.

(** [ISettingRegistry.IPlugin]; the value [fetch] returns has the same
    shape. *)
Record IPlugin : Type := mkPlugin {
  data : PluginData;
  id : string;
  raw : string;
  schema : obj;
  version : string
}.

(** A server specification held by the language-server manager: the fields
    the settings code reads. *)
Record ServerSpec : Type := mkSpec {
  display_name : string;
  config_schema : option obj
}.

(** [ICollapsingResult], what [collapseToDotted] returns. *)
Record CollapseResult : Type := mkCollapse {
  result : JSON;
  conflicts : obj
}.

(** What is written to the consoles. *)
Inductive LogEntry : Type :=
| WarnEmptyKey (serverSpec : ServerSpec)
| WarnNoConfigSchema (serverKey : string)
| WarnNoProperties (serverKey : string)
| WarnDefinitionNotFound
| WarnUnsupportedRef (ref : string)
| ErrorValidationFailed (errors : list IError)
| ErrorNoOriginal.

(** The collaborators the manager is constructed with or imports. *)
Record Host : Type := mkHost {
  (** [settingRegistry.validator.validateData(plugin, populate)] *)
  validateData : IPlugin -> bool -> option (list IError);
  (** [trans.__(msgid, ...args)] *)
  trans__ : string -> list string -> string;
  (** [collapseToDotted] of [./utils] *)
  collapseToDotted : JSON -> CollapseResult
}.

(** Everything the code can mutate. *)
Record State : Type := mkState {
  (** [languageServerManager.specs], a [Map] in insertion order *)
  specs : list (string * ServerSpec);
  (** the keys of [languageServerManager.sessions] *)
  sessions : list string;
  (** the module-level counter *)
  validationAttempt : N;
  (** the closure variables of [setupSchemaForUI] *)
  canonical : option obj;
  original : option obj;
  (** the private fields of the manager *)
  _defaults : obj;
  _validationErrors : list IError;
  (** both consoles, oldest entry first *)
  log : list LogEntry;
  (** the conflict reports handed to [showDialog], oldest first *)
  dialogs : list obj;
  (** the number of [settingRegistry.reload(pluginId)] requests *)
  reloads : nat
}.

Definition set_specs (x : list (string * ServerSpec)) (st : State) : State :=
  mkState x (sessions st) (validationAttempt st) (canonical st) (original st)
    (_defaults st) (_validationErrors st) (log st) (dialogs st) (reloads st).

Definition set_sessions (x : list string) (st : State) : State :=
  mkState (specs st) x (validationAttempt st) (canonical st) (original st)
    (_defaults st) (_validationErrors st) (log st) (dialogs st) (reloads st).

Definition set_validationAttempt (x : N) (st : State) : State :=
  mkState (specs st) (sessions st) x (canonical st) (original st)
    (_defaults st) (_validationErrors st) (log st) (dialogs st) (reloads st).

Definition set_canonical (x : option obj) (st : State) : State :=
  mkState (specs st) (sessions st) (validationAttempt st) x (original st)
    (_defaults st) (_validationErrors st) (log st) (dialogs st) (reloads st).

Definition set_original (x : option obj) (st : State) : State :=
  mkState (specs st) (sessions st) (validationAttempt st) (canonical st) x
    (_defaults st) (_validationErrors st) (log st) (dialogs st) (reloads st).

Definition set_defaults (x : obj) (st : State) : State :=
  mkState (specs st) (sessions st) (validationAttempt st) (canonical st)
    (original st) x (_validationErrors st) (log st) (dialogs st) (reloads st).

Definition set_validationErrors (x : list IError) (st : State) : State :=
  mkState (specs st) (sessions st) (validationAttempt st) (canonical st)
    (original st) (_defaults st) x (log st) (dialogs st) (reloads st).

Definition add_log (x : list LogEntry) (st : State) : State :=
  mkState (specs st) (sessions st) (validationAttempt st) (canonical st)
    (original st) (_defaults st) (_validationErrors st) (log st ++ x)
    (dialogs st) (reloads st).

Definition add_dialog (x : obj) (st : State) : State :=
  mkState (specs st) (sessions st) (validationAttempt st) (canonical st)
    (original st) (_defaults st) (_validationErrors st) (log st)
    (dialogs st ++ [x]) (reloads st).

Definition add_reload (st : State) : State :=
  mkState (specs st) (sessions st) (validationAttempt st) (canonical st)
    (original st) (_defaults st) (_validationErrors st) (log st)
    (dialogs st) (S (reloads st)).

(** The manager as its constructor leaves it. *)
Definition initial (sp : list (string * ServerSpec)) (ss : list string) : State :=
  mkState sp ss 0%N None None [] [] [] [] 0.

(** *** Computations that mutate the state and may throw *)

Definition M (A : Type) : Type := State -> Outcome A * State.

Definition ret {A} (a : A) : M A := fun st => (Ok a, st).

Definition bind {A B} (c : M A) (f : A -> M B) : M B :=
  fun st =>
    match c st with
    | (Ok a, st') => f a st'
    | (Throw e, st') => (Throw e, st')
    end.

Definition lift {A} (o : Outcome A) : M A := fun st => (o, st).

Definition modify (f : State -> State) : M unit := fun st => (Ok tt, f st).

Definition gets {A} (f : State -> A) : M A := fun st => (Ok (f st), st).

Declare Scope js_scope.
Delimit Scope js_scope with js.
Notation "x <- c ;; k" := (bind c (fun x => k))
  (at level 61, c at next level, right associativity) : js_scope.
Notation "c ;;; k" := (bind c (fun _ => k))
  (at level 61, right associativity) : js_scope.
Notation "x <~ o ;; k" := (obind o (fun x => k))
  (at level 61, o at next level, right associativity) : js_scope.
Open Scope js_scope.

(** *** Module-level helpers *)

(** [isJSONProperty] *)
Definition isJSONProperty (o : JSON) : bool :=
  match o with
  | JObj m => obj_has m "type" || obj_has m "$ref"
  | _ => false
  end.

(** [getDefaults] *)
Definition getDefaults (properties : option JSON) : obj :=
  match properties with
  | None | Some JNull => []
  | Some p =>
    let entries :=
      filter (fun kv => match snd kv with Some _ => true | None => false end)
        (map (fun kv => (fst kv, get_member_opt (Some (snd kv)) "default"))
           (entries_of p)) in
    fold_left
      (fun defaults kv =>
         match snd kv with
         | Some value => obj_set defaults (fst kv) value
         | None => defaults
         end)
      entries []
  end.

(** [o[k] = x] for an object [o] *)
Definition assign (o : JSON) (k : string) (x : JSON) : JSON :=
  match o with
  | JObj m => JObj (obj_set m k x)
  | _ => o
  end.

(** [schema[a][b][k]] *)
Definition get_path2 (schema : obj) (a b k : string) : Outcome (option JSON) :=
  p <~ get_member (Some (JObj schema)) a ;;
  q <~ get_member p b ;;
  get_member q k.

(** [schema[a][b][k] = v], returning [schema] as mutated. *)
Definition set_path2 (schema : obj) (a b k : string) (v : JSON) : Outcome obj :=
  p <~ get_member (Some (JObj schema)) a ;;
  q <~ get_member p b ;;
  q' <~ set_member q k v ;;
  Ok (obj_update schema a (fun pj => update_member pj b (fun _ => q'))).

(** [delete schema[a][b][k]], returning [schema] as mutated. *)
Definition delete_path2 (schema : obj) (a b k : string) : Outcome obj :=
  p <~ get_member (Some (JObj schema)) a ;;
  q <~ get_member p b ;;
  match q with
  | None | Some JNull => Throw TypeError
  | Some qj =>
    Ok (obj_update schema a
          (fun pj => update_member pj b (fun _ => delete_member qj k)))
  end.

Definition decimal (n : N) : string := NilEmpty.string_of_uint (N.to_uint n).

Definition msg_not_detected : string :=
  "Settings that would be passed to `%1` server (this server was not detected as installed during startup) in `workspace/didChangeConfiguration` notification.".

Definition msg_detected : string :=
  "Settings to be passed to %1 in `workspace/didChangeConfiguration` notification.".

Definition has (l : list string) (k : string) : bool :=
  existsb (String.eqb k) l.

Section WithHost.

Variable host : Host.

(** *** [populate]: the loop over the properties of one fragment
    (lines 172-192)

    One turn.  [configSchema] is the fragment, which the turn mutates in
    place; [value] is the object held under [key] in its [properties].  The
    result is the outcome, the fragment as the turn leaves it, and the
    warnings. *)
Definition inline_ref (configSchema : obj) (key : string) (value : JSON)
  : Outcome unit * obj * list LogEntry :=
  if negb (isJSONProperty value) then (Ok tt, configSchema, [])
  else
    match member value "$ref" with
    | None => (Ok tt, configSchema, [])
    | Some (JStr ref) =>
      if String.prefix "#/definitions/" ref then
        let definitionID := substring 14 (String.length ref - 14) ref in
        match get_member (obj_get configSchema "definitions") definitionID with
        | Throw e => (Throw e, configSchema, [])
        | Ok definition =>
          let w := if nullish definition then [WarnDefinitionNotFound] else [] in
          match entries definition with
          | Throw e => (Throw e, configSchema, w)
          | Ok defEntries =>
            let value1 :=
              fold_left (fun v kv => assign v (fst kv) (snd kv)) defEntries value in
            let value2 := delete_member value1 "$ref" in
            (Ok tt,
             obj_update configSchema "properties"
               (fun ps => update_member ps key (fun _ => value2)),
             w)
          end
        end
      else (Ok tt, configSchema, [WarnUnsupportedRef ref])
    | Some _ =>
      (* [startsWith] is not a function on a value that is not a string *)
      (Throw TypeError, configSchema, [])
    end.

Fixpoint inline_refs (configSchema : obj) (es : obj)
  : Outcome unit * obj * list LogEntry :=
  match es with
  | [] => (Ok tt, configSchema, [])
  | (key, value) :: r =>
    match inline_ref configSchema key value with
    | (Ok _, cs, w) =>
      let '(o, cs', w') := inline_refs cs r in (o, cs', w ++ w')
    | (Throw e, cs, w) => (Throw e, cs, w)
    end
  end.

(** The description lines 159-169 give the fragment of a server. *)
Definition description_of (ss : list string) (serverKey : string)
    (serverSpec : ServerSpec) : string :=
  if negb (has ss serverKey)
  then trans__ host msg_not_detected [display_name serverSpec]
  else trans__ host msg_detected [display_name serverSpec].

Definition title_text : string := trans__ host "Workspace Configuration" [].

(** *** [populate]: one turn of the loop over the specs (lines 134-202)

    The fragment is [serverSpec.config_schema] itself, not a copy of it: the
    returned spec is the manager's spec as the turn leaves it.  The outcome is
    [None] after a [continue], and otherwise the values stored under
    [serverKey] in [knownServersConfig] and in [defaults]. *)
Definition transform_spec (ss : list string) (baseServerSchema : option JSON)
    (sharedDefaults : obj) (serverKey : string) (serverSpec : ServerSpec)
  : Outcome (option (JSON * JSON)) * ServerSpec * list LogEntry :=
  if serverKey =? "" then (Ok None, serverSpec, [WarnEmptyKey serverSpec])
  else
    match config_schema serverSpec with
    | None => (Ok None, serverSpec, [WarnNoConfigSchema serverKey])
    | Some configSchema =>
      if negb (truthy_opt (obj_get configSchema "properties"))
      then (Ok None, serverSpec, [WarnNoProperties serverKey])
      else
        let cs1 :=
          obj_set configSchema "description"
            (JStr (description_of ss serverKey serverSpec)) in
        let cs2 := obj_set cs1 "title" (JStr title_text) in
        let mutated cs := mkSpec (display_name serverSpec) (Some cs) in
        match entries (obj_get cs2 "properties") with
        | Throw e => (Throw e, mutated cs2, [])
        | Ok es =>
          match inline_refs cs2 es with
          | (Throw e, cs3, w) => (Throw e, mutated cs3, w)
          | (Ok _, cs3, w) =>
            let defaultMap := getDefaults (obj_get cs3 "properties") in
            let baseSchemaCopy := deepCopy_opt baseServerSchema in
            match (p <~ get_member (Some baseSchemaCopy) "properties" ;;
                   set_member p "serverSettings" (JObj cs3)) with
            | Throw e => (Throw e, mutated cs3, w)
            | Ok p' =>
              (Ok (Some (assign baseSchemaCopy "properties" p',
                         JObj (obj_set (ownEntries sharedDefaults)
                                 "serverSettings" (JObj defaultMap)))),
               mutated cs3, w)
            end
          end
        end
    end.

(** *** [populate]: the loop over [languageServerManager.specs.entries()]

    The result is the outcome ([knownServersConfig] and [defaults] when the
    loop runs to its end), the manager's specs as the loop leaves them, and
    the warnings. *)
Fixpoint transform_specs (ss : list string) (baseServerSchema : option JSON)
    (sharedDefaults : obj) (sp : list (string * ServerSpec))
    (knownServersConfig defaults : obj)
  : Outcome (obj * obj) * list (string * ServerSpec) * list LogEntry :=
  match sp with
  | [] => (Ok (knownServersConfig, defaults), [], [])
  | (serverKey, serverSpec) :: r =>
    match transform_spec ss baseServerSchema sharedDefaults serverKey serverSpec with
    | (Throw e, spec', w) => (Throw e, (serverKey, spec') :: r, w)
    | (Ok None, spec', w) =>
      let '(o, r', w') :=
        transform_specs ss baseServerSchema sharedDefaults r
          knownServersConfig defaults in
      (o, (serverKey, spec') :: r', w ++ w')
    | (Ok (Some (known, dflt)), spec', w) =>
      let '(o, r', w') :=
        transform_specs ss baseServerSchema sharedDefaults r
          (obj_set knownServersConfig serverKey known)
          (obj_set defaults serverKey dflt) in
      (o, (serverKey, spec') :: r', w ++ w')
    end
  end.

(** *** [populate]: the rollback after a failed validation (lines 227-245) *)
Definition rollback (validationErrors : list IError) (schema : obj) : M obj :=
  modify (add_log [ErrorValidationFailed validationErrors]) ;;;
  modify (set_validationErrors validationErrors) ;;;
  o <- gets original ;;
  match o with
  | None => modify (add_log [ErrorNoOriginal]) ;;; ret schema
  | Some original =>
    op <- lift (get_path2 original "properties" "language_servers" "properties") ;;
    schema1 <-
      (if negb (truthy_opt op)
       then s <- lift (delete_path2 schema "properties" "language_servers"
                         "properties") ;;
            modify (set_canonical (Some s)) ;;; ret s
       else ret schema) ;;
    od <- lift (get_path2 original "properties" "language_servers" "default") ;;
    if negb (truthy_opt od)
    then s <- lift (delete_path2 schema1 "properties" "language_servers"
                      "default") ;;
         modify (set_canonical (Some s)) ;;; ret s
    else ret schema1
  end.

(** The record handed to the validator on the [n]-th attempt. *)
Definition validation_request (plugin : IPlugin) (n : N) (schema : obj) : IPlugin :=
  mkPlugin (mkData [] []) ("lsp-validation-attempt-" ++ decimal n)
    (raw plugin) schema (version plugin).

(** *** [populate]: the composed maps are installed and validated
    (lines 205-247)

    [schema] is the object the closure variable [canonical] refers to: every
    mutation of it is a mutation of [canonical].  The result is [schema] as
    the code leaves it. *)
Definition populate_gate (plugin : IPlugin) (schema : obj)
    (knownServersConfig defaults : obj) : M obj :=
  schema1 <- lift (set_path2 schema "properties" "language_servers"
                     "properties" (JObj knownServersConfig)) ;;
  modify (set_canonical (Some schema1)) ;;;
  schema2 <- lift (set_path2 schema1 "properties" "language_servers"
                     "default" (JObj defaults)) ;;
  modify (set_canonical (Some schema2)) ;;;
  n <- gets validationAttempt ;;
  modify (set_validationAttempt (n + 1)) ;;;
  schema3 <-
    match validateData host (validation_request plugin (n + 1) schema2) true with
    | Some validationErrors => rollback validationErrors schema2
    | None => ret schema2
    end ;;
  modify (set_defaults defaults) ;;;
  ret schema3.

(** *** [populate] (lines 112-248) *)
Definition populate (plugin : IPlugin) (schema : obj) : M obj :=
  baseServerSchema <-
    lift (get_member (obj_get schema "definitions") "language-server") ;;
  lsProperties <-
    lift (get_path2 schema "properties" "language_servers" "properties") ;;
  let sharedDefaults := getDefaults lsProperties in
  sp <- gets specs ;;
  ss <- gets sessions ;;
  let '(o, sp', w) :=
    transform_specs ss baseServerSchema sharedDefaults sp [] [] in
  modify (set_specs sp') ;;;
  modify (add_log w) ;;;
  kd <- lift o ;;
  populate_gate plugin schema (fst kd) (snd kd).

(** *** The [fetch] transform (lines 252-268) *)
Definition fetch (plugin : IPlugin) : M IPlugin :=
  o <- gets original ;;
  match o with
  | None => modify (set_original (Some (deepCopy_obj (schema plugin))))
  | Some _ => ret tt
  end ;;;
  c <- gets canonical ;;
  sch <-
    match c with
    | None =>
      let copy := deepCopy_obj (schema plugin) in
      modify (set_canonical (Some copy)) ;;;
      populate plugin copy
    | Some cached => ret cached
    end ;;
  ret (mkPlugin (data plugin) (id plugin) (raw plugin) sch (version plugin)).

(** *** [_collapseServerSettingsDotted] (lines 303-331) *)

(** One turn of the loop, lines 311-320, on the pair of [conflicts] and
    [result]. *)
Definition collapse_step (acc : obj * JSON) (entry : string * JSON) : obj * JSON :=
  let '(conflicts_, result_) := acc in
  let '(serverKey, serverSettingsGroup) := entry in
  if negb (truthy serverSettingsGroup) then acc
  else
    match member serverSettingsGroup "serverSettings" with
    | None => acc
    | Some serverSettings =>
      if negb (truthy serverSettings) then acc
      else
        let collapsed := collapseToDotted host serverSettings in
        (obj_set conflicts_ serverKey (JObj (conflicts collapsed)),
         update_member result_ serverKey
           (fun g => assign g "serverSettings" (result collapsed)))
    end.

Definition _collapseServerSettingsDotted (settings : option JSON) : M JSON :=
  let result0 := deepCopy_opt settings in
  es <- lift (entries settings) ;;
  let '(conflicts_, result_) := fold_left collapse_step es ([], result0) in
  (if (0 <? List.length (keys conflicts_))%nat
   then modify (add_dialog conflicts_)
   else ret tt) ;;;
  ret result_.

(** *** The [compose] transform (lines 269-292)

    The call of [_filterOutDefaults] on line 285 is commented out: the
    method has no caller, and [compose] is the whole of the write path. *)
Definition compose (plugin : IPlugin) : M IPlugin :=
  let user0 := user (data plugin) in
  let composite0 := deepCopy_obj user0 in
  collapsed <- _collapseServerSettingsDotted (obj_get user0 "language_servers") ;;
  let user1 := obj_set user0 "language_servers" collapsed in
  let composite1 := obj_set composite0 "language_servers" collapsed in
  ret (mkPlugin (mkData composite1 user1) (id plugin) (raw plugin)
         (schema plugin) (version plugin)).

(** *** The [sessionsChanged] handler (lines 297-300) *)
Definition sessionsChanged : M unit :=
  modify (set_canonical None) ;;;
  modify add_reload.

(** *** The life of the manager

    What can happen to the manager once [setupSchemaForUI] has run: the
    registry calls one of the two transforms, or the language-server
    manager, having replaced its specs and its sessions, emits
    [sessionsChanged]. *)
Inductive Event : Type :=
| Fetch (plugin : IPlugin)
| Compose (plugin : IPlugin)
| SessionsChanged (sp : list (string * ServerSpec)) (ss : list string).

Definition step (e : Event) (st : State) : State :=
  match e with
  | Fetch plugin => snd (fetch plugin st)
  | Compose plugin => snd (compose plugin st)
  | SessionsChanged sp ss => snd (sessionsChanged (set_sessions ss (set_specs sp st)))
  end.

Definition run (evs : list Event) (st : State) : State :=
  fold_left (fun s e => step e s) evs st.

(** The registry fetching the plugins of [ps] one after the other. *)
Fixpoint fetch_all (ps : list IPlugin) (st : State)
  : list (Outcome IPlugin) * State :=
  match ps with
  | [] => ([], st)
  | plugin :: r =>
    let '(o, st1) := fetch plugin st in
    let '(os, st2) := fetch_all r st1 in
    (o :: os, st2)
  end.

End WithHost.

End Settings.

(* ================================================================== *)
(** ** A concrete host

    The collaborators are parameters of the development.  The instances
    below are used to run the code on concrete inputs. *)

Module Collaborators.
Import JS Settings.

(** [trans.__] of the null translation bundle: the message itself, with
    [%1] replaced by the first argument. *)
Fixpoint interpolate (msgid : string) (args : list string) : string :=
  match msgid with
  | EmptyString => EmptyString
  | String c r =>
    match r with
    | String "1" r' =>
      if (c =? "%")%char then hd "" args ++ interpolate r' args
      else String c (interpolate r args)
    | _ => String c (interpolate r args)
    end
  end.

Fixpoint json_eqb (a b : JSON) : bool :=
  match a, b with
  | JNull, JNull => true
  | JBool x, JBool y => Bool.eqb x y
  | JNum x, JNum y => (x =? y)%Z
  | JStr x, JStr y => (x =? y)%string
  | JArr l, JArr l' =>
    (fix all2 (l l' : list JSON) : bool :=
       match l, l' with
       | [], [] => true
       | x :: r, y :: r' => json_eqb x y && all2 r r'
       | _, _ => false
       end) l l'
  | JObj m, JObj m' =>
    (fix all2 (m m' : obj) : bool :=
       match m, m' with
       | [], [] => true
       | (k, x) :: r, (k', y) :: r' => (k =? k')%string && json_eqb x y && all2 r r'
       | _, _ => false
       end) m m'
  | _, _ => false
  end.

Fixpoint split_dots (s cur : string) : list string :=
  match s with
  | EmptyString => [cur]
  | String c r =>
    if (c =? ".")%char then cur :: split_dots r ""
    else split_dots r (cur ++ String c "")
  end.

Fixpoint join_dots (path : list string) : string :=
  match path with
  | [] => ""
  | [k] => k
  | k :: r => k ++ "." ++ join_dots r
  end.

(** The leaves of a settings tree with the path of each; an empty object is
    a leaf. *)
Fixpoint leaves (prefix : list string) (v : JSON) : list (list string * JSON) :=
  match v with
  | JObj [] => [(prefix, v)]
  | JObj m =>
    (fix members (m : obj) : list (list string * JSON) :=
       match m with
       | [] => []
       | (k, x) :: r => leaves (prefix ++ split_dots k "") x ++ members r
       end) m
  | _ => [(prefix, v)]
  end.

Fixpoint get_path (path : list string) (o : obj) : option JSON :=
  match path with
  | [] => None
  | [k] => obj_get o k
  | k :: r =>
    match obj_get o k with
    | Some (JObj m) => get_path r m
    | _ => None
    end
  end.

Fixpoint put_path (path : list string) (v : JSON) (o : obj) : obj :=
  match path with
  | [] => o
  | [k] => obj_set o k v
  | k :: r =>
    let sub := match obj_get o k with Some (JObj m) => m | _ => [] end in
    obj_set o k (JObj (put_path r v sub))
  end.

Definition record_conflict (cf : obj) (key : string) (old new : JSON) : obj :=
  match obj_get cf key with
  | Some (JArr seen) =>
    if existsb (json_eqb new) seen then cf
    else obj_set cf key (JArr (seen ++ [new]))
  | _ => if json_eqb old new then cf else obj_set cf key (JArr [old; new])
  end.

Definition collapse_leaf (acc : obj * obj) (leaf : list string * JSON) : obj * obj :=
  let '(res, cf) := acc in
  let '(path, v) := leaf in
  (put_path path v res,
   match get_path path res with
   | Some old => record_conflict cf (join_dots path) old v
   | None => cf
   end).

(** Modelled from the spec: [collapseToDotted] of [./utils], which is not
    part of the sources at hand.  Dotted keys are turned into nested
    objects; a path assigned more than once keeps the value assigned last,
    and the distinct values assigned to it are listed under the path in
    [conflicts], in the order they were met.  Members are visited in the
    order they are stored. *)
Definition collapseToDotted (o : JSON) : CollapseResult :=
  match o with
  | JObj (_ :: _) =>
    let '(res, cf) := fold_left collapse_leaf (leaves [] o) ([], []) in
    mkCollapse (JObj res) cf
  | _ => mkCollapse o []
  end.

(** A validator that accepts every schema, and one that rejects every
    schema with one error. *)
Definition accept_all (_ : IPlugin) (_ : bool) : option (list IError) := None.

Definition schema_error : IError :=
  mkError "" "schema" "schema is invalid".

Definition reject_all (_ : IPlugin) (_ : bool) : option (list IError) :=
  Some [schema_error].

Definition accepting : Host := mkHost accept_all interpolate collapseToDotted.
Definition rejecting : Host := mkHost reject_all interpolate collapseToDotted.

End Collaborators.

(* ================================================================== *)
(** ** Concrete inputs *)

Module Examples.
Import JS Settings Collaborators.

(** The schema of the plugin before composition: [language_servers] has a
    default and no [properties]. *)
Definition plugin_schema : obj :=
  [("title", JStr "Language Servers");
   ("definitions",
    JObj [("language-server",
           JObj [("type", JStr "object");
                 ("properties",
                  JObj [("priority",
                         JObj [("type", JStr "number");
                               ("default", JNum 50)])])])]);
   ("properties",
    JObj [("language_servers",
           JObj [("type", JStr "object"); ("default", JObj [])])])].

Definition plugin : IPlugin :=
  mkPlugin (mkData [] []) "@jupyter-lsp/jupyterlab-lsp:plugin" "{}"
    plugin_schema "1.0.0".

(** The spec of the scenario in the specification. *)
Definition pyls_spec : ServerSpec :=
  mkSpec "Python LS"
    (Some [("properties",
            JObj [("maxLineLength",
                   JObj [("type", JStr "number"); ("default", JNum 80)])])]).

(** A spec with a property that refers to a definition its fragment does not
    have. *)
Definition dangling_spec : ServerSpec :=
  mkSpec "Dangling"
    (Some [("properties",
            JObj [("formatter",
                   JObj [("$ref", JStr "#/definitions/missing")])]);
           ("definitions", JObj [])]).

(** Specs the loop skips: no fragment, and a fragment without properties. *)
Definition bare_spec : ServerSpec := mkSpec "Bare" None.

Definition empty_spec : ServerSpec := mkSpec "Empty" (Some [("type", JStr "object")]).

(** User settings that are nested already. *)
Definition nested_settings : JSON :=
  JObj [("pylsp", JObj [("plugins", JObj [("flake8", JObj [("enabled", JBool true)])])])].

Definition user_data : obj :=
  [("language_servers",
    JObj [("pylsp", JObj [("priority", JNum 10);
                          ("serverSettings", nested_settings)])]);
   ("loggingLevel", JStr "warn")].

(** The schema of a plugin whose [language_servers] has the default [d],
    and the plugin. *)
Definition schema_with_default (d : JSON) : obj :=
  [("definitions",
    JObj [("language-server",
           JObj [("type", JStr "object"); ("properties", JObj [])])]);
   ("properties",
    JObj [("language_servers",
           JObj [("type", JStr "object"); ("default", d)])])].

Definition plugin_with_default (d : JSON) : IPlugin :=
  mkPlugin (mkData [] []) "@jupyter-lsp/jupyterlab-lsp:plugin" "{}"
    (schema_with_default d) "1.0.0".


(** A run of the loop over four specs, two of which are skipped, one for
    its empty key. *)
Definition base_server_schema : JSON :=
  JObj [("type", JStr "object");
        ("properties",
         JObj [("priority",
                JObj [("type", JStr "number"); ("default", JNum 50)])])].

Definition shared_defaults : obj := [("priority", JNum 50)].

Definition loop_specs : list (string * ServerSpec) :=
  [("pyls", pyls_spec); ("", pyls_spec); ("bare", bare_spec);
   ("empty", empty_spec)].

Definition pyls_fragment : obj :=
  [("properties",
    JObj [("maxLineLength",
           JObj [("type", JStr "number"); ("default", JNum 80)])]);
   ("description",
    JStr "Settings to be passed to Python LS in `workspace/didChangeConfiguration` notification.");
   ("title", JStr "Workspace Configuration")].

Definition loop_known : obj :=
  [("pyls",
    JObj [("type", JStr "object");
          ("properties",
           JObj [("priority",
                  JObj [("type", JStr "number"); ("default", JNum 50)]);
                 ("serverSettings", JObj pyls_fragment)])])].

Definition loop_defaults : obj :=
  [("pyls",
    JObj [("priority", JNum 50);
          ("serverSettings", JObj [("maxLineLength", JNum 80)])])].

Definition loop_specs_after : list (string * ServerSpec) :=
  [("pyls", mkSpec "Python LS" (Some pyls_fragment)); ("", pyls_spec);
   ("bare", bare_spec); ("empty", empty_spec)].

Definition loop_log : list LogEntry :=
  [WarnEmptyKey pyls_spec; WarnNoConfigSchema "bare"; WarnNoProperties "empty"].

(** A composed schema and the state a failed validation finds. *)
Definition composed_schema : obj :=
  [("title", JStr "Language Servers");
   ("properties",
    JObj [("language_servers",
           JObj [("type", JStr "object");
                 ("default", JObj loop_defaults);
                 ("properties", JObj loop_known)])])].

Definition gate_state : State :=
  set_original (Some plugin_schema)
    (set_canonical (Some composed_schema) (initial [] [])).

End Examples.

(* ================================================================== *)
(** ** The vocabulary of the statements *)

Module Vocabulary.
Import JS Settings.

(** The test of lines 134-156: the turn of the loop ends in [continue]. *)
Definition skipped (serverKey : string) (serverSpec : ServerSpec) : bool :=
  (serverKey =? "") ||
  match config_schema serverSpec with
  | None => true
  | Some configSchema => negb (truthy_opt (obj_get configSchema "properties"))
  end.

(** The warning is one of the three a skipped spec can cause. *)
Definition skip_warning (serverKey : string) (serverSpec : ServerSpec)
    (w : LogEntry) : Prop :=
  w = WarnEmptyKey serverSpec \/ w = WarnNoConfigSchema serverKey \/
  w = WarnNoProperties serverKey.

(** The keys of the specs that are not skipped, in the order of the map. *)
Definition composed_keys (sp : list (string * ServerSpec)) : list string :=
  map fst (filter (fun ks => negb (skipped (fst ks) (snd ks))) sp).

(** [value?.default] *)
Definition default_of (value : JSON) : option JSON :=
  get_member_opt (Some value) "default".

(** The computation [c] leaves the part [f] of the state as it found it,
    whether it returns or throws. *)
Definition unchanged {A X} (f : State -> X) (c : M A) : Prop :=
  forall st, f (snd (c st)) = f st.

(** [post c st Q E]: run from [st], the computation [c] either returns a
    value and a state that satisfy [Q], or throws in a state that
    satisfies [E]. *)
Definition post {A} (c : M A) (st : State)
    (Q : A -> State -> Prop) (E : State -> Prop) : Prop :=
  match c st with
  | (Ok a, st') => Q a st'
  | (Throw _, st') => E st'
  end.

(** *** Equality up to the description of the server settings *)















(** The schema with [ls] as its [properties.language_servers], [pm] being
    its [properties]. *)
Definition with_ls (schema pm ls : obj) : obj :=
  obj_update schema "properties"
    (fun _ => JObj (obj_update pm "language_servers" (fun _ => JObj ls))).



(** *** Inputs on which no turn of the loops throws *)





End Vocabulary.

(* ================================================================== *)
(** ** The pruning of the settings that repeat a default

    [_filterOutDefaults] (lines 333-371) has no caller: the call on line 285
    is commented out.  It is a protected method, open to a subclass. *)

Module Pruning.
Import JS Settings.

(** A loop whose body may throw: [for (const b of l) a = f(a, b)]. *)
Fixpoint for_each {A B} (f : A -> B -> Outcome A) (l : list B) (a : A)
  : Outcome A :=
  match l with
  | [] => Ok a
  | b :: r => a' <~ f a b ;; for_each f r a'
  end.

(** [delete v[k]] where [k] is the key of an entry of [v], returning [v] as
    mutated.  Deleting an element of an array leaves a hole: the result is
    not JSON data.  A character of a string cannot be deleted: in strict
    code the attempt throws. *)
Definition delete_entry (v : JSON) (k : string) : Outcome JSON :=
  match v with
  | JObj m => Ok (JObj (obj_delete m k))
  | JArr _ => Throw NotJSON
  | _ => Throw TypeError
  end.

Section WithDeepEqual.

(** [JSONExt.deepEqual] of [@lumino/coreutils], a parameter of the
    development; its second argument may be [undefined]. *)
Variable deepEqual : JSON -> option JSON -> Outcome bool.

(** One turn of the loop of lines 356-362.  [serverSettings] is
    [result[serverKey].serverSettings] as the turns before have left it. *)
Definition prune_setting (settingDefault : option JSON) (serverSettings : JSON)
    (sub : string * JSON) : Outcome JSON :=
  let '(subKey, subValue) := sub in
  d <~ get_member settingDefault subKey ;;
  same <~ deepEqual subValue d ;;
  if same then delete_entry serverSettings subKey else Ok serverSettings.

(** One turn of the loop of lines 351-367.  [group] is [result[serverKey]]
    as the turns before have left it. *)
Definition prune_member (serverDefaults : JSON) (group : obj)
    (setting : string * JSON) : Outcome obj :=
  let '(settingKey, settingValue) := setting in
  let settingDefault := member serverDefaults settingKey in
  if settingKey =? "serverSettings" then
    es <~ entries (Some settingValue) ;;
    pruned <~ for_each (prune_setting settingDefault) es settingValue ;;
    Ok (obj_update group settingKey (fun _ => pruned))
  else
    same <~ deepEqual settingValue settingDefault ;;
    if same then Ok (obj_delete group settingKey) else Ok group.

(** One turn of the loop of lines 340-368. *)
Definition prune_server (defaults : obj) (result : JSON)
    (entry : string * JSON) : Outcome JSON :=
  let '(serverKey, serverSettingsGroup) := entry in
  match obj_get defaults serverKey with
  | None | Some JNull => Ok result
  | Some serverDefaults =>
    match serverSettingsGroup with
    | JObj group =>
      if obj_has group "hasOwnProperty" then
        (* the member shadows the method: what is called is not a function *)
        Throw TypeError
      else if negb (obj_has group "serverSettings") then Ok result
      else
        pruned <~ for_each (prune_member serverDefaults) (ownEntries group) group ;;
        Ok (update_member result serverKey (fun _ => JObj pruned))
    | _ =>
      (* falsy, or a value that has no own [serverSettings] *)
      Ok result
    end
  end.

(** [_filterOutDefaults] *)
Definition _filterOutDefaults (settings : option JSON) : M JSON :=
  defaults <- gets _defaults ;;
  let result := deepCopy_opt settings in
  es <- lift (entries (Some result)) ;;
  lift (for_each (prune_server defaults) es result).

(** *** What is left after the pruning *)

(** The comparison returns [true]. *)
Definition repeats (value : JSON) (default : option JSON) : bool :=
  match deepEqual value default with
  | Ok true => true
  | _ => false
  end.

Definition pruned_settings (settingDefault : option JSON) (serverSettings : JSON)
  : JSON :=
  match serverSettings with
  | JObj sm =>
    JObj (filter
            (fun kv => negb (repeats (snd kv) (get_member_opt settingDefault (fst kv))))
            sm)
  | _ => serverSettings
  end.

Definition pruned_group (serverDefaults : JSON) (group : obj) : obj :=
  map (fun kv =>
         if fst kv =? "serverSettings"
         then (fst kv,
               pruned_settings (member serverDefaults "serverSettings") (snd kv))
         else kv)
    (filter
       (fun kv =>
          (fst kv =? "serverSettings") ||
          negb (repeats (snd kv) (member serverDefaults (fst kv))))
       group).

(** The test of lines 341-350: the group of the server is looked into. *)
Definition examined (defaults : obj) (serverKey : string)
    (serverSettingsGroup : JSON) : option (JSON * obj) :=
  match obj_get defaults serverKey with
  | None | Some JNull => None
  | Some serverDefaults =>
    match serverSettingsGroup with
    | JObj group =>
      if obj_has group "serverSettings" then Some (serverDefaults, group)
      else None
    | _ => None
    end
  end.

(** The call of [hasOwnProperty] on line 347 throws: the group of the
    server, which has recorded defaults, has a member of that name. *)
Definition shadowed (defaults : obj) (serverKey : string)
    (serverSettingsGroup : JSON) : bool :=
  match obj_get defaults serverKey with
  | None | Some JNull => false
  | Some _ =>
    match serverSettingsGroup with
    | JObj group => obj_has group "hasOwnProperty"
    | _ => false
    end
  end.

Definition pruned_entry (defaults : obj) (kv : string * JSON) : string * JSON :=
  (fst kv,
   match examined defaults (fst kv) (snd kv) with
   | Some (serverDefaults, group) => JObj (pruned_group serverDefaults group)
   | None => snd kv
   end).

(** *** Settings on which no comparison and no deletion throws *)

Definition returns (value : JSON) (default : option JSON) : bool :=
  match deepEqual value default with
  | Ok _ => true
  | Throw _ => false
  end.

Definition prunable_settings (settingDefault : option JSON) (serverSettings : JSON)
  : bool :=
  match serverSettings with
  | JObj sm =>
    forallb
      (fun kv =>
         negb (nullish settingDefault) &&
         returns (snd kv) (get_member_opt settingDefault (fst kv)))
      sm
  | _ => false
  end.

Definition prunable_group (serverDefaults : JSON) (group : obj) : bool :=
  forallb
    (fun kv =>
       if fst kv =? "serverSettings"
       then prunable_settings (member serverDefaults "serverSettings") (snd kv)
       else returns (snd kv) (member serverDefaults (fst kv)))
    group.

Definition prunable (defaults : obj) (m : obj) : bool :=
  forallb
    (fun kv =>
       negb (shadowed defaults (fst kv) (snd kv)) &&
       match examined defaults (fst kv) (snd kv) with
       | Some (serverDefaults, group) => prunable_group serverDefaults group
       | None => true
       end)
    m.

(** *** Two tests used to follow the loops *)

(** A turn of the loop over the entries [es] of the settings deletes the
    member [q]. *)
Definition hit (settingDefault : option JSON) (es : obj) (q : string) : bool :=
  existsb
    (fun e => (q =? fst e) &&
              repeats (snd e) (get_member_opt settingDefault (fst e)))
    es.

(** A turn of the loop over the entries [es] of the group deletes the
    member [p]. *)
Definition dropped (serverDefaults : JSON) (es : obj) (p : string) : bool :=
  existsb
    (fun e => (p =? fst e) && negb (fst e =? "serverSettings") &&
              repeats (snd e) (member serverDefaults (fst e)))
    es.

End WithDeepEqual.

(** The keys are distinct, as the keys of objects are: those of the
    settings, of the group of every server, and of every [serverSettings]. *)
Definition distinct_keys (m : obj) : Prop :=
  NoDup (keys m) /\
  forall k gm, In (k, JObj gm) m ->
    NoDup (keys gm) /\
    forall sm, obj_get gm "serverSettings" = Some (JObj sm) -> NoDup (keys sm).

End Pruning.

(** A model of [JSONExt.deepEqual], to run the pruning on concrete
    settings. *)
Module Library.
Import JS.

(** Two values that are both defined: primitives are compared with [===],
    arrays element by element, objects member by member whatever the order
    of the members. *)
Fixpoint deepEqual_values (first second : JSON) : bool :=
  match first, second with
  | JNull, JNull => true
  | JBool a, JBool b => Bool.eqb a b
  | JNum a, JNum b => (a =? b)%Z
  | JStr a, JStr b => (a =? b)%string
  | JArr l, JArr l' =>
    (List.length l =? List.length l')%nat &&
    (fix each (l l' : list JSON) : bool :=
       match l, l' with
       | x :: r, y :: r' => deepEqual_values x y && each r r'
       | _, _ => true
       end) l l'
  | JObj m, JObj m' =>
    forallb (fun kv => obj_has m' (fst kv)) m &&
    forallb (fun kv => obj_has m (fst kv)) m' &&
    (fix each (l : obj) : bool :=
       match l with
       | [] => true
       | (k, x) :: r =>
         match obj_get m' k with
         | Some y => deepEqual_values x y
         | None => false
         end && each r
       end) m
  | _, _ => false
  end.

(** Against [undefined], a primitive and an array are different, an object
    without members is equal, and an object with members makes the [in]
    operator throw. *)
Definition deepEqual (first : JSON) (second : option JSON) : Outcome bool :=
  match second with
  | Some s => Ok (deepEqual_values first s)
  | None =>
    match first with
    | JObj [] => Ok true
    | JObj _ => Throw TypeError
    | _ => Ok false
    end
  end.

End Library.

(* ================================================================== *)
(** ** The completion item

    Shallow embedding of the class [CompletionItem].  The private fields of
    an instance are the fields of [Item]; a method that assigns to them
    returns the instance as it leaves it.  [resolve] is an [async] method
    with one [await]: it is embedded as the part that runs when it is
    called, [resolve_begin], and the part that runs when the answer of the
    server arrives, [resolve_end]. *)

(** The types of [vscode-languageserver-types] the class reads. *)
Module Protocol.

(** [MarkupKind] *)
Inductive MarkupKind : Type := plaintext | markdown.

(** [MarkupContent] *)
Record MarkupContent : Type := mkMarkup {
  kind : MarkupKind;
  value : string
}.

(** [string | MarkupContent] *)
Inductive Documentation : Type :=
| Plain (text : string)
| Markup (content : MarkupContent).

(** [CompletionItemTag.Deprecated] *)
Definition Deprecated : Z := 1.

(** [CompletionItem]: the fields the class reads. *)
Record CompletionItem : Type := mkCompletionItem {
  label : string;
  documentation : option Documentation;
  detail : option string;
  insertText : option string;
  sortText : option string;
  filterText : option string;
  deprecated : option bool;
  tags : option (list Z)
}.

(** [CompletionOptions], [ServerCapabilities] and the connection: the path
    [connection.serverCapabilities?.completionProvider?.resolveProvider]. *)
Record CompletionOptions : Type := mkCompletionOptions {
  resolveProvider : option bool
}.

Record ServerCapabilities : Type := mkCapabilities {
  completionProvider : option CompletionOptions
}.

Record Connection : Type := mkConnection {
  serverCapabilities : option ServerCapabilities
}.

End Protocol.

Module CompletionItem.
Import JS.

(** [CompletionItem.IOptions], without the icon, which the class does not
    read.  The connection may be missing: the class tests for it. *)
Record IOptions : Type := mkOptions {
  type_ : string;
  match_ : Protocol.CompletionItem;
  connection : option Protocol.Connection;
  showDocumentation : bool
}.

(** An instance: the constructor parameter and the fields the class
    assigns.  [this.match] is [options.match]; [_currentInsertText] is
    [undefined] until the setter is used. *)
Record Item : Type := mkItem {
  options : IOptions;
  label : string;
  _detail : option string;
  _documentation : option string;
  _is_documentation_markdown : bool;
  _requested_resolution : bool;
  _resolved : bool;
  _currentInsertText : option string
}.

(** [a || b] for strings, [a] possibly [undefined] *)
Definition or_else (a : option string) (b : string) : string :=
  match a with
  | Some s => if s =? "" then b else s
  | None => b
  end.

(** [_setDocumentation] *)
Definition _setDocumentation (documentation : option Protocol.Documentation)
    (this : Item) : Item :=
  match documentation with
  | Some (Protocol.Markup content) =>
    mkItem (options this) (label this) (_detail this)
      (Some (Protocol.value content))
      (match Protocol.kind content with
       | Protocol.markdown => true
       | Protocol.plaintext => false
       end)
      (_requested_resolution this) (_resolved this) (_currentInsertText this)
  | Some (Protocol.Plain text) =>
    mkItem (options this) (label this) (_detail this) (Some text) false
      (_requested_resolution this) (_resolved this) (_currentInsertText this)
  | None =>
    mkItem (options this) (label this) (_detail this) None false
      (_requested_resolution this) (_resolved this) (_currentInsertText this)
  end.

(** The constructor (lines 81-90). *)
Definition new (options : IOptions) : Item :=
  let match_ := match_ options in
  let this :=
    _setDocumentation (Protocol.documentation match_)
      (mkItem options (Protocol.label match_) None None false false false None) in
  mkItem options (label this) (Protocol.detail match_)
    (_documentation this) (_is_documentation_markdown this) false false
    (_currentInsertText this).

Definition isDocumentationMarkdown (this : Item) : bool :=
  _is_documentation_markdown this.

(** [get type] *)
Definition type (this : Item) : string := type_ (options this).

(** [get insertText] *)
Definition insertText (this : Item) : string :=
  or_else (_currentInsertText this)
    (or_else (Protocol.insertText (match_ (options this)))
       (Protocol.label (match_ (options this)))).

(** [set insertText] *)
Definition set_insertText (text : string) (this : Item) : Item :=
  mkItem (options this) (label this) (_detail this) (_documentation this)
    (_is_documentation_markdown this) (_requested_resolution this)
    (_resolved this) (Some text).

(** [get sortText] *)
Definition sortText (this : Item) : string :=
  or_else (Protocol.sortText (match_ (options this)))
    (Protocol.label (match_ (options this))).

(** [get filterText] *)
Definition filterText (this : Item) : option string :=
  Protocol.filterText (match_ (options this)).

(** [_supportsResolution]: without a connection, the message is logged and
    the read of [serverCapabilities] throws. *)
Definition _supportsResolution (this : Item) : Outcome (option bool) :=
  match connection (options this) with
  | None => Throw TypeError
  | Some connection =>
    Ok (match Protocol.serverCapabilities connection with
        | None => None
        | Some capabilities =>
          match Protocol.completionProvider capabilities with
          | None => None
          | Some provider => Protocol.resolveProvider provider
          end
        end)
  end.

(** [get detail] *)
Definition detail (this : Item) : option string := _detail this.

(** [get documentation] *)
Definition documentation (this : Item) : option string :=
  if negb (showDocumentation (options this)) then None
  else
    match _documentation this with
    | Some text => if text =? "" then None else Some text
    | None => None
    end.

(** [needsResolution]; the result is [undefined] when the server does not
    say whether it resolves. *)
Definition needsResolution (this : Item) : Outcome (option bool) :=
  match documentation this with
  | Some _ => Ok (Some false)
  | None =>
    if _resolved this then Ok (Some false)
    else if _requested_resolution this then Ok (Some false)
    else _supportsResolution this
  end.

Definition isResolved (this : Item) : bool := _resolved this.

(** [get deprecated] *)
Definition deprecated (this : Item) : bool :=
  match Protocol.deprecated (match_ (options this)) with
  | Some true => true
  | _ =>
    match Protocol.tags (match_ (options this)) with
    | Some tags => existsb (fun tag => (tag =? Protocol.Deprecated)%Z) tags
    | None => false
    end
  end.

(** *** [resolve] *)

(** How a call of [resolve] goes on after its synchronous part. *)
Inductive Pending : Type :=
| Settled
  (** the promise is resolved with the item *)
| Polling
  (** [until_ready(() => this._resolved, 100, 50)] *)
| Awaiting (request : Protocol.CompletionItem)
  (** the request [completionItem/resolve] has been sent with [request] *).

(** What comes back for a request: [null], [undefined], an item, or a
    failure of the request. *)
Inductive Response : Type :=
| Null
| Undefined
| Resolved (item : Protocol.CompletionItem)
| Failed.

(** [resolve], up to the [await] (lines 166-182).  A throw is a rejection
    of the promise. *)
Definition resolve_begin (this : Item) : Outcome Pending * Item :=
  if _resolved this then (Ok Settled, this)
  else
    match _supportsResolution this with
    | Throw e => (Throw e, this)
    | Ok (Some true) =>
      if _requested_resolution this then (Ok Polling, this)
      else
        (Ok (Awaiting (match_ (options this))),
         mkItem (options this) (label this) (_detail this) (_documentation this)
           (_is_documentation_markdown this) true (_resolved this)
           (_currentInsertText this))
    | Ok _ => (Ok Settled, this)
    end.

(** [resolve], from the [await] on (lines 184-192). *)
Definition resolve_end (response : Response) (this : Item) : Item :=
  match response with
  | Null | Failed => this
  | Undefined =>
    let this1 := _setDocumentation None this in
    mkItem (options this1) (label this1) None (_documentation this1)
      (_is_documentation_markdown this1) (_requested_resolution this1) true
      (_currentInsertText this1)
  | Resolved item =>
    let this1 := _setDocumentation (Protocol.documentation item) this in
    mkItem (options this1) (label this1) (Protocol.detail item)
      (_documentation this1) (_is_documentation_markdown this1)
      (_requested_resolution this1) true (_currentInsertText this1)
  end.

(** *** The life of an item

    The completer calls [resolve] and sets [insertText] as it likes; the
    server answers the requests that are pending, one at a time. *)
Record World : Type := mkWorld {
  item : Item;
  (** the requests sent and not answered yet *)
  pending : list Protocol.CompletionItem;
  (** the number of requests sent so far *)
  sent : nat
}.

Inductive Action : Type :=
| CallResolve
| Answer (response : Response)
| SetInsertText (text : string).

Definition act (a : Action) (w : World) : World :=
  match a with
  | CallResolve =>
    match resolve_begin (item w) with
    | (Ok (Awaiting request), this) =>
      mkWorld this (pending w ++ [request]) (S (sent w))
    | (_, this) => mkWorld this (pending w) (sent w)
    end
  | Answer response =>
    match pending w with
    | [] => w
    | _ :: rest => mkWorld (resolve_end response (item w)) rest (sent w)
    end
  | SetInsertText text =>
    mkWorld (set_insertText text (item w)) (pending w) (sent w)
  end.

Definition play (actions : list Action) (w : World) : World :=
  fold_left (fun w a => act a w) actions w.

Definition start (options : IOptions) : World := mkWorld (new options) [] 0.

End CompletionItem.

(* ================================================================== *)
(** ** More vocabulary *)

Module Terms.
Import JS Settings Vocabulary.

(** The defaults that the members [es] of a [properties] object declare,
    in the order of the members. *)
Definition declared_defaults (es : obj) : obj :=
  flat_map
    (fun kv =>
       match default_of (snd kv) with
       | Some d => [(fst kv, d)]
       | None => []
       end) es.

(** The test of line 312 passes: the group of a server has settings to
    collapse. *)
Definition has_settings (serverSettingsGroup : JSON) : bool :=
  truthy serverSettingsGroup &&
  truthy_opt (member serverSettingsGroup "serverSettings").

Section WithHost.

Variable host : Host.

(** What [collapseToDotted] returns for the settings of a group. *)
Definition collapsed_settings (serverSettingsGroup : JSON) : CollapseResult :=
  collapseToDotted host
    (match member serverSettingsGroup "serverSettings" with
     | Some serverSettings => serverSettings
     | None => JNull
     end).

(** The group of a server in the value the collapse returns. *)
Definition collapsed_group (serverSettingsGroup : JSON) : JSON :=
  if has_settings serverSettingsGroup
  then assign (deepCopy serverSettingsGroup) "serverSettings"
         (result (collapsed_settings serverSettingsGroup))
  else deepCopy serverSettingsGroup.

(** The conflicts handed to the dialog for the entries [es]. *)
Definition conflict_report (es : obj) : obj :=
  map (fun kv => (fst kv, JObj (conflicts (collapsed_settings (snd kv)))))
    (filter (fun kv => has_settings (snd kv)) es).

End WithHost.

(** The schema after lines 205-206: [ls], the member [language_servers] of
    the properties [pm] of [schema], has been given the two maps. *)
Definition installed (schema pm ls known dflt : obj) : obj :=
  with_ls schema pm
    (obj_set (obj_set ls "properties" (JObj known)) "default" (JObj dflt)).

(** The entry is a warning of the loop over the specs. *)
Definition is_warning (e : LogEntry) : bool :=
  match e with
  | ErrorValidationFailed _ | ErrorNoOriginal => false
  | _ => true
  end.

(** The state in which [populate] runs, as [fetch] prepares it. *)
Definition primed (plugin : IPlugin) (st : State) : State :=
  set_canonical (Some (deepCopy_obj (schema plugin)))
    (match original st with
     | Some _ => st
     | None => set_original (Some (deepCopy_obj (schema plugin))) st
     end).

End Terms.

(* ================================================================== *)
(** ** More concrete inputs *)

Module Inputs.
Import JS Settings Collaborators Examples.


(** The groups of four servers: one with a dotted key and a nested one
    that disagree, one that is [null], one without settings, one with empty
    settings. *)
Definition dotted_settings : JSON :=
  JObj [("pylsp.plugins.flake8.enabled", JBool true);
        ("pylsp",
         JObj [("plugins", JObj [("flake8", JObj [("enabled", JBool false)])])])].

Definition server_groups : obj :=
  [("pylsp", JObj [("priority", JNum 10); ("serverSettings", dotted_settings)]);
   ("texlab", JNull);
   ("bash", JObj [("priority", JNum 5)]);
   ("r", JObj [("serverSettings", JObj [])])].

(** A fragment with a reference to one of its definitions, a property of
    its own, and a reference that is not local. *)
Definition ref_property : obj :=
  [("$ref", JStr "#/definitions/formatter");
   ("description", JStr "The formatter of this server")].

Definition ref_definition : obj :=
  [("type", JStr "string"); ("default", JStr "black");
   ("description", JStr "A formatter")].

Definition ref_properties : obj :=
  [("formatter", JObj ref_property);
   ("lineLength", JObj [("type", JStr "number"); ("default", JNum 88)]);
   ("schema", JObj [("$ref", JStr "https://example.org/schema.json")])].

Definition ref_fragment : obj :=
  [("properties", JObj ref_properties);
   ("definitions", JObj [("formatter", JObj ref_definition)])].

Definition ref_spec : ServerSpec := mkSpec "Ref LS" (Some ref_fragment).

Definition ref_specs : list (string * ServerSpec) :=
  [("ref", ref_spec); ("bare", bare_spec)].

(** The fragment, the specs and the two maps after the loop has run over
    [ref_specs], the server [ref] having a session. *)
Definition ref_fragment_after : obj :=
  [("properties",
    JObj [("formatter",
           JObj [("description", JStr "A formatter");
                 ("type", JStr "string"); ("default", JStr "black")]);
          ("lineLength", JObj [("type", JStr "number"); ("default", JNum 88)]);
          ("schema", JObj [("$ref", JStr "https://example.org/schema.json")])]);
   ("definitions", JObj [("formatter", JObj ref_definition)]);
   ("description",
    JStr "Settings to be passed to Ref LS in `workspace/didChangeConfiguration` notification.");
   ("title", JStr "Workspace Configuration")].

Definition ref_specs_after : list (string * ServerSpec) :=
  [("ref", mkSpec "Ref LS" (Some ref_fragment_after)); ("bare", bare_spec)].

Definition ref_known : obj :=
  [("ref",
    JObj [("type", JStr "object");
          ("properties",
           JObj [("priority",
                  JObj [("type", JStr "number"); ("default", JNum 50)]);
                 ("serverSettings", JObj ref_fragment_after)])])].

Definition ref_defaults : obj :=
  [("ref",
    JObj [("priority", JNum 50);
          ("serverSettings",
           JObj [("formatter", JStr "black"); ("lineLength", JNum 88)])])].

Definition ref_log : list LogEntry :=
  [WarnUnsupportedRef "https://example.org/schema.json";
   WarnNoConfigSchema "bare"].

(** The members of the schema of [plugin] on the way to
    [language_servers]. *)
Definition plugin_properties : obj :=
  [("language_servers", JObj [("type", JStr "object"); ("default", JObj [])])].

Definition plugin_language_servers : obj :=
  [("type", JStr "object"); ("default", JObj [])].

(** The schema that the first [fetch] of [plugin] returns when the manager
    holds [pyls_spec] and the validator accepts. *)
Definition fetched_schema : obj :=
  [("title", JStr "Language Servers");
   ("definitions",
    JObj [("language-server",
           JObj [("type", JStr "object");
                 ("properties",
                  JObj [("priority",
                         JObj [("type", JStr "number");
                               ("default", JNum 50)])])])]);
   ("properties",
    JObj [("language_servers",
           JObj [("type", JStr "object");
                 ("default",
                  JObj [("pyls",
                         JObj [("serverSettings",
                                JObj [("maxLineLength", JNum 80)])])]);
                 ("properties", JObj loop_known)])])].

(** A plugin whose schema has no [definitions]. *)
Definition bare_plugin : IPlugin :=
  mkPlugin (mkData [] []) "@jupyter-lsp/jupyterlab-lsp:plugin" "{}"
    [("properties", JObj plugin_properties)] "1.0.0".



(** User settings with a [serverSettings] that is [null]. *)
Definition null_settings : obj :=
  [("pyls", JObj [("serverSettings", JNull)])].

(** A manager that has recorded [loop_defaults]. *)
Definition recorded : State := set_defaults loop_defaults (initial [] []).

(** A completion item of a server that resolves, and what the server
    answers. *)
Definition print_match : Protocol.CompletionItem :=
  Protocol.mkCompletionItem "print" None None (Some "print($0)") None None
    None None.

Definition resolving : Protocol.Connection :=
  Protocol.mkConnection
    (Some (Protocol.mkCapabilities
             (Some (Protocol.mkCompletionOptions (Some true))))).

Definition print_options : CompletionItem.IOptions :=
  CompletionItem.mkOptions "function" print_match (Some resolving) true.

Definition print_resolved : Protocol.CompletionItem :=
  Protocol.mkCompletionItem "print (builtin)"
    (Some (Protocol.Markup (Protocol.mkMarkup Protocol.markdown "Prints.")))
    (Some "def print") (Some "print()") None None None None.

End Inputs.

(* ================================================================== *)
(** ** Facts about objects *)

Module JSFacts.
Import JS.

Lemma obj_get_set_eq (m : obj) (k : string) (v : JSON) :
  obj_get (obj_set m k v) k = Some v.
Proof.
  induction m as [|[k' v'] r IH]; simpl.
  - now rewrite String.eqb_refl.
  - destruct (k =? k') eqn:E; simpl; rewrite E; auto.
Qed.

Lemma obj_get_set_neq (m : obj) (k k' : string) (v : JSON) :
  k' <> k -> obj_get (obj_set m k v) k' = obj_get m k'.
Proof.
  intros N. induction m as [|[k0 v0] r IH]; simpl.
  - apply String.eqb_neq in N. now rewrite N.
  - destruct (k =? k0) eqn:E; simpl.
    + apply String.eqb_eq in E. subst k0.
      apply String.eqb_neq in N. now rewrite N.
    + now rewrite IH.
Qed.

Lemma obj_get_In (m : obj) (k : string) (v : JSON) :
  obj_get m k = Some v -> In (k, v) m.
Proof.
  induction m as [|[k0 v0] r IH]; simpl; [discriminate|].
  destruct (k =? k0) eqn:E.
  - apply String.eqb_eq in E. subst. intros [= ->]. now left.
  - intros H. right. auto.
Qed.

Lemma obj_get_None (m : obj) (k : string) :
  obj_get m k = None <-> ~ In k (keys m).
Proof.
  induction m as [|[k0 v0] r IH]; simpl.
  - tauto.
  - destruct (k =? k0) eqn:E.
    + apply String.eqb_eq in E. subst. split; [discriminate|]. tauto.
    + apply String.eqb_neq in E. rewrite IH. split.
      * intros H [F|F]; [congruence | tauto].
      * tauto.
Qed.

Lemma keys_set_new (m : obj) (k : string) (v : JSON) :
  ~ In k (keys m) -> keys (obj_set m k v) = keys m ++ [k].
Proof.
  induction m as [|[k0 v0] r IH]; simpl; intros H; [reflexivity|].
  destruct (k =? k0) eqn:E.
  - apply String.eqb_eq in E. subst. tauto.
  - simpl. f_equal. apply IH. tauto.
Qed.

Lemma keys_set_old (m : obj) (k : string) (v : JSON) :
  In k (keys m) -> keys (obj_set m k v) = keys m.
Proof.
  induction m as [|[k0 v0] r IH]; simpl; intros H; [tauto|].
  destruct (k =? k0) eqn:E; simpl; [reflexivity|].
  f_equal. apply IH. apply String.eqb_neq in E.
  destruct H; [congruence | assumption].
Qed.

Lemma keys_update (m : obj) (k : string) (f : JSON -> JSON) :
  keys (obj_update m k f) = keys m.
Proof.
  induction m as [|[k0 v0] r IH]; simpl; [reflexivity|].
  destruct (k =? k0); simpl; congruence.
Qed.

Lemma obj_get_update_eq (m : obj) (k : string) (f : JSON -> JSON) :
  obj_get (obj_update m k f) k = option_map f (obj_get m k).
Proof.
  induction m as [|[k0 v0] r IH]; simpl; [reflexivity|].
  destruct (k =? k0) eqn:E; simpl; rewrite E; auto.
Qed.

Lemma obj_get_update_neq (m : obj) (k k' : string) (f : JSON -> JSON) :
  k' <> k -> obj_get (obj_update m k f) k' = obj_get m k'.
Proof.
  intros N. induction m as [|[k0 v0] r IH]; simpl; [reflexivity|].
  destruct (k =? k0) eqn:E; simpl.
  - apply String.eqb_eq in E. subst k0.
    apply String.eqb_neq in N. now rewrite N.
  - now rewrite IH.
Qed.

Lemma obj_get_delete_eq (m : obj) (k : string) :
  obj_get (obj_delete m k) k = None.
Proof.
  induction m as [|[k0 v0] r IH]; simpl; [reflexivity|].
  destruct (k =? k0) eqn:E; simpl; [assumption|]. now rewrite E.
Qed.

Lemma obj_get_delete_neq (m : obj) (k k' : string) :
  k' <> k -> obj_get (obj_delete m k) k' = obj_get m k'.
Proof.
  intros N. induction m as [|[k0 v0] r IH]; simpl; [reflexivity|].
  destruct (k =? k0) eqn:E; simpl.
  - apply String.eqb_eq in E. subst k0.
    apply String.eqb_neq in N. now rewrite N.
  - now rewrite IH.
Qed.

(** Enumeration reorders the members but keeps, for every key, the member
    that a read finds. *)
Lemma obj_get_insert_index i k v l k' :
  array_index k = Some i ->
  (forall j kv, In (j, kv) l -> array_index (fst kv) = Some j) ->
  obj_get (map snd (insert_index (i, (k, v)) l)) k' =
  if k' =? k then Some v else obj_get (map snd l) k'.
Proof.
  intros Hi. induction l as [|[j [k0 v0]] r IH]; intros Hl; simpl.
  - reflexivity.
  - destruct (i <=? j)%N eqn:E; simpl.
    + reflexivity.
    + rewrite IH by (intros; apply Hl; now right).
      destruct (k' =? k) eqn:E1; [|reflexivity].
      destruct (k' =? k0) eqn:E2; [|reflexivity].
      apply String.eqb_eq in E1, E2. subst.
      specialize (Hl j (k0, v0) (or_introl eq_refl)). simpl in Hl.
      rewrite Hl in Hi. injection Hi as ->.
      rewrite N.leb_refl in E. discriminate.
Qed.

Lemma In_insert_index x y l :
  In y (insert_index x l) <-> y = x \/ In y l.
Proof.
  induction l as [|z r IH]; simpl.
  - intuition congruence.
  - destruct (fst x <=? fst z)%N; simpl; [intuition congruence|].
    rewrite IH. intuition congruence.
Qed.

Lemma index_members_sound m j kv :
  In (j, kv) (index_members m) -> array_index (fst kv) = Some j.
Proof.
  induction m as [|[k v] r IH]; simpl; [tauto|].
  destruct (array_index k) eqn:E; [|assumption].
  rewrite In_insert_index. intros [[= -> ->]|H]; auto.
Qed.

Lemma obj_get_index_members m k :
  obj_get (map snd (index_members m)) k =
  match array_index k with Some _ => obj_get m k | None => None end.
Proof.
  induction m as [|[k0 v0] r IH]; simpl.
  - now destruct (array_index k).
  - destruct (array_index k0) eqn:E0.
    + rewrite obj_get_insert_index
        by (auto; intros; eapply index_members_sound; eauto).
      destruct (k =? k0) eqn:E.
      * apply String.eqb_eq in E. subst. now rewrite E0.
      * assumption.
    + rewrite IH. destruct (k =? k0) eqn:E; [|reflexivity].
      apply String.eqb_eq in E. subst. now rewrite E0.
Qed.

Lemma obj_get_app (a b : obj) k :
  obj_get (a ++ b) k =
  match obj_get a k with Some v => Some v | None => obj_get b k end.
Proof.
  induction a as [|[k0 v0] r IH]; simpl; [reflexivity|].
  now destruct (k =? k0).
Qed.

Lemma obj_get_named m k :
  obj_get (filter is_named m) k =
  match array_index k with Some _ => None | None => obj_get m k end.
Proof.
  induction m as [|[k0 v0] r IH]; simpl.
  - now destruct (array_index k).
  - unfold is_named at 1. simpl. destruct (array_index k0) eqn:E0; simpl.
    + rewrite IH. destruct (k =? k0) eqn:E; [|reflexivity].
      apply String.eqb_eq in E. subst. now rewrite E0.
    + rewrite IH. destruct (k =? k0) eqn:E; [|reflexivity].
      apply String.eqb_eq in E. subst. now rewrite E0.
Qed.

Lemma obj_get_ownEntries (m : obj) (k : string) :
  obj_get (ownEntries m) k = obj_get m k.
Proof.
  unfold ownEntries. rewrite obj_get_app, obj_get_index_members, obj_get_named.
  destruct (array_index k); [|reflexivity]. now destruct (obj_get m k).
Qed.

Lemma obj_get_map (f : JSON -> JSON) (m : obj) (k : string) :
  obj_get (map (fun kv => (fst kv, f (snd kv))) m) k = option_map f (obj_get m k).
Proof.
  induction m as [|[k0 v0] r IH]; simpl; [reflexivity|].
  now destruct (k =? k0).
Qed.

Lemma obj_get_deepCopy (m : obj) (k : string) :
  obj_get (deepCopy_obj m) k = option_map deepCopy (obj_get m k).
Proof.
  unfold deepCopy_obj. now rewrite obj_get_ownEntries, obj_get_map.
Qed.

End JSFacts.

(* ================================================================== *)
(** ** Facts about computations *)

Module MFacts.
Import JS Settings Vocabulary.

Lemma post_ret {A} (a : A) st Q E : Q a st -> post (ret a) st Q E.
Proof. exact (fun H => H). Qed.

Lemma post_lift {A} (o : Outcome A) st Q E :
  match o with Ok a => Q a st | Throw _ => E st end -> post (lift o) st Q E.
Proof. unfold post, lift. now destruct o. Qed.

Lemma post_gets {A} (g : State -> A) st Q E : Q (g st) st -> post (gets g) st Q E.
Proof. exact (fun H => H). Qed.

Lemma post_modify (g : State -> State) st Q E :
  Q tt (g st) -> post (modify g) st Q E.
Proof. exact (fun H => H). Qed.

Lemma post_bind {A B} (c : M A) (k : A -> M B) st Q E :
  post c st (fun a st' => post (k a) st' Q E) E -> post (bind c k) st Q E.
Proof.
  unfold post, bind. destruct (c st) as [[a|e] st']; auto.
Qed.

Ltac post_step :=
  first
    [ apply post_ret
    | apply post_gets
    | apply post_modify
    | apply post_lift;
      match goal with |- match ?o with _ => _ end => destruct o eqn:? end
    | apply post_bind
    | match goal with
      | |- post (match ?x with _ => _ end) _ _ _ => destruct x eqn:?
      | |- post (if ?x then _ else _) _ _ _ => destruct x eqn:?
      end ].

Lemma unchanged_ret {A X} (f : State -> X) (a : A) : unchanged f (ret a).
Proof. intros st. reflexivity. Qed.

Lemma unchanged_lift {A X} (f : State -> X) (o : Outcome A) : unchanged f (lift o).
Proof. intros st. reflexivity. Qed.

Lemma unchanged_gets {A X} (f : State -> X) (g : State -> A) : unchanged f (gets g).
Proof. intros st. reflexivity. Qed.

Lemma unchanged_modify {X} (f : State -> X) (g : State -> State) :
  (forall st, f (g st) = f st) -> unchanged f (modify g).
Proof. intros H st. apply H. Qed.

Lemma unchanged_bind {A B X} (f : State -> X) (c : M A) (k : A -> M B) :
  unchanged f c -> (forall a, unchanged f (k a)) -> unchanged f (bind c k).
Proof.
  intros Hc Hk st. unfold bind. specialize (Hc st).
  destruct (c st) as [[a|e] st']; simpl in *.
  - now rewrite Hk.
  - assumption.
Qed.

Ltac unchanged_step :=
  first
    [ apply unchanged_ret
    | apply unchanged_lift
    | apply unchanged_gets
    | apply unchanged_modify; intros; reflexivity
    | apply unchanged_bind; [|intros]
    | match goal with
      | |- unchanged _ (match ?x with _ => _ end) => destruct x
      | |- unchanged _ (if ?x then _ else _) => destruct x
      end ].

Section WithHost.

Variable host : Host.

Lemma rollback_original errs schema : unchanged original (rollback errs schema).
Proof. unfold rollback. repeat unchanged_step. Qed.

Lemma populate_original plugin schema :
  unchanged original (populate host plugin schema).
Proof.
  unfold populate. repeat unchanged_step.
Qed.

Lemma collapse_original settings :
  unchanged original (_collapseServerSettingsDotted host settings).
Proof. unfold _collapseServerSettingsDotted. repeat unchanged_step. Qed.

Lemma compose_original plugin : unchanged original (compose host plugin).
Proof.
  unfold compose. repeat unchanged_step.
Qed.

Lemma sessionsChanged_original : unchanged original sessionsChanged.
Proof. unfold sessionsChanged. repeat unchanged_step. Qed.

End WithHost.
End MFacts.

(* ================================================================== *)
(** ** The cache: [fetch], [sessionsChanged] and the two snapshots *)

Module CacheFacts.
Import JS Settings Vocabulary MFacts.

Section WithHost.

Variable host : Host.

Lemma fetch_cached plugin st c o :
  canonical st = Some c -> original st = Some o ->
  fetch host plugin st =
  (Ok (mkPlugin (data plugin) (id plugin) (raw plugin) c (version plugin)), st).
Proof.
  intros Hc Ho. unfold fetch, bind, gets. rewrite Ho. simpl. rewrite Hc.
  reflexivity.
Qed.

Lemma fetch_original_kept plugin st o :
  original st = Some o -> original (snd (fetch host plugin st)) = Some o.
Proof.
  intros Ho. unfold fetch. unfold bind at 1. unfold gets at 1. cbv iota.
  rewrite Ho.
  match goal with
  | |- original (snd (?c st)) = _ =>
    assert (U : unchanged original c) by repeat unchanged_step
  end.
  now rewrite U.
Qed.

Lemma fetch_original_captured plugin st :
  original st = None ->
  original (snd (fetch host plugin st)) = Some (deepCopy_obj (schema plugin)).
Proof.
  intros Ho. unfold fetch. unfold bind at 1. unfold gets at 1. cbv iota.
  rewrite Ho. unfold bind at 1. unfold modify at 1. cbv iota.
  match goal with
  | |- original (snd (?c ?s)) = _ =>
    assert (U : unchanged original c) by repeat unchanged_step
  end.
  now rewrite U.
Qed.

Lemma step_original_kept e st o :
  original st = Some o -> original (step host e st) = Some o.
Proof.
  intros Ho. destruct e as [plugin|plugin|sp ss]; unfold step.
  - now apply fetch_original_kept.
  - now rewrite compose_original.
  - now rewrite sessionsChanged_original.
Qed.

Lemma run_original_kept evs st o :
  original st = Some o -> original (run host evs st) = Some o.
Proof.
  revert st. induction evs as [|e r IH]; intros st Ho; simpl.
  - assumption.
  - apply IH. now apply step_original_kept.
Qed.


Lemma post_conseq {A} (c : M A) st (Q Q' : A -> State -> Prop) (E E' : State -> Prop) :
  post c st Q E ->
  (forall a s, Q a s -> Q' a s) -> (forall s, E s -> E' s) ->
  post c st Q' E'.
Proof.
  unfold post. destruct (c st) as [[a|e] st']; auto.
Qed.

(** [populate] keeps [canonical] pointing at the schema it is working on,
    and does not touch [original]. *)
Lemma populate_canonical plugin schema st o :
  canonical st = Some schema -> original st = Some o ->
  post (populate host plugin schema) st
    (fun s st' => canonical st' = Some s /\ original st' = Some o)
    (fun st' => (exists c, canonical st' = Some c) /\ original st' = Some o).
Proof.
  intros Hc Ho. unfold populate. repeat post_step; simpl; eauto.
Qed.

Lemma fetch_post plugin st :
  post (fetch host plugin) st
    (fun r st' => canonical st' = Some (schema r) /\ exists o, original st' = Some o)
    (fun st' => (exists c, canonical st' = Some c) /\ exists o, original st' = Some o).
Proof.
  unfold fetch.
  apply post_bind, post_gets, post_bind.
  destruct (original st) as [o|] eqn:Ho.
  - apply post_ret, post_bind, post_gets, post_bind.
    destruct (canonical st) as [c|] eqn:Hc.
    + apply post_ret, post_ret. simpl. eauto.
    + apply post_bind, post_modify.
      eapply post_conseq.
      * apply (@populate_canonical plugin _ _ o); reflexivity || assumption.
      * intros s st' [H1 H2]. apply post_ret. simpl. eauto.
      * intros st' [H1 H2]. eauto.
  - apply post_modify, post_bind, post_gets, post_bind.
    destruct (canonical st) as [c|] eqn:Hc.
    + simpl. rewrite Hc. apply post_ret, post_ret. simpl. eauto.
    + simpl. rewrite Hc. apply post_bind, post_modify.
      eapply post_conseq.
      * apply (@populate_canonical plugin _ _ (deepCopy_obj (schema plugin)));
          reflexivity.
      * intros s st' [H1 H2]. apply post_ret. simpl. eauto.
      * intros st' [H1 H2]. eauto.
Qed.

Lemma fetch_all_cached ps st c o :
  canonical st = Some c -> original st = Some o ->
  fetch_all host ps st =
  (map (fun p => Ok (mkPlugin (data p) (id p) (raw p) c (version p))) ps, st).
Proof.
  intros Hc Ho. induction ps as [|p r IH]; simpl.
  - reflexivity.
  - rewrite (fetch_cached p st Hc Ho), IH. reflexivity.
Qed.

(** C6.  After a [fetch], whether it returned or threw, the cache holds a
    schema; a [fetch] that returned has returned that schema.  As long as the
    sessions do not change, every later [fetch], of any plugin, returns the
    cached schema and leaves the whole state as it is: the attempt counter,
    the log, the specs and the recorded errors show that neither composition
    nor validation has run again.  The [sessionsChanged] handler empties the
    cache. *)
Theorem fetch_stable_within_epoch (plugin : IPlugin) (st : State) :
  exists c,
    canonical (snd (fetch host plugin st)) = Some c /\
    (forall r, fst (fetch host plugin st) = Ok r -> schema r = c) /\
    (forall ps,
        fetch_all host ps (snd (fetch host plugin st)) =
        (map (fun p => Ok (mkPlugin (data p) (id p) (raw p) c (version p))) ps,
         snd (fetch host plugin st))) /\
    canonical (snd (sessionsChanged (snd (fetch host plugin st)))) = None.
Proof.
  pose proof (fetch_post plugin st) as H. unfold post in H.
  destruct (fetch host plugin st) as [[r|e] st'] eqn:F; simpl.
  - destruct H as [Hc [o Ho]]. exists (schema r). repeat split; auto.
    + now intros r0 [= <-].
    + intros ps. now apply fetch_all_cached with o.
  - destruct H as [[c Hc] [o Ho]]. exists c. repeat split; auto.
    + discriminate.
    + intros ps. now apply fetch_all_cached with o.
Qed.

End WithHost.

End CacheFacts.

(* ================================================================== *)
(** ** The composer: the loop of [populate] over the specs *)

Module ComposerFacts.
Import JS Settings Vocabulary JSFacts.

Lemma Permutation_insert_index x l :
  Permutation (map snd (insert_index x l)) (snd x :: map snd l).
Proof.
  induction l as [|y r IH]; simpl.
  - reflexivity.
  - destruct (fst x <=? fst y)%N; simpl.
    + reflexivity.
    + rewrite IH. apply perm_swap.
Qed.

Lemma Permutation_ownEntries (m : obj) : Permutation (ownEntries m) m.
Proof.
  unfold ownEntries. induction m as [|[k v] r IH]; simpl.
  - reflexivity.
  - unfold is_named at 1. simpl. destruct (array_index k).
    + rewrite Permutation_insert_index. simpl. now constructor.
    + rewrite <- Permutation_middle. now constructor.
Qed.

Lemma NoDup_keys_ownEntries (m : obj) :
  NoDup (keys m) -> NoDup (keys (ownEntries m)).
Proof.
  intros H. eapply Permutation_NoDup; [|exact H].
  unfold keys. apply Permutation_map. symmetry. apply Permutation_ownEntries.
Qed.



Section WithHost.

Variable host : Host.

(** A turn of the loop over the properties touches nothing of the fragment
    but its [properties]. *)
Lemma inline_ref_frame cs key value o cs' w k :
  inline_ref cs key value = (o, cs', w) ->
  k <> "properties" -> obj_get cs' k = obj_get cs k.
Proof.
  unfold inline_ref. intros H N.
  destruct (negb (isJSONProperty value)); [now inversion H|].
  destruct (member value "$ref") as [[| | |ref| |]|]; try now inversion H.
  destruct (String.prefix "#/definitions/" ref); [|now inversion H].
  destruct (get_member _ _) as [definition|e]; [|now inversion H].
  destruct (entries definition) as [des|e]; [|now inversion H].
  inversion H; subst. now apply obj_get_update_neq.
Qed.

Lemma inline_refs_frame es cs o cs' w k :
  inline_refs cs es = (o, cs', w) ->
  k <> "properties" -> obj_get cs' k = obj_get cs k.
Proof.
  revert cs o cs' w. induction es as [|[key value] r IH]; intros cs o cs' w H N.
  - simpl in H. now inversion H.
  - simpl in H.
    destruct (inline_ref cs key value) as [[[[]|e] cs1] w1] eqn:E1.
    + destruct (inline_refs cs1 r) as [[o2 cs2] w2] eqn:E2.
      inversion H; subst.
      rewrite (IH _ _ _ _ E2 N). eapply inline_ref_frame; eauto.
    + inversion H; subst. eapply inline_ref_frame; eauto.
Qed.




Lemma seq_member_properties l : seq_member l "properties" = None.
Proof. reflexivity. Qed.

(** What a turn of the loop over the specs that composes an entry has
    done. *)
Lemma transform_spec_composed ss base shared k s known dflt s' w :
  transform_spec host ss base shared k s = (Ok (Some (known, dflt)), s', w) ->
  exists cs cs3 bm pm,
    config_schema s = Some cs /\
    skipped k s = false /\
    s' = mkSpec (display_name s) (Some cs3) /\
    (forall key, key <> "properties" ->
       obj_get cs3 key =
       obj_get (obj_set (obj_set cs "description"
                           (JStr (description_of host ss k s)))
                  "title" (JStr (title_text host))) key) /\
    (exists es,
       entries (obj_get cs "properties") = Ok es /\
       inline_refs
         (obj_set (obj_set cs "description" (JStr (description_of host ss k s)))
            "title" (JStr (title_text host))) es = (Ok tt, cs3, w)) /\
    deepCopy_opt base = JObj bm /\
    obj_get bm "properties" = Some (JObj pm) /\
    known = JObj (obj_set bm "properties"
                    (JObj (obj_set pm "serverSettings" (JObj cs3)))) /\
    dflt = JObj (obj_set (ownEntries shared) "serverSettings"
                   (JObj (getDefaults (obj_get cs3 "properties")))).
Proof.
  unfold transform_spec, skipped. intros H.
  destruct (k =? "") eqn:K; [inversion H|].
  destruct (config_schema s) as [cs|] eqn:C; [|inversion H].
  destruct (negb (truthy_opt (obj_get cs "properties"))) eqn:T; [inversion H|].
  set (cs2 := obj_set (obj_set cs "description" _) "title" _) in *.
  assert (P2 : obj_get cs2 "properties" = obj_get cs "properties").
  { unfold cs2. rewrite !obj_get_set_neq by discriminate. reflexivity. }
  rewrite P2 in H.
  destruct (entries (obj_get cs "properties")) as [es|e] eqn:E; [|inversion H].
  destruct (inline_refs cs2 es) as [[[[]|e] cs3] w3] eqn:I; [|inversion H].
  destruct (deepCopy_opt base) as [| | |str|l|bm] eqn:B;
    cbn [get_member member obind] in H;
    rewrite ?seq_member_properties in H; cbn [set_member] in H;
    try (inversion H; fail).
  destruct (obj_get bm "properties") as [[| | | | |pm]|] eqn:PB;
    cbn [set_member assign] in H; inversion H; subst.
  exists cs, cs3, bm, pm. repeat split; auto.
  - intros key N. eapply inline_refs_frame; eauto.
  - exists es. auto.
Qed.

Lemma transform_spec_skipped ss base shared k s :
  skipped k s = true ->
  exists e, transform_spec host ss base shared k s = (Ok None, s, [e]) /\
            skip_warning k s e.
Proof.
  unfold skipped, transform_spec, skip_warning. intros H.
  destruct (k =? ""); [eauto|].
  destruct (config_schema s) as [cs|]; [|eauto].
  simpl in H. rewrite H. eauto 6.
Qed.

Lemma transform_spec_not_skipped ss base shared k s o s' w :
  skipped k s = false ->
  transform_spec host ss base shared k s = (Ok o, s', w) ->
  exists known dflt, o = Some (known, dflt).
Proof.
  unfold skipped, transform_spec. intros S H.
  destruct (k =? ""); [discriminate|].
  destruct (config_schema s) as [cs|]; [|discriminate].
  simpl in S. rewrite S in H.
  destruct (entries _) as [es|e]; [|inversion H].
  destruct (inline_refs _ es) as [[[[]|e] cs3] w3]; [|inversion H].
  destruct (obind _ _); inversion H. eauto.
Qed.

Lemma transform_specs_other ss base shared sp known0 dflt0 known dflt sp' w k :
  transform_specs host ss base shared sp known0 dflt0 = (Ok (known, dflt), sp', w) ->
  ~ In k (map fst sp) ->
  obj_get known k = obj_get known0 k /\ obj_get dflt k = obj_get dflt0 k.
Proof.
  revert known0 dflt0 sp' w.
  induction sp as [|[k1 s1] r IH]; intros known0 dflt0 sp' w H N.
  - simpl in H. inversion H; subst. auto.
  - simpl in H, N.
    destruct (transform_spec host ss base shared k1 s1) as [[[[[ke de]|]|e] s1'] w1].
    + destruct (transform_specs host ss base shared r _ _) as [[o r'] w'] eqn:R.
      inversion H; subst.
      destruct (IH _ _ _ _ R) as [A B]; [tauto|].
      rewrite A, B, !obj_get_set_neq by (intros ->; tauto). auto.
    + destruct (transform_specs host ss base shared r _ _) as [[o r'] w'] eqn:R.
      inversion H; subst. apply (IH _ _ _ _ R). tauto.
    + inversion H.
Qed.

(** When the loop over the specs runs to its end, every spec has had its
    turn, and what the turn composed is what the two maps hold. *)
Lemma transform_specs_each ss base shared sp known0 dflt0 known dflt sp' w k s :
  transform_specs host ss base shared sp known0 dflt0 = (Ok (known, dflt), sp', w) ->
  NoDup (map fst sp) ->
  In (k, s) sp ->
  exists o s' wk,
    transform_spec host ss base shared k s = (Ok o, s', wk) /\
    In (k, s') sp' /\ incl wk w /\
    match o with
    | Some (ke, de) => obj_get known k = Some ke /\ obj_get dflt k = Some de
    | None => obj_get known k = obj_get known0 k /\ obj_get dflt k = obj_get dflt0 k
    end.
Proof.
  revert known0 dflt0 sp' w.
  induction sp as [|[k1 s1] r IH]; intros known0 dflt0 sp' w H ND I.
  - destruct I.
  - simpl in H. inversion ND as [|? ? Hk1 ND']; subst.
    destruct (transform_spec host ss base shared k1 s1)
      as [[[[[ke de]|]|e] s1'] w1] eqn:T; [| |inversion H].
    + destruct (transform_specs host ss base shared r _ _) as [[o r'] w'] eqn:R.
      inversion H; subst. destruct I as [[= -> ->]|I].
      * exists (Some (ke, de)), s1', w1. repeat split.
        -- assumption.
        -- now left.
        -- now apply incl_appl.
        -- destruct (transform_specs_other _ _ _ _ _ _ k R Hk1) as [A _].
           rewrite A. apply obj_get_set_eq.
        -- destruct (transform_specs_other _ _ _ _ _ _ k R Hk1) as [_ B].
           rewrite B. apply obj_get_set_eq.
      * destruct (IH _ _ _ _ R ND' I) as (o' & s' & wk & T' & I' & W' & G).
        exists o', s', wk. repeat split; auto.
        -- now right.
        -- now apply incl_appr.
        -- assert (k <> k1).
           { intros ->. apply Hk1. apply in_map_iff. now exists (k1, s). }
           destruct o' as [[ke' de']|]; [assumption|].
           now rewrite !obj_get_set_neq in G.
    + destruct (transform_specs host ss base shared r _ _) as [[o r'] w'] eqn:R.
      inversion H; subst. destruct I as [[= -> ->]|I].
      * exists None, s1', w1. repeat split.
        -- assumption.
        -- now left.
        -- now apply incl_appl.
        -- apply (transform_specs_other _ _ _ _ _ _ k R Hk1).
        -- apply (transform_specs_other _ _ _ _ _ _ k R Hk1).
      * destruct (IH _ _ _ _ R ND' I) as (o' & s' & wk & T' & I' & W' & G).
        exists o', s', wk. repeat split; auto.
        -- now right.
        -- now apply incl_appr.
Qed.

Lemma transform_specs_keys ss base shared sp known0 dflt0 known dflt sp' w :
  transform_specs host ss base shared sp known0 dflt0 = (Ok (known, dflt), sp', w) ->
  NoDup (map fst sp) ->
  (forall k, In k (map fst sp) -> ~ In k (keys known0) /\ ~ In k (keys dflt0)) ->
  keys known = keys known0 ++ composed_keys sp /\
  keys dflt = keys dflt0 ++ composed_keys sp /\
  map fst sp' = map fst sp.
Proof.
  unfold composed_keys. revert known0 dflt0 sp' w.
  induction sp as [|[k1 s1] r IH]; intros known0 dflt0 sp' w H ND F.
  - simpl in H. inversion H; subst. simpl. now rewrite !app_nil_r.
  - simpl in H. inversion ND as [|? ? Hk1 ND']; subst.
    destruct (F k1 (or_introl eq_refl)) as [F1 F2].
    destruct (transform_spec host ss base shared k1 s1)
      as [[[[[ke de]|]|e] s1'] w1] eqn:T; [| |inversion H].
    + destruct (transform_specs host ss base shared r _ _) as [[o r'] w'] eqn:R.
      inversion H; subst.
      assert (S : skipped k1 s1 = false).
      { destruct (skipped k1 s1) eqn:S; [|reflexivity].
        destruct (transform_spec_skipped ss base shared _ _ S) as [e [T' _]].
        congruence. }
      destruct (IH _ _ _ _ R ND') as (A & B & C).
      { intros k I. rewrite !keys_set_new, !in_app_iff by assumption.
        destruct (F k (or_intror I)). simpl.
        assert (k1 <> k) by (intros ->; tauto). tauto. }
      simpl. rewrite S. simpl.
      rewrite A, B, C, !keys_set_new by assumption.
      now rewrite <- !app_assoc.
    + destruct (transform_specs host ss base shared r _ _) as [[o r'] w'] eqn:R.
      inversion H; subst.
      assert (S : skipped k1 s1 = true).
      { destruct (skipped k1 s1) eqn:S; [reflexivity|].
        destruct (transform_spec_not_skipped _ _ _ _ _ S T) as (? & ? & ?).
        discriminate. }
      destruct (IH _ _ _ _ R ND') as (A & B & C).
      { intros k I. apply F. now right. }
      simpl. rewrite S. simpl. now rewrite A, B, C.
Qed.





(** C3, as amended.  The loop over the specs composes each fragment in
    place.  When it runs to its end, the manager holds the same keys, a
    skipped spec is what it was, and a spec that is not skipped holds the
    composed fragment: it carries the description and the title, and it is
    the very fragment stored as [serverSettings] in the entry of
    [knownServersConfig], whose other members are a deep copy of the base
    server schema. *)
Theorem fragment_composed_in_place
    (ss : list string) (base : option JSON) (shared : obj)
    (sp sp' : list (string * ServerSpec)) (known dflt : obj) (w : list LogEntry) :
  NoDup (map fst sp) ->
  transform_specs host ss base shared sp [] [] = (Ok (known, dflt), sp', w) ->
  map fst sp' = map fst sp /\
  forall k s, In (k, s) sp ->
    (skipped k s = true -> In (k, s) sp') /\
    (skipped k s = false ->
     exists cs3 bm pm,
       In (k, mkSpec (display_name s) (Some cs3)) sp' /\
       obj_get cs3 "description" = Some (JStr (description_of host ss k s)) /\
       obj_get cs3 "title" = Some (JStr (title_text host)) /\
       deepCopy_opt base = JObj bm /\
       obj_get bm "properties" = Some (JObj pm) /\
       obj_get known k =
         Some (JObj (obj_set bm "properties"
                       (JObj (obj_set pm "serverSettings" (JObj cs3)))))).
Proof.
  intros ND H. split.
  { apply (transform_specs_keys ss base shared sp [] [] H ND). intros k _. simpl. tauto. }
  intros k s I.
  destruct (transform_specs_each ss base shared sp [] [] k s H ND I)
    as (o & s' & wk & T & I' & _ & G).
  split; intros S.
  - destruct (transform_spec_skipped ss base shared _ _ S) as (e & T' & _).
    rewrite T in T'. now inversion T'; subst.
  - destruct (transform_spec_not_skipped ss base shared k s S T) as (ke & de & ->).
    destruct (transform_spec_composed ss base shared k s T)
      as (cs0 & cs3 & bm & bp & C0 & _ & -> & F & _ & B & PB & -> & _).
    exists cs3, bm, bp. repeat split; auto.
    + rewrite F by discriminate.
      rewrite obj_get_set_neq by discriminate. apply obj_get_set_eq.
    + rewrite F by discriminate. apply obj_get_set_eq.
    + apply G.
Qed.

End WithHost.

End ComposerFacts.


(* ================================================================== *)
(** ** The loop over the specs: which specs enter the maps *)

Module LoopFacts.
Import JS Settings Vocabulary JSFacts ComposerFacts.

Local Unset Implicit Arguments.

Section WithHost.

Variable host : Host.







End WithHost.
End LoopFacts.

(* ================================================================== *)
(** ** The snapshot of the original schema *)

Module SnapshotFacts.
Import JS Settings Vocabulary MFacts CacheFacts Examples.

(** C5.  The first [fetch] of a manager that holds no snapshot stores a deep
    copy of the schema of the plugin it is given in [original].  Whatever
    happens afterwards (more fetches, with any plugin; composes; changes of
    the sessions, each of which starts a new epoch), [original] is still
    that copy.  The [sessionsChanged] handler clears [canonical] and leaves
    [original] alone. *)
Theorem original_schema_captured_once
    (host : Host) (st : State) (plugin : IPlugin) (evs : list Event) :
  original st = None ->
  original (snd (fetch host plugin st)) = Some (deepCopy_obj (schema plugin)) /\
  original (run host evs (snd (fetch host plugin st))) =
    Some (deepCopy_obj (schema plugin)) /\
  (forall st', canonical (snd (sessionsChanged st')) = None /\
               original (snd (sessionsChanged st')) = original st').
Proof.
  intros Ho. pose proof (fetch_original_captured host plugin st Ho) as H.
  repeat split.
  - exact H.
  - now apply run_original_kept.
Qed.

Lemma original_schema_captured_once_witness :
  original (initial [("pyls", pyls_spec)] ["pyls"]) = None /\
  original
    (run Collaborators.rejecting
       [Compose plugin;
        SessionsChanged [("pyls", pyls_spec); ("bare", bare_spec)] [];
        Fetch (mkPlugin (mkData [] []) "other" "{}" [] "2.0.0");
        SessionsChanged [] [];
        Fetch plugin]
       (snd (fetch Collaborators.rejecting plugin
               (initial [("pyls", pyls_spec)] ["pyls"])))) =
  Some (deepCopy_obj (schema plugin)).
Proof.
  split; [reflexivity|].
  exact (proj1 (proj2
    (original_schema_captured_once Collaborators.rejecting
       (initial [("pyls", pyls_spec)] ["pyls"]) plugin
       [Compose plugin;
        SessionsChanged [("pyls", pyls_spec); ("bare", bare_spec)] [];
        Fetch (mkPlugin (mkData [] []) "other" "{}" [] "2.0.0");
        SessionsChanged [] [];
        Fetch plugin]
       eq_refl))).
Defined.

End SnapshotFacts.

(* ================================================================== *)
(** ** The collapse of the user settings and the [compose] transform *)

Module CollapseFacts.
Import JS Settings Vocabulary JSFacts MFacts Examples.


Section WithHost.

Variable host : Host.


(** The value [compose] returns is computed from the plugin alone: no part
    of the state, the recorded defaults among them, has a say in it. *)
Lemma compose_ignores_state (plugin : IPlugin) (st1 st2 : State) :
  fst (compose host plugin st1) = fst (compose host plugin st2).
Proof.
  unfold compose, _collapseServerSettingsDotted, bind, lift, modify, ret.
  destruct (entries _) as [es|e]; [|reflexivity].
  destruct (fold_left _ es _) as [cf res].
  now destruct (0 <? _)%nat.
Qed.

(** C10.  When the user data has a [language_servers] member, [compose]
    returns the plugin with new data: [language_servers] holds one and the
    same value in [user] and in [composite], the value that
    [_collapseServerSettingsDotted] returns; every other member of
    [composite] is the deep copy of the member of the user data as it was
    given, and every other member of [user] is as it was given.  The recorded
    defaults do not enter the result. *)
Theorem composite_mirrors_collapsed_user (plugin : IPlugin) (st : State) :
  nullish (obj_get (user (data plugin)) "language_servers") = false ->
  exists collapsed user' composite' st',
    compose host plugin st =
      (Ok (mkPlugin (mkData composite' user') (id plugin) (raw plugin)
             (schema plugin) (version plugin)), st') /\
    fst (_collapseServerSettingsDotted host
           (obj_get (user (data plugin)) "language_servers") st) = Ok collapsed /\
    obj_get user' "language_servers" = Some collapsed /\
    obj_get composite' "language_servers" = Some collapsed /\
    (forall k, k <> "language_servers" ->
       obj_get composite' k = option_map deepCopy (obj_get (user (data plugin)) k) /\
       obj_get user' k = obj_get (user (data plugin)) k) /\
    (forall d, fst (compose host plugin (set_defaults d st)) =
               fst (compose host plugin st)).
Proof.
  intros N. unfold compose, _collapseServerSettingsDotted, bind, lift, ret.
  destruct (obj_get (user (data plugin)) "language_servers") as [ls|] eqn:L;
    [|discriminate].
  assert (E : exists es, entries (Some ls) = Ok es).
  { destruct ls; try discriminate; cbn [entries]; eauto. }
  destruct E as [es ->].
  destruct (fold_left _ _ _) as [cf res] eqn:F.
  assert (G : forall u c : obj, forall x : JSON,
             u = obj_set (user (data plugin)) "language_servers" x ->
             c = obj_set (deepCopy_obj (user (data plugin))) "language_servers" x ->
             obj_get u "language_servers" = Some x /\
             obj_get c "language_servers" = Some x /\
             (forall k, k <> "language_servers" ->
                obj_get c k = option_map deepCopy (obj_get (user (data plugin)) k) /\
                obj_get u k = obj_get (user (data plugin)) k)).
  { intros u c x -> ->. split; [apply obj_get_set_eq|].
    split; [apply obj_get_set_eq|]. intros k K.
    rewrite !obj_get_set_neq by assumption. split; [|reflexivity].
    apply obj_get_deepCopy. }
  destruct (0 <? _)%nat; cbn [modify];
    do 4 eexists; (split; [reflexivity|]); (split; [reflexivity|]);
    (destruct (G _ _ res eq_refl eq_refl) as (G1 & G2 & G3);
     split; [exact G1|]; split; [exact G2|]; split; [exact G3|];
     intros d; reflexivity).
Qed.

End WithHost.


Lemma composite_mirrors_collapsed_user_witness :
  nullish (obj_get user_data "language_servers") = false /\
  exists collapsed user' composite' st',
    compose Collaborators.accepting (mkPlugin (mkData [] user_data) "p" "{}" [] "1") (initial [] []) =
      (Ok (mkPlugin (mkData composite' user') "p" "{}" [] "1"), st') /\
    fst (_collapseServerSettingsDotted Collaborators.accepting
           (obj_get user_data "language_servers") (initial [] [])) = Ok collapsed /\
    obj_get user' "language_servers" = Some collapsed /\
    obj_get composite' "language_servers" = Some collapsed /\
    (forall k, k <> "language_servers" ->
       obj_get composite' k = option_map deepCopy (obj_get user_data k) /\
       obj_get user' k = obj_get user_data k) /\
    (forall d, fst (compose Collaborators.accepting (mkPlugin (mkData [] user_data) "p" "{}" [] "1")
                      (set_defaults d (initial [] []))) =
               fst (compose Collaborators.accepting (mkPlugin (mkData [] user_data) "p" "{}" [] "1")
                      (initial [] []))).
Proof.
  split; [reflexivity|].
  apply (composite_mirrors_collapsed_user Collaborators.accepting
           (mkPlugin (mkData [] user_data) "p" "{}" [] "1") (initial [] [])).
  reflexivity.
Defined.

End CollapseFacts.

(* ================================================================== *)
(** ** A reference to a definition that is missing *)

Module DanglingRefFacts.
Import JS Settings Vocabulary JSFacts MFacts ComposerFacts Examples.



Section WithHost.

Variable host : Host.







End WithHost.


(** What the code does on that input: the warning is logged, the reference
    is still in place, the composition has thrown, the spec that follows has
    not been looked at, and the validator has not been called. *)
Example dangling_ref_evaluated :
  let st := initial [("dangling", dangling_spec); ("pyls", pyls_spec)] ["pyls"] in
  let r := fetch Collaborators.accepting plugin st in
  fst r = Throw TypeError /\
  log (snd r) = [WarnDefinitionNotFound] /\
  (exists cs, In ("dangling", mkSpec "Dangling" (Some cs)) (specs (snd r)) /\
              obj_get cs "properties" =
              Some (JObj [("formatter",
                           JObj [("$ref", JStr "#/definitions/missing")])])) /\
  In ("pyls", pyls_spec) (specs (snd r)) /\
  validationAttempt (snd r) = 0%N /\
  canonical (snd r) = Some plugin_schema.
Proof.
  vm_compute. repeat split.
  - eexists. split; [left; reflexivity | reflexivity].
  - right. left. reflexivity.
Qed.

End DanglingRefFacts.

(* ================================================================== *)
(** ** The validation gate: the rollback *)

Module GateFacts.
Import JS Settings Vocabulary JSFacts MFacts Examples.

Lemma get_path2_object schema a b k sp sls :
  obj_get schema a = Some (JObj sp) ->
  obj_get sp b = Some (JObj sls) ->
  get_path2 schema a b k = Ok (obj_get sls k).
Proof.
  intros A B. unfold get_path2. cbn [get_member member obind].
  rewrite A. cbn [get_member member obind]. rewrite B. reflexivity.
Qed.

Lemma delete_path2_object schema a b k sp sls :
  obj_get schema a = Some (JObj sp) ->
  obj_get sp b = Some (JObj sls) ->
  exists schema' sp',
    delete_path2 schema a b k = Ok schema' /\
    obj_get schema' a = Some (JObj sp') /\
    obj_get sp' b = Some (JObj (obj_delete sls k)) /\
    (forall k', k' <> a -> obj_get schema' k' = obj_get schema k') /\
    (forall k', k' <> b -> obj_get sp' k' = obj_get sp k').
Proof.
  intros A B. unfold delete_path2. cbn [get_member member obind].
  rewrite A. cbn [get_member member obind]. rewrite B.
  eexists. exists (obj_update sp b (fun _ => JObj (obj_delete sls k))).
  split; [reflexivity|]. repeat split.
  - rewrite obj_get_update_eq, A. reflexivity.
  - rewrite obj_get_update_eq, B. reflexivity.
  - intros k' N. now apply obj_get_update_neq.
  - intros k' N. now apply obj_get_update_neq.
Qed.

(** C4, as amended.  When the snapshot of the original schema is there and
    both it and the composed schema have an object under
    [properties.language_servers], the rollback returns without throwing.  It
    stores the reported errors in [_validationErrors].  It deletes
    [properties] from [language_servers] of the composed schema exactly when
    that member of the original is absent or falsy, and [default] exactly
    when that member of the original is absent or falsy; a member that is
    not deleted is as composition left it, and nothing else of the schema
    changes. *)
Theorem rollback_is_field_granular
    (errs : list IError) (schema orig op ols sp sls : obj) (st : State) :
  canonical st = Some schema ->
  original st = Some orig ->
  obj_get orig "properties" = Some (JObj op) ->
  obj_get op "language_servers" = Some (JObj ols) ->
  obj_get schema "properties" = Some (JObj sp) ->
  obj_get sp "language_servers" = Some (JObj sls) ->
  exists schema' sp' sls' st',
    rollback errs schema st = (Ok schema', st') /\
    canonical st' = Some schema' /\
    _validationErrors st' = errs /\
    obj_get schema' "properties" = Some (JObj sp') /\
    obj_get sp' "language_servers" = Some (JObj sls') /\
    obj_get sls' "properties" =
      (if truthy_opt (obj_get ols "properties")
       then obj_get sls "properties" else None) /\
    obj_get sls' "default" =
      (if truthy_opt (obj_get ols "default")
       then obj_get sls "default" else None) /\
    (forall k, k <> "properties" -> k <> "default" ->
               obj_get sls' k = obj_get sls k) /\
    (forall k, k <> "language_servers" -> obj_get sp' k = obj_get sp k) /\
    (forall k, k <> "properties" -> obj_get schema' k = obj_get schema k).
Proof.
  intros Hc Ho O1 O2 S1 S2.
  unfold rollback, bind, modify, gets, lift, ret.
  cbn [original add_log set_validationErrors]. rewrite Ho.
  rewrite !(get_path2_object orig "properties" "language_servers" _ O1 O2).
  destruct (truthy_opt (obj_get ols "properties")) eqn:T1; cbn [negb].
  - destruct (truthy_opt (obj_get ols "default")) eqn:T2; cbn [negb].
    + exists schema, sp, sls. eexists. split; [reflexivity|].
      cbn. repeat split; auto.
    + destruct (delete_path2_object schema "properties" "language_servers"
                  "default" S1 S2) as (s2 & sp2 & -> & A2 & B2 & C2 & D2).
      exists s2, sp2, (obj_delete sls "default"). eexists.
      split; [reflexivity|]. cbn. repeat split; auto.
      * apply obj_get_delete_neq. discriminate.
      * apply obj_get_delete_eq.
      * intros k N1 N2. now apply obj_get_delete_neq.
  - destruct (delete_path2_object schema "properties" "language_servers"
                "properties" S1 S2) as (s1 & sp1 & -> & A1 & B1 & C1 & D1).
    destruct (truthy_opt (obj_get ols "default")) eqn:T2; cbn [negb].
    + exists s1, sp1, (obj_delete sls "properties"). eexists.
      split; [reflexivity|]. cbn. repeat split; auto.
      * apply obj_get_delete_eq.
      * apply obj_get_delete_neq. discriminate.
      * intros k N1 N2. now apply obj_get_delete_neq.
    + destruct (delete_path2_object s1 "properties" "language_servers"
                  "default" A1 B1) as (s2 & sp2 & -> & A2 & B2 & C2 & D2).
      exists s2, sp2, (obj_delete (obj_delete sls "properties") "default").
      eexists. split; [reflexivity|]. cbn. repeat split; auto.
      * rewrite obj_get_delete_neq by discriminate. apply obj_get_delete_eq.
      * apply obj_get_delete_eq.
      * intros k N1 N2. now rewrite !obj_get_delete_neq.
      * intros k N. rewrite D2, D1; auto.
      * intros k N. rewrite C2, C1; auto.
Qed.

End GateFacts.

(* ================================================================== *)
(** ** The statements on concrete inputs *)

Module Instances.
Import JS Settings Vocabulary Examples.

Lemma loop_specs_distinct : NoDup (map fst loop_specs).
Proof.
  simpl. repeat constructor; simpl; intuition discriminate.
Qed.

Lemma loop_evaluated :
  transform_specs Collaborators.accepting ["pyls"] (Some base_server_schema)
    shared_defaults loop_specs [] [] =
  (Ok (loop_known, loop_defaults), loop_specs_after, loop_log).
Proof. reflexivity. Qed.



(** C3, as the claim states it, fails: after the first fetch the fragment
    the manager holds for the server is not what it was; it has gained a
    description and a title. *)
Lemma compose_mutates_the_fragment :
  exists cs',
    In ("pyls", mkSpec "Python LS" (Some cs'))
      (specs (snd (fetch Collaborators.accepting plugin
                     (initial [("pyls", pyls_spec)] ["pyls"])))) /\
    config_schema pyls_spec <> Some cs' /\
    obj_get cs' "title" = Some (JStr "Workspace Configuration").
Proof.
  exists pyls_fragment. split; [left; reflexivity|].
  split; [discriminate | reflexivity].
Qed.

Lemma fragment_composed_in_place_witness :
  NoDup (map fst loop_specs) /\
  map fst loop_specs_after = map fst loop_specs /\
  forall k s, In (k, s) loop_specs ->
    (skipped k s = true -> In (k, s) loop_specs_after) /\
    (skipped k s = false ->
     exists cs3 bm pm,
       In (k, mkSpec (display_name s) (Some cs3)) loop_specs_after /\
       obj_get cs3 "description" =
         Some (JStr (description_of Collaborators.accepting ["pyls"] k s)) /\
       obj_get cs3 "title" = Some (JStr (title_text Collaborators.accepting)) /\
       deepCopy_opt (Some base_server_schema) = JObj bm /\
       obj_get bm "properties" = Some (JObj pm) /\
       obj_get loop_known k =
         Some (JObj (obj_set bm "properties"
                       (JObj (obj_set pm "serverSettings" (JObj cs3)))))).
Proof.
  exact (conj loop_specs_distinct
           (@ComposerFacts.fragment_composed_in_place
              Collaborators.accepting ["pyls"] (Some base_server_schema)
              shared_defaults loop_specs loop_specs_after loop_known
              loop_defaults loop_log loop_specs_distinct loop_evaluated)).
Defined.

(** C4, as the claim states it, fails: the original schema has a default
    for [language_servers], the value [false]; the validator rejects the
    composed schema; the rollback deletes the default all the same.  With
    the value [null] it is the same. *)
Lemma rollback_deletes_a_falsy_default :
  (exists orig composed,
     original (snd (fetch Collaborators.rejecting (plugin_with_default (JBool false))
                      (initial [("pyls", pyls_spec)] []))) = Some orig /\
     canonical (snd (fetch Collaborators.rejecting (plugin_with_default (JBool false))
                       (initial [("pyls", pyls_spec)] []))) = Some composed /\
     _validationErrors
       (snd (fetch Collaborators.rejecting (plugin_with_default (JBool false))
               (initial [("pyls", pyls_spec)] []))) = [Collaborators.schema_error] /\
     get_path2 orig "properties" "language_servers" "default" =
       Ok (Some (JBool false)) /\
     get_path2 composed "properties" "language_servers" "default" = Ok None) /\
  (exists orig composed,
     original (snd (fetch Collaborators.rejecting (plugin_with_default JNull)
                      (initial [("pyls", pyls_spec)] []))) = Some orig /\
     canonical (snd (fetch Collaborators.rejecting (plugin_with_default JNull)
                       (initial [("pyls", pyls_spec)] []))) = Some composed /\
     get_path2 orig "properties" "language_servers" "default" = Ok (Some JNull) /\
     get_path2 composed "properties" "language_servers" "default" = Ok None).
Proof.
  split; do 2 eexists; repeat split; reflexivity.
Qed.

Lemma rollback_is_field_granular_witness :
  exists schema' sp' sls' st',
    rollback [Collaborators.schema_error] composed_schema gate_state =
      (Ok schema', st') /\
    canonical st' = Some schema' /\
    _validationErrors st' = [Collaborators.schema_error] /\
    obj_get schema' "properties" = Some (JObj sp') /\
    obj_get sp' "language_servers" = Some (JObj sls') /\
    obj_get sls' "properties" =
      (if truthy_opt (obj_get [("type", JStr "object"); ("default", JObj [])]
                        "properties")
       then obj_get [("type", JStr "object"); ("default", JObj loop_defaults);
                     ("properties", JObj loop_known)] "properties"
       else None) /\
    obj_get sls' "default" =
      (if truthy_opt (obj_get [("type", JStr "object"); ("default", JObj [])]
                        "default")
       then obj_get [("type", JStr "object"); ("default", JObj loop_defaults);
                     ("properties", JObj loop_known)] "default"
       else None) /\
    (forall k, k <> "properties" -> k <> "default" ->
               obj_get sls' k =
               obj_get [("type", JStr "object"); ("default", JObj loop_defaults);
                        ("properties", JObj loop_known)] k) /\
    (forall k, k <> "language_servers" ->
               obj_get sp' k =
               obj_get [("language_servers",
                         JObj [("type", JStr "object");
                               ("default", JObj loop_defaults);
                               ("properties", JObj loop_known)])] k) /\
    (forall k, k <> "properties" -> obj_get schema' k = obj_get composed_schema k).
Proof.
  exact (@GateFacts.rollback_is_field_granular [Collaborators.schema_error]
           composed_schema plugin_schema
           [("language_servers",
             JObj [("type", JStr "object"); ("default", JObj [])])]
           [("type", JStr "object"); ("default", JObj [])]
           [("language_servers",
             JObj [("type", JStr "object"); ("default", JObj loop_defaults);
                   ("properties", JObj loop_known)])]
           [("type", JStr "object"); ("default", JObj loop_defaults);
            ("properties", JObj loop_known)]
           gate_state eq_refl eq_refl eq_refl eq_refl eq_refl eq_refl).
Defined.

End Instances.

(* ================================================================== *)
(** ** The sessions and the descriptions *)

Module SessionFacts.
Import JS Settings Vocabulary JSFacts MFacts.

Local Unset Implicit Arguments.







Lemma obj_update_update (m : obj) k f g :
  obj_update (obj_update m k f) k g = obj_update m k (fun v => g (f v)).
Proof.
  induction m as [|[k0 v0] r IH]; simpl; [reflexivity|].
  destruct (k =? k0) eqn:E; simpl; rewrite E; congruence.
Qed.

Lemma obj_update_at (m : obj) k f g v :
  obj_get m k = Some v -> f v = g v -> obj_update m k f = obj_update m k g.
Proof.
  intros G E. induction m as [|[k0 v0] r IH]; simpl in *; [reflexivity|].
  destruct (k =? k0); [|now rewrite IH].
  injection G as ->. now rewrite E.
Qed.

Lemma obj_update_same (m : obj) k v :
  obj_get m k = Some v -> obj_update m k (fun _ => v) = m.
Proof.
  intros G. induction m as [|[k0 v0] r IH]; simpl in *; [reflexivity|].
  destruct (k =? k0); [|now rewrite IH].
  now injection G as ->.
Qed.




Section WithHost.

Variable host : Host.





(** *** Two runs side by side *)







(** *** Schemas of the form [with_ls] *)

Lemma seq_member_language_servers l : seq_member l "language_servers" = None.
Proof. reflexivity. Qed.

Lemma path2_cases schema :
  (exists e, forall k v,
      set_path2 schema "properties" "language_servers" k v = Throw e) \/
  (exists pm ls,
      obj_get schema "properties" = Some (JObj pm) /\
      obj_get pm "language_servers" = Some (JObj ls)).
Proof.
  unfold set_path2. cbn [get_member member obind].
  destruct (obj_get schema "properties") as [[| | |str|l|pm]|];
    cbn [get_member member obind];
    rewrite ?seq_member_language_servers; cbn [set_member obind];
    try (left; exists TypeError; reflexivity).
  destruct (obj_get pm "language_servers") as [[| | | | |ls]|] eqn:L;
    cbn [set_member obind];
    try (left; exists TypeError; reflexivity);
    try (left; exists NotJSON; reflexivity).
  right. eauto.
Qed.

Lemma with_ls_self schema pm ls :
  obj_get schema "properties" = Some (JObj pm) ->
  obj_get pm "language_servers" = Some (JObj ls) ->
  with_ls schema pm ls = schema.
Proof.
  intros P L. unfold with_ls.
  rewrite (obj_update_same pm "language_servers" (JObj ls) L).
  now apply obj_update_same.
Qed.

Section Paths.

Variables schema pm : obj.
Variables (x y : JSON).
Hypothesis HP : obj_get schema "properties" = Some x.
Hypothesis HL : obj_get pm "language_servers" = Some y.

Lemma with_ls_properties l :
  obj_get (with_ls schema pm l) "properties" =
  Some (JObj (obj_update pm "language_servers" (fun _ => JObj l))).
Proof. unfold with_ls. now rewrite obj_get_update_eq, HP. Qed.

Lemma with_ls_language_servers l :
  obj_get (obj_update pm "language_servers" (fun _ => JObj l)) "language_servers" =
  Some (JObj l).
Proof. now rewrite obj_get_update_eq, HL. Qed.

Lemma with_ls_replace l l' :
  obj_update (with_ls schema pm l) "properties"
    (fun pj => update_member pj "language_servers" (fun _ => JObj l')) =
  with_ls schema pm l'.
Proof.
  unfold with_ls. rewrite obj_update_update. cbn [update_member].
  apply obj_update_at with x; [exact HP|].
  now rewrite obj_update_update.
Qed.

Lemma get_path2_with_ls l k :
  get_path2 (with_ls schema pm l) "properties" "language_servers" k =
  Ok (obj_get l k).
Proof.
  unfold get_path2. cbn [get_member member obind].
  rewrite with_ls_properties. cbn [get_member member obind].
  now rewrite with_ls_language_servers.
Qed.

Lemma set_path2_with_ls l k v :
  set_path2 (with_ls schema pm l) "properties" "language_servers" k v =
  Ok (with_ls schema pm (obj_set l k v)).
Proof.
  unfold set_path2. cbn [get_member member obind].
  rewrite with_ls_properties. cbn [get_member member obind].
  rewrite with_ls_language_servers. cbn [set_member obind].
  now rewrite with_ls_replace.
Qed.

Lemma delete_path2_with_ls l k :
  delete_path2 (with_ls schema pm l) "properties" "language_servers" k =
  Ok (with_ls schema pm (obj_delete l k)).
Proof.
  unfold delete_path2. cbn [get_member member obind].
  rewrite with_ls_properties. cbn [get_member member obind].
  rewrite with_ls_language_servers. cbn [delete_member].
  now rewrite with_ls_replace.
Qed.











End Paths.

Lemma populate_gate_throws plugin schema known dflt st e :
  (forall k v, set_path2 schema "properties" "language_servers" k v = Throw e) ->
  populate_gate host plugin schema known dflt st = (Throw e, st).
Proof.
  intros H. unfold populate_gate, bind, lift. now rewrite H.
Qed.



End WithHost.

(** The two descriptions are different texts. *)
Example descriptions_differ :
  description_of Collaborators.accepting ["pyls"] "pyls" Examples.pyls_spec <>
  description_of Collaborators.accepting [] "pyls" Examples.pyls_spec.
Proof. vm_compute. discriminate. Qed.



End SessionFacts.

(* ================================================================== *)
(** ** More facts about objects *)

Module ObjectFacts.
Import JS JSFacts ComposerFacts.

Local Unset Implicit Arguments.

Lemma obj_set_new (m : obj) (k : string) (v : JSON) :
  ~ In k (keys m) -> obj_set m k v = m ++ [(k, v)].
Proof.
  induction m as [|[k' v'] r IH]; simpl; intros N.
  - reflexivity.
  - destruct (k =? k') eqn:E.
    + apply String.eqb_eq in E. subst. tauto.
    + rewrite IH by tauto. reflexivity.
Qed.

Lemma obj_set_same (m : obj) (k : string) (v : JSON) :
  obj_get m k = Some v -> obj_set m k v = m.
Proof.
  induction m as [|[k0 v0] r IH]; simpl; [discriminate|].
  destruct (k =? k0); [now intros [= ->]|].
  intros H. now rewrite IH.
Qed.

Lemma seq_member_serverSettings l : seq_member l "serverSettings" = None.
Proof. reflexivity. Qed.

Lemma In_obj_get (m : obj) (k : string) (v : JSON) :
  NoDup (keys m) -> In (k, v) m -> obj_get m k = Some v.
Proof.
  induction m as [|[k0 v0] r IH]; intros ND I; [destruct I|].
  inversion ND as [|? ? Hk ND']; subst. cbn [obj_get].
  destruct I as [[= -> ->]|I].
  - now rewrite String.eqb_refl.
  - destruct (k =? k0) eqn:E; [|now apply IH].
    apply String.eqb_eq in E. subst. exfalso. apply Hk.
    apply in_map_iff. now exists (k0, v).
Qed.

Lemma In_ownEntries (m : obj) (kv : string * JSON) :
  In kv (ownEntries m) <-> In kv m.
Proof.
  split; intros I.
  - eapply Permutation_in; [apply Permutation_ownEntries | exact I].
  - eapply Permutation_in; [symmetry; apply Permutation_ownEntries | exact I].
Qed.


Lemma NoDup_keys_deepCopy (m : obj) :
  NoDup (keys m) -> NoDup (keys (deepCopy_obj m)).
Proof.
  intros ND. unfold deepCopy_obj. apply NoDup_keys_ownEntries.
  unfold keys. rewrite map_map. exact ND.
Qed.

Lemma In_deepCopy_obj (m : obj) (k : string) (g' : JSON) :
  In (k, g') (deepCopy_obj m) -> exists g, In (k, g) m /\ g' = deepCopy g.
Proof.
  intros I. unfold deepCopy_obj in I. apply (proj1 (In_ownEntries _ _)) in I.
  apply in_map_iff in I. destruct I as ([k0 g] & E & I).
  cbn [fst snd] in E. injection E as -> <-. eauto.
Qed.


Lemma obj_get_map_entry (f : string -> JSON -> JSON) (m : obj) (k : string) :
  obj_get (map (fun kv => (fst kv, f (fst kv) (snd kv))) m) k =
  option_map (f k) (obj_get m k).
Proof.
  induction m as [|[k0 v0] r IH]; [reflexivity|].
  cbn [map obj_get fst snd]. destruct (k =? k0) eqn:E; [|exact IH].
  apply String.eqb_eq in E. now subst.
Qed.

Lemma obj_ext (a b : obj) :
  NoDup (keys a) -> keys a = keys b ->
  (forall k, obj_get a k = obj_get b k) -> a = b.
Proof.
  revert b. induction a as [|[k v] r IH]; intros [|[k' v'] r'] ND K G;
    try discriminate; [reflexivity|].
  simpl in K. injection K as <- K.
  inversion ND as [|? ? Hk ND']; subst.
  pose proof (G k) as Gk. cbn [obj_get] in Gk. rewrite String.eqb_refl in Gk.
  injection Gk as <-. f_equal. apply IH; [assumption|assumption|].
  intros k0. specialize (G k0). cbn [obj_get] in G.
  destruct (k0 =? k) eqn:E; [|exact G].
  apply String.eqb_eq in E. subst.
  pose proof Hk as Hk'. rewrite K in Hk'.
  apply obj_get_None in Hk. apply obj_get_None in Hk'. congruence.
Qed.

Lemma filter_all {A} (f : A -> bool) (l : list A) :
  (forall x, In x l -> f x = true) -> filter f l = l.
Proof.
  induction l as [|x r IH]; intros H; [reflexivity|].
  simpl. rewrite H by now left. f_equal. apply IH. intros y I. apply H. now right.
Qed.

Lemma filter_none {A} (f : A -> bool) (l : list A) :
  (forall x, In x l -> f x = false) -> filter f l = [].
Proof.
  induction l as [|x r IH]; intros H; [reflexivity|].
  simpl. rewrite H by now left. apply IH. intros y I. apply H. now right.
Qed.

Lemma filter_twice {A} (f g : A -> bool) (l : list A) :
  filter f (filter g l) = filter (fun x => g x && f x) l.
Proof.
  induction l as [|x r IH]; [reflexivity|].
  simpl. destruct (g x); simpl; [destruct (f x)|]; now rewrite IH.
Qed.

Lemma keys_filter (f : string * JSON -> bool) (m : obj) (k : string) :
  In k (keys (filter f m)) -> In k (keys m).
Proof.
  unfold keys. intros I. apply in_map_iff in I. destruct I as (kv & <- & I).
  apply filter_In in I. apply in_map. tauto.
Qed.

Lemma NoDup_keys_filter (f : string * JSON -> bool) (m : obj) :
  NoDup (keys m) -> NoDup (keys (filter f m)).
Proof.
  induction m as [|[k v] r IH]; intros ND; [constructor|].
  inversion ND as [|? ? Hk ND']; subst. simpl.
  destruct (f (k, v)); [|now apply IH].
  simpl. constructor; [|now apply IH].
  intros I. apply Hk. now apply keys_filter in I.
Qed.

Lemma filter_single (f : string * JSON -> bool) (m : obj) (k : string) (v : JSON) :
  NoDup (keys m) -> obj_get m k = Some v ->
  (forall kv, In kv m -> f kv = (fst kv =? k)) ->
  filter f m = [(k, v)].
Proof.
  induction m as [|[k0 v0] r IH]; intros ND G H; [discriminate|].
  inversion ND as [|? ? Hk ND']; subst. cbn [filter].
  rewrite (H (k0, v0)) by now left. cbn [fst]. cbn [obj_get] in G.
  rewrite (String.eqb_sym k0 k). destruct (k =? k0) eqn:E.
  - apply String.eqb_eq in E. subst k0. injection G as ->. f_equal.
    apply filter_none. intros [k1 v1] I. rewrite H by now right. cbn [fst].
    apply String.eqb_neq. intros ->. apply Hk. apply in_map_iff. now exists (k, v1).
  - apply IH; [assumption|assumption|]. intros kv I. apply H. now right.
Qed.

Lemma obj_update_absent (m : obj) (k : string) (f : JSON -> JSON) :
  ~ In k (keys m) -> obj_update m k f = m.
Proof.
  induction m as [|[k0 v0] r IH]; intros N; [reflexivity|].
  simpl in *. destruct (k =? k0) eqn:E.
  - apply String.eqb_eq in E. subst. tauto.
  - rewrite IH by tauto. reflexivity.
Qed.

Lemma filter_key_update (P : string -> bool) (m : obj) (k : string) (f : JSON -> JSON) :
  filter (fun kv => P (fst kv)) (obj_update m k f) =
  obj_update (filter (fun kv => P (fst kv)) m) k f.
Proof.
  induction m as [|[k0 v0] r IH]; [reflexivity|].
  cbn [obj_update]. destruct (k =? k0) eqn:E.
  - apply String.eqb_eq in E. subst k0. cbn [filter fst].
    destruct (P k) eqn:Pk.
    + cbn [obj_update]. now rewrite String.eqb_refl.
    + rewrite obj_update_absent; [reflexivity|].
      intros I. apply in_map_iff in I. destruct I as ([k1 v1] & E1 & I).
      apply filter_In in I. simpl in *. subst. destruct I as [_ I]. congruence.
  - cbn [filter fst]. destruct (P k0); [|exact IH].
    cbn [obj_update]. rewrite E. now rewrite IH.
Qed.

Lemma obj_update_map (m : obj) (k : string) (x : JSON) :
  NoDup (keys m) ->
  obj_update m k (fun _ => x) =
  map (fun kv => if fst kv =? k then (fst kv, x) else kv) m.
Proof.
  induction m as [|[k0 v0] r IH]; intros ND; [reflexivity|].
  inversion ND as [|? ? Hk ND']; subst. cbn [obj_update map fst].
  rewrite (String.eqb_sym k0 k). destruct (k =? k0) eqn:E.
  - apply String.eqb_eq in E. subst k0. f_equal.
    rewrite <- (map_id r) at 1. apply map_ext_in. intros [k1 v1] I. cbn [fst].
    destruct (k1 =? k) eqn:E1; [|reflexivity].
    apply String.eqb_eq in E1. subst. exfalso. apply Hk.
    apply in_map_iff. now exists (k, v1).
  - now rewrite IH.
Qed.

(** The order in which the members are enumerated depends on the keys
    only. *)
Lemma index_members_keys (a b : obj) :
  keys a = keys b ->
  map (fun x => (fst x, fst (snd x))) (index_members a) =
  map (fun x => (fst x, fst (snd x))) (index_members b).
Proof.
  revert b. induction a as [|[k v] r IH]; intros [|[k' v'] r'] K;
    try discriminate; [reflexivity|].
  simpl in K. injection K as <- K. cbn [index_members].
  specialize (IH r' K).
  destruct (array_index k) as [i|]; [|exact IH].
  revert IH. generalize (index_members r) (index_members r').
  induction l as [|[j [kj vj]] l IHl]; intros [|[j' [kj' vj']] l'] E;
    try discriminate; [reflexivity|].
  cbn [map fst snd] in E. injection E as <- <- E.
  cbn [insert_index fst]. destruct (i <=? j)%N; cbn [map fst snd].
  - now rewrite E.
  - f_equal. now apply IHl.
Qed.

Lemma keys_ownEntries_ext (a b : obj) :
  keys a = keys b -> keys (ownEntries a) = keys (ownEntries b).
Proof.
  intros K. unfold ownEntries, keys. rewrite !map_app. f_equal.
  - rewrite !map_map.
    pose proof (index_members_keys a b K) as E.
    apply (f_equal (map snd)) in E. rewrite !map_map in E. exact E.
  - revert b K. induction a as [|[k v] r IH]; intros [|[k' v'] r'] K;
      try discriminate; [reflexivity|].
    simpl in K. injection K as <- K. cbn [filter].
    change (is_named (k, v')) with (is_named (k, v)).
    destruct (is_named (k, v)); cbn [map fst]; [f_equal|]; now apply IH.
Qed.

End ObjectFacts.

(* ================================================================== *)
(** ** The defaults a schema declares *)

Module DefaultsFacts.
Import JS Settings Vocabulary Terms JSFacts ComposerFacts ObjectFacts.

Local Unset Implicit Arguments.

Lemma keys_declared_defaults (es : obj) (k : string) :
  In k (keys (declared_defaults es)) -> In k (keys es).
Proof.
  unfold declared_defaults, keys.
  induction es as [|[k' v] r IH]; simpl; [tauto|].
  destruct (default_of v); simpl; tauto.
Qed.



End DefaultsFacts.

(* ================================================================== *)
(** ** The collapse: what it returns and what it reports *)

Module CollapseFrame.
Import JS Settings Vocabulary Terms JSFacts MFacts ComposerFacts ObjectFacts.

Local Unset Implicit Arguments.

Section WithHost.

Variable host : Host.

Lemma collapse_step_cases cf r k g :
  collapse_step host (cf, r) (k, g) =
  if has_settings g
  then (obj_set cf k (JObj (conflicts (collapsed_settings host g))),
        update_member r k
          (fun c => assign c "serverSettings"
                      (result (collapsed_settings host g))))
  else (cf, r).
Proof.
  unfold collapse_step, has_settings, collapsed_settings.
  destruct (truthy g); [|reflexivity]. cbn [negb andb].
  destruct (member g "serverSettings") as [ss|]; [|reflexivity].
  cbn [truthy_opt]. now destruct (truthy ss).
Qed.

(** The groups after the loop over the entries [es]. *)
Lemma collapse_fold es cf r :
  NoDup (keys es) ->
  (forall k, In k (keys es) -> ~ In k (keys cf)) ->
  exists r',
    fold_left (collapse_step host) es (cf, JObj r) =
      (cf ++ conflict_report host es, JObj r') /\
    keys r' = keys r /\
    forall k,
      obj_get r' k =
      match obj_get es k with
      | Some g =>
        if has_settings g
        then option_map
               (fun c => assign c "serverSettings"
                           (result (collapsed_settings host g)))
               (obj_get r k)
        else obj_get r k
      | None => obj_get r k
      end.
Proof.
  revert cf r. induction es as [|[k0 g0] rest IH]; intros cf r ND F.
  - exists r. simpl. rewrite app_nil_r. auto.
  - inversion ND as [|? ? Hk ND']; subst.
    cbn [fold_left]. rewrite collapse_step_cases.
    unfold conflict_report. cbn [filter map fst snd].
    destruct (has_settings g0) eqn:H.
    + cbn [update_member].
      destruct (IH (obj_set cf k0 (JObj (conflicts (collapsed_settings host g0))))
                  (obj_update r k0
                     (fun c => assign c "serverSettings"
                                 (result (collapsed_settings host g0)))) ND')
        as (r' & E & K & G).
      { intros k I. rewrite keys_set_new by (apply F; now left).
        rewrite in_app_iff. simpl. intros [J|[J|[]]].
        - apply (F k); [now right | assumption].
        - subst. apply Hk. exact I. }
      exists r'. split; [|split].
      * rewrite E. rewrite obj_set_new by (apply F; now left).
        cbn [map fst snd]. rewrite <- app_assoc. reflexivity.
      * rewrite K. apply keys_update.
      * intros k. rewrite G. cbn [obj_get].
        destruct (k =? k0) eqn:Ek.
        -- apply String.eqb_eq in Ek. subst k.
           apply obj_get_None in Hk. rewrite Hk, H.
           apply obj_get_update_eq.
        -- apply String.eqb_neq in Ek.
           rewrite obj_get_update_neq by assumption. reflexivity.
    + destruct (IH cf r ND') as (r' & E & K & G).
      { intros k I. apply F. now right. }
      exists r'. split; [exact E|]. split; [exact K|].
      intros k. rewrite G. cbn [obj_get].
      destruct (k =? k0) eqn:Ek; [|reflexivity].
      apply String.eqb_eq in Ek. subst k.
      apply obj_get_None in Hk. rewrite Hk, H. reflexivity.
Qed.

Lemma collapse_object m :
  NoDup (keys m) ->
  exists r',
    fold_left (collapse_step host) (ownEntries m) ([], JObj (deepCopy_obj m)) =
      (conflict_report host (ownEntries m), JObj r') /\
    keys r' = keys (deepCopy_obj m) /\
    forall k, obj_get r' k = option_map (collapsed_group host) (obj_get m k).
Proof.
  intros ND.
  destruct (collapse_fold (ownEntries m) [] (deepCopy_obj m)) as (r' & E & K & G).
  - now apply NoDup_keys_ownEntries.
  - intros k _ [].
  - exists r'. split; [exact E|]. split; [exact K|].
    intros k. rewrite G, obj_get_ownEntries, obj_get_deepCopy.
    unfold collapsed_group.
    destruct (obj_get m k) as [g|]; [|reflexivity].
    cbn [option_map]. destruct (has_settings g); reflexivity.
Qed.



(** X3.  For settings that are an object, the collapse returns an object
    with the keys of the deep copy of the settings.  The group of a server
    that has settings is the deep copy of its group with [serverSettings]
    replaced by what [collapseToDotted] returns for the settings as given;
    its other members are untouched.  Every other group, [null] ones
    included, is the deep copy of what was given. *)
Theorem collapse_replaces_server_settings_only (m : obj) (st : State) :
  NoDup (keys m) ->
  exists r,
    fst (_collapseServerSettingsDotted host (Some (JObj m)) st) = Ok (JObj r) /\
    keys r = keys (deepCopy_obj m) /\
    (forall k, obj_get r k = option_map (collapsed_group host) (obj_get m k)) /\
    (forall k g, obj_get m k = Some g ->
       (has_settings g = false -> obj_get r k = Some (deepCopy g)) /\
       (has_settings g = true ->
        exists gm ss,
          g = JObj gm /\ obj_get gm "serverSettings" = Some ss /\
          obj_get r k =
            Some (JObj (obj_set (deepCopy_obj gm) "serverSettings"
                          (result (collapseToDotted host ss)))))).
Proof.
  intros ND. unfold _collapseServerSettingsDotted, bind, lift, modify, ret.
  cbn [entries entries_of deepCopy_opt deepCopy]. fold (deepCopy_obj m).
  destruct (collapse_object m ND) as (r' & E & K & G). rewrite E.
  exists r'. split; [now destruct (0 <? _)%nat|]. split; [exact K|].
  split; [exact G|].
  intros k g Hg. rewrite G, Hg. cbn [option_map]. unfold collapsed_group.
  split; intros H; rewrite H; [reflexivity|].
  unfold has_settings in H. apply andb_true_iff in H. destruct H as [_ H].
  destruct g as [| | |s|l|gm]; cbn [member] in H;
    rewrite ?seq_member_serverSettings in H; try discriminate.
  destruct (obj_get gm "serverSettings") as [ss|] eqn:S; [|discriminate].
  exists gm, ss. split; [reflexivity|]. split; [exact S|].
  unfold collapsed_settings. cbn [member]. rewrite S. reflexivity.
Qed.

End WithHost.

End CollapseFrame.

(* ================================================================== *)
(** ** The [compose] transform and the state *)

Module ComposeFacts.
Import JS Settings Vocabulary Terms JSFacts MFacts.

Local Unset Implicit Arguments.

Section WithHost.

Variable host : Host.

(** X4.  On user data that has no [language_servers], or has [null] there,
    [compose] throws a [TypeError]: [Object.entries] is applied to the
    missing settings.  No dialog is shown and nothing of the state
    changes. *)
Theorem compose_throws_without_language_servers (plugin : IPlugin) (st : State) :
  nullish (obj_get (user (data plugin)) "language_servers") = true ->
  compose host plugin st = (Throw TypeError, st) /\
  _collapseServerSettingsDotted host None st = (Throw TypeError, st) /\
  _collapseServerSettingsDotted host (Some JNull) st = (Throw TypeError, st).
Proof.
  intros N. split; [|split; reflexivity].
  unfold compose, _collapseServerSettingsDotted, bind, lift.
  destruct (obj_get (user (data plugin)) "language_servers") as [[]|];
    try discriminate; reflexivity.
Qed.

(** X5.  Whatever the plugin, and whether it returns or throws, [compose]
    leaves the state as it is or shows one dialog: the cached schema, the
    snapshot, the specs, the recorded defaults and errors, the attempt
    counter, the log and the reload requests are never touched. *)
Theorem compose_shows_a_dialog_at_most (plugin : IPlugin) (st : State) :
  snd (compose host plugin st) = st \/
  exists report, snd (compose host plugin st) = add_dialog report st.
Proof.
  unfold compose, _collapseServerSettingsDotted, bind, lift, modify, ret.
  destruct (entries _) as [es|e]; [|now left].
  destruct (fold_left _ es _) as [cf res].
  destruct (0 <? _)%nat; cbn [snd]; eauto.
Qed.

End WithHost.

End ComposeFacts.

(* ================================================================== *)
(** ** The validation gate: the composed maps and the verdict *)

Module GateFlow.
Import JS Settings Vocabulary Terms JSFacts MFacts CacheFacts GateFacts SessionFacts.

Local Unset Implicit Arguments.

Lemma installed_members schema pm ls known dflt :
  obj_get schema "properties" = Some (JObj pm) ->
  obj_get pm "language_servers" = Some (JObj ls) ->
  get_path2 (installed schema pm ls known dflt)
    "properties" "language_servers" "properties" = Ok (Some (JObj known)) /\
  get_path2 (installed schema pm ls known dflt)
    "properties" "language_servers" "default" = Ok (Some (JObj dflt)) /\
  (forall k, k <> "properties" -> k <> "default" ->
     get_path2 (installed schema pm ls known dflt)
       "properties" "language_servers" k = Ok (obj_get ls k)) /\
  (exists pm',
     obj_get (installed schema pm ls known dflt) "properties" = Some (JObj pm') /\
     forall k, k <> "language_servers" -> obj_get pm' k = obj_get pm k) /\
  (forall k, k <> "properties" ->
     obj_get (installed schema pm ls known dflt) k = obj_get schema k).
Proof.
  intros HP HL. unfold installed.
  rewrite !(get_path2_with_ls schema pm (JObj pm) (JObj ls) HP HL).
  split; [|split; [|split; [|split]]].
  - rewrite obj_get_set_neq by discriminate. now rewrite obj_get_set_eq.
  - now rewrite obj_get_set_eq.
  - intros k N1 N2.
    rewrite (get_path2_with_ls schema pm (JObj pm) (JObj ls) HP HL).
    now rewrite !obj_get_set_neq by assumption.
  - eexists. split.
    + apply (with_ls_properties schema pm (JObj pm) HP).
    + intros k N. now apply obj_get_update_neq.
  - intros k N. unfold with_ls. now apply obj_get_update_neq.
Qed.

Section WithHost.

Variable host : Host.

Lemma populate_gate_installs plugin schema pm ls known dflt st :
  obj_get schema "properties" = Some (JObj pm) ->
  obj_get pm "language_servers" = Some (JObj ls) ->
  populate_gate host plugin schema known dflt st =
  bind
    (match validateData host
             (validation_request plugin (validationAttempt st + 1)
                (installed schema pm ls known dflt)) true with
     | Some validationErrors =>
       rollback validationErrors (installed schema pm ls known dflt)
     | None => ret (installed schema pm ls known dflt)
     end)
    (fun schema3 => bind (modify (set_defaults dflt)) (fun _ => ret schema3))
    (set_validationAttempt (validationAttempt st + 1)
       (set_canonical (Some (installed schema pm ls known dflt)) st)).
Proof.
  intros HP HL. unfold populate_gate, installed.
  rewrite <- (with_ls_self schema pm ls HP HL) at 1.
  unfold bind at 1. unfold lift at 1.
  rewrite (set_path2_with_ls schema pm (JObj pm) (JObj ls) HP HL).
  unfold bind at 1. unfold modify at 1.
  unfold bind at 1. unfold lift at 1.
  rewrite (set_path2_with_ls schema pm (JObj pm) (JObj ls) HP HL).
  reflexivity.
Qed.

(** X6.  When the schema has an object under [properties.language_servers]
    and the validator accepts the composed schema, the gate returns the
    schema with [knownServersConfig] as [language_servers.properties] and
    [defaults] as [language_servers.default]: every other member of
    [language_servers], of [properties] and of the schema is as it was.  The
    cache holds that schema, the defaults are recorded, the attempt counter
    has gone up by one, and the recorded validation errors and the log are
    as they were. *)
Theorem accepted_schema_holds_the_composed_maps
    (plugin : IPlugin) (schema pm ls known dflt : obj) (st : State) :
  obj_get schema "properties" = Some (JObj pm) ->
  obj_get pm "language_servers" = Some (JObj ls) ->
  validateData host
    (validation_request plugin (validationAttempt st + 1)
       (installed schema pm ls known dflt)) true = None ->
  populate_gate host plugin schema known dflt st =
    (Ok (installed schema pm ls known dflt),
     set_defaults dflt
       (set_validationAttempt (validationAttempt st + 1)
          (set_canonical (Some (installed schema pm ls known dflt)) st))) /\
  get_path2 (installed schema pm ls known dflt)
    "properties" "language_servers" "properties" = Ok (Some (JObj known)) /\
  get_path2 (installed schema pm ls known dflt)
    "properties" "language_servers" "default" = Ok (Some (JObj dflt)) /\
  (forall k, k <> "properties" -> k <> "default" ->
     get_path2 (installed schema pm ls known dflt)
       "properties" "language_servers" k = Ok (obj_get ls k)) /\
  (exists pm',
     obj_get (installed schema pm ls known dflt) "properties" = Some (JObj pm') /\
     forall k, k <> "language_servers" -> obj_get pm' k = obj_get pm k) /\
  (forall k, k <> "properties" ->
     obj_get (installed schema pm ls known dflt) k = obj_get schema k).
Proof.
  intros HP HL V. split; [|now apply installed_members].
  rewrite (populate_gate_installs plugin schema pm ls known dflt st HP HL), V.
  reflexivity.
Qed.

(** What the rollback does to a schema that has an object under
    [properties.language_servers], when the snapshot has one too. *)
Lemma rollback_returns errs schema pm ls l orig op ols st :
  obj_get schema "properties" = Some (JObj pm) ->
  obj_get pm "language_servers" = Some (JObj ls) ->
  original st = Some orig ->
  obj_get orig "properties" = Some (JObj op) ->
  obj_get op "language_servers" = Some (JObj ols) ->
  canonical st = Some (with_ls schema pm l) ->
  exists l' st',
    rollback errs (with_ls schema pm l) st = (Ok (with_ls schema pm l'), st') /\
    canonical st' = Some (with_ls schema pm l') /\
    _validationErrors st' = errs /\
    log st' = log st ++ [ErrorValidationFailed errs] /\
    validationAttempt st' = validationAttempt st /\
    _defaults st' = _defaults st.
Proof.
  intros HP HL Ho O1 O2 Hc.
  unfold rollback, bind, modify, gets, lift, ret.
  cbn [original add_log set_validationErrors]. rewrite Ho.
  rewrite !(get_path2_object orig "properties" "language_servers" _ O1 O2).
  destruct (negb (truthy_opt (obj_get ols "properties")));
    rewrite ?(delete_path2_with_ls schema pm (JObj pm) (JObj ls) HP HL);
    destruct (negb (truthy_opt (obj_get ols "default")));
    rewrite ?(delete_path2_with_ls schema pm (JObj pm) (JObj ls) HP HL);
    do 2 eexists; (split; [reflexivity|]); cbn; auto.
Qed.

(** X7.  When the schema and the snapshot of the original both have an
    object under [properties.language_servers], the gate returns whatever
    the validator says: a rejected schema raises no exception.  In both
    cases the cache holds the schema that is returned, the composed defaults
    are recorded in [_defaults], and the attempt counter has gone up by one.
    A rejection stores the reported errors and logs them; an acceptance
    leaves the stored errors, stale ones included, and the log as they
    were. *)
Theorem defaults_are_recorded_whatever_the_verdict
    (plugin : IPlugin) (schema pm ls orig op ols known dflt : obj) (st : State) :
  obj_get schema "properties" = Some (JObj pm) ->
  obj_get pm "language_servers" = Some (JObj ls) ->
  original st = Some orig ->
  obj_get orig "properties" = Some (JObj op) ->
  obj_get op "language_servers" = Some (JObj ols) ->
  exists schema' st',
    populate_gate host plugin schema known dflt st = (Ok schema', st') /\
    canonical st' = Some schema' /\
    _defaults st' = dflt /\
    validationAttempt st' = (validationAttempt st + 1)%N /\
    match validateData host
            (validation_request plugin (validationAttempt st + 1)
               (installed schema pm ls known dflt)) true with
    | Some errs =>
      _validationErrors st' = errs /\
      log st' = log st ++ [ErrorValidationFailed errs]
    | None =>
      _validationErrors st' = _validationErrors st /\ log st' = log st
    end.
Proof.
  intros HP HL Ho O1 O2.
  rewrite (populate_gate_installs plugin schema pm ls known dflt st HP HL).
  destruct (validateData host _ true) as [errs|].
  - unfold installed.
    destruct (rollback_returns errs schema pm ls
                (obj_set (obj_set ls "properties" (JObj known)) "default" (JObj dflt))
                orig op ols
                (set_validationAttempt (validationAttempt st + 1)
                   (set_canonical
                      (Some (with_ls schema pm
                               (obj_set (obj_set ls "properties" (JObj known))
                                  "default" (JObj dflt)))) st))
                HP HL Ho O1 O2 eq_refl)
      as (l' & st' & R & C & E & L & A & D).
    unfold bind at 1. rewrite R. do 2 eexists. split; [reflexivity|].
    cbn. auto.
  - do 2 eexists. split; [reflexivity|]. cbn. auto.
Qed.

End WithHost.

End GateFlow.

(* ================================================================== *)
(** ** The life of the manager: counter, errors, log and schema *)

Module LifeFacts.
Import JS Settings Vocabulary Terms JSFacts MFacts CacheFacts GateFacts SessionFacts.

Local Unset Implicit Arguments.

Lemma decimal_injective (n m : N) : decimal n = decimal m -> n = m.
Proof.
  unfold decimal. intros H.
  assert (E : N.to_uint n = N.to_uint m).
  { apply (f_equal NilEmpty.uint_of_string) in H.
    rewrite !NilEmpty.usu in H. now injection H. }
  apply (f_equal N.of_uint) in E.
  now rewrite !DecimalN.Unsigned.of_to in E.
Qed.

Section WithHost.

Variable host : Host.

Lemma inline_ref_warns cs key value o cs' w :
  inline_ref cs key value = (o, cs', w) ->
  Forall (fun e => is_warning e = true) w.
Proof.
  unfold inline_ref. intros H.
  destruct (negb (isJSONProperty value)); [inversion H; constructor|].
  destruct (member value "$ref") as [[| | |ref| |]|];
    try (inversion H; constructor; fail).
  destruct (String.prefix "#/definitions/" ref);
    [|inversion H; repeat constructor].
  destruct (get_member _ _) as [definition|e]; [|inversion H; constructor].
  destruct (entries definition) as [des|e]; inversion H; subst;
    destruct (nullish definition); repeat constructor.
Qed.

Lemma inline_refs_warns es cs o cs' w :
  inline_refs cs es = (o, cs', w) ->
  Forall (fun e => is_warning e = true) w.
Proof.
  revert cs o cs' w. induction es as [|[key value] r IH]; intros cs o cs' w H.
  - simpl in H. inversion H. constructor.
  - simpl in H.
    destruct (inline_ref cs key value) as [[[[]|e] cs1] w1] eqn:E1.
    + destruct (inline_refs cs1 r) as [[o2 cs2] w2] eqn:E2.
      inversion H; subst. apply Forall_app. split.
      * eapply inline_ref_warns; eauto.
      * eapply IH; eauto.
    + inversion H; subst. eapply inline_ref_warns; eauto.
Qed.

Lemma transform_spec_warns ss base shared k s o s' w :
  transform_spec host ss base shared k s = (o, s', w) ->
  Forall (fun e => is_warning e = true) w.
Proof.
  unfold transform_spec. intros H.
  destruct (k =? ""); [inversion H; repeat constructor|].
  destruct (config_schema s) as [cs|]; [|inversion H; repeat constructor].
  destruct (negb (truthy_opt (obj_get cs "properties")));
    [inversion H; repeat constructor|].
  destruct (entries _) as [es|e]; [|inversion H; constructor].
  destruct (inline_refs _ es) as [[[[]|e] cs3] w3] eqn:I;
    [destruct (obind _ _)|]; inversion H; subst;
    eapply inline_refs_warns; eauto.
Qed.

Lemma transform_specs_warns ss base shared sp known dflt o sp' w :
  transform_specs host ss base shared sp known dflt = (o, sp', w) ->
  Forall (fun e => is_warning e = true) w.
Proof.
  revert known dflt o sp' w.
  induction sp as [|[k s] r IH]; intros known dflt o sp' w H.
  - simpl in H. inversion H. constructor.
  - simpl in H.
    destruct (transform_spec host ss base shared k s)
      as [[[[[ke de]|]|e] s1] w1] eqn:T.
    + destruct (transform_specs host ss base shared r _ _) as [[o2 r2] w2] eqn:R.
      inversion H; subst. apply Forall_app. split.
      * eapply transform_spec_warns; eauto.
      * eapply IH; eauto.
    + destruct (transform_specs host ss base shared r _ _) as [[o2 r2] w2] eqn:R.
      inversion H; subst. apply Forall_app. split.
      * eapply transform_spec_warns; eauto.
      * eapply IH; eauto.
    + inversion H; subst. eapply transform_spec_warns; eauto.
Qed.

Lemma fetch_unfolded plugin st :
  fetch host plugin st =
  match canonical st with
  | Some cached =>
    (Ok (mkPlugin (data plugin) (id plugin) (raw plugin) cached (version plugin)),
     match original st with
     | Some _ => st
     | None => set_original (Some (deepCopy_obj (schema plugin))) st
     end)
  | None =>
    match populate host plugin (deepCopy_obj (schema plugin)) (primed plugin st) with
    | (Ok sch, st') =>
      (Ok (mkPlugin (data plugin) (id plugin) (raw plugin) sch (version plugin)), st')
    | (Throw e, st') => (Throw e, st')
    end
  end.
Proof.
  unfold fetch, primed, bind, gets, modify, ret.
  destruct (original st); cbn [canonical set_original];
    destruct (canonical st); reflexivity.
Qed.

Lemma populate_counter plugin schema st :
  post (populate host plugin schema) st
    (fun _ st' => validationAttempt st' = (validationAttempt st + 1)%N)
    (fun st' => validationAttempt st' = validationAttempt st \/
                validationAttempt st' = (validationAttempt st + 1)%N).
Proof.
  unfold populate, populate_gate, rollback. repeat post_step; simpl; auto.
Qed.

Lemma fetch_counter plugin st :
  (validationAttempt (snd (fetch host plugin st)) = validationAttempt st \/
   validationAttempt (snd (fetch host plugin st)) = (validationAttempt st + 1)%N) /\
  (forall r, canonical st = None -> fst (fetch host plugin st) = Ok r ->
     validationAttempt (snd (fetch host plugin st)) = (validationAttempt st + 1)%N).
Proof.
  rewrite fetch_unfolded.
  destruct (canonical st) as [c|].
  - cbn [fst snd]. split.
    + left. now destruct (original st).
    + discriminate.
  - pose proof (populate_counter plugin (deepCopy_obj (schema plugin))
                  (primed plugin st)) as P.
    unfold post in P.
    assert (V : validationAttempt (primed plugin st) = validationAttempt st).
    { unfold primed. now destruct (original st). }
    rewrite V in P.
    destruct (populate host plugin _ _) as [[sch|e] st']; cbn [fst snd];
      repeat split; auto; discriminate.
Qed.

Lemma step_counter e st :
  validationAttempt (step host e st) = validationAttempt st \/
  validationAttempt (step host e st) = (validationAttempt st + 1)%N.
Proof.
  destruct e as [plugin|plugin|sp ss]; unfold step.
  - apply fetch_counter.
  - left.
    assert (U : unchanged validationAttempt (compose host plugin)).
    { unfold compose, _collapseServerSettingsDotted. repeat unchanged_step. }
    apply U.
  - left. reflexivity.
Qed.

(** X8.  The attempt counter never goes down: an event leaves it as it is
    or adds one to it, and a [fetch] that finds the cache empty and returns
    has added exactly one.  The identifier the validator is given is the
    fixed prefix followed by the counter in decimal, so that two attempts
    with different counters never carry the same identifier. *)
Theorem validation_attempts_are_numbered_apart :
  (forall e st,
      validationAttempt (step host e st) = validationAttempt st \/
      validationAttempt (step host e st) = (validationAttempt st + 1)%N) /\
  (forall evs st, (validationAttempt st <= validationAttempt (run host evs st))%N) /\
  (forall plugin st r,
      canonical st = None -> fst (fetch host plugin st) = Ok r ->
      validationAttempt (snd (fetch host plugin st)) = (validationAttempt st + 1)%N) /\
  (forall plugin plugin' n m schema schema',
      id (validation_request plugin n schema) =
      id (validation_request plugin' m schema') -> n = m).
Proof.
  split; [exact step_counter|]. split; [|split].
  - intros evs. induction evs as [|e r IH]; intros st; simpl.
    + lia.
    + specialize (IH (step host e st)).
      destruct (step_counter e st) as [E|E]; rewrite E in IH; lia.
  - intros plugin st r. apply fetch_counter.
  - intros plugin plugin' n m schema schema' H.
    unfold validation_request in H. cbn [id] in H.
    apply decimal_injective.
    simpl in H. now repeat injection H as H.
Qed.

Lemma populate_errors plugin schema st :
  post (populate host plugin schema) st
    (fun _ st' =>
       _validationErrors st' = _validationErrors st \/
       exists request, validateData host request true = Some (_validationErrors st'))
    (fun st' =>
       _validationErrors st' = _validationErrors st \/
       exists request, validateData host request true = Some (_validationErrors st')).
Proof.
  unfold populate, populate_gate, rollback. repeat post_step; simpl; eauto.
Qed.

(** X9.  The recorded validation errors are never cleared.  An event leaves
    them as they are, or replaces them by the errors the validator has just
    reported on a request: a validation that succeeds, in particular one
    after [sessionsChanged], leaves the errors of an earlier failure in
    place. *)
Theorem validation_errors_are_never_cleared (e : Event) (st : State) :
  _validationErrors (step host e st) = _validationErrors st \/
  exists request,
    validateData host request true = Some (_validationErrors (step host e st)).
Proof.
  destruct e as [plugin|plugin|sp ss]; unfold step.
  - rewrite fetch_unfolded. destruct (canonical st) as [c|].
    + left. cbn [snd]. now destruct (original st).
    + pose proof (populate_errors plugin (deepCopy_obj (schema plugin))
                    (primed plugin st)) as P.
      unfold post in P.
      assert (V : _validationErrors (primed plugin st) = _validationErrors st).
      { unfold primed. now destruct (original st). }
      rewrite V in P.
      destruct (populate host plugin _ _) as [[sch|e] st']; exact P.
  - left.
    assert (U : unchanged _validationErrors (compose host plugin)).
    { unfold compose, _collapseServerSettingsDotted. repeat unchanged_step. }
    apply U.
  - left. reflexivity.
Qed.

Lemma warning_is_not_the_error w :
  Forall (fun e => is_warning e = true) w ->
  Forall (fun e => e <> ErrorNoOriginal) w.
Proof.
  apply Forall_impl. intros e H ->. discriminate.
Qed.

Lemma populate_log plugin schema st o :
  original st = Some o ->
  Forall (fun e => e <> ErrorNoOriginal) (log st) ->
  post (populate host plugin schema) st
    (fun _ st' => Forall (fun e => e <> ErrorNoOriginal) (log st'))
    (fun st' => Forall (fun e => e <> ErrorNoOriginal) (log st')).
Proof.
  intros Ho L. unfold populate, populate_gate, rollback.
  repeat post_step; simpl in *;
    repeat match goal with
           | H : transform_specs _ _ _ _ _ _ _ = _ |- _ =>
             apply transform_specs_warns, warning_is_not_the_error in H
           end;
    try congruence;
    repeat (apply Forall_app; split); auto;
    repeat constructor; discriminate.
Qed.

Lemma step_log e st :
  Forall (fun e => e <> ErrorNoOriginal) (log st) ->
  Forall (fun e => e <> ErrorNoOriginal) (log (step host e st)).
Proof.
  intros L. destruct e as [plugin|plugin|sp ss]; unfold step.
  - rewrite fetch_unfolded. destruct (canonical st) as [c|].
    + cbn [snd]. now destruct (original st).
    + assert (O : exists o, original (primed plugin st) = Some o).
      { unfold primed. destruct (original st) eqn:E; simpl; eauto. }
      destruct O as [o O].
      pose proof (populate_log plugin (deepCopy_obj (schema plugin))
                    (primed plugin st) o O) as P.
      unfold post in P.
      assert (V : log (primed plugin st) = log st).
      { unfold primed. now destruct (original st). }
      rewrite V in P. specialize (P L).
      destruct (populate host plugin _ _) as [[sch|e] st']; exact P.
  - assert (U : unchanged log (compose host plugin)).
    { unfold compose, _collapseServerSettingsDotted. repeat unchanged_step. }
    now rewrite U.
  - exact L.
Qed.

(** X10.  The branch of lines 233-236, taken when a validation fails and no
    snapshot of the original schema is there, is never taken in the life of
    a manager: [populate] is only called by [fetch], and [fetch] has taken the
    snapshot before.  Whatever the events, the error message of that branch
    is not in the log. *)
Theorem missing_snapshot_is_never_reported
    (sp : list (string * ServerSpec)) (ss : list string) (evs : list Event) :
  Forall (fun e => e <> ErrorNoOriginal) (log (run host evs (initial sp ss))).
Proof.
  assert (G : forall st, Forall (fun e => e <> ErrorNoOriginal) (log st) ->
                         Forall (fun e => e <> ErrorNoOriginal) (log (run host evs st))).
  { induction evs as [|e r IH]; intros st L; simpl; [exact L|].
    apply IH. now apply step_log. }
  apply G. constructor.
Qed.

Lemma post_eq {A} (c c' : M A) st st' Q E :
  c st = c' st' -> post c' st' Q E -> post c st Q E.
Proof. unfold post. now intros ->. Qed.

(** The rollback, when it returns, has touched [properties] and [default]
    of [language_servers] only. *)
Lemma rollback_shape errs schema pm ls l st :
  obj_get schema "properties" = Some (JObj pm) ->
  obj_get pm "language_servers" = Some (JObj ls) ->
  post (rollback errs (with_ls schema pm l)) st
    (fun s _ =>
       exists l', s = with_ls schema pm l' /\
                  forall k, k <> "properties" -> k <> "default" ->
                            obj_get l' k = obj_get l k)
    (fun _ => True).
Proof.
  intros HP HL.
  unfold post, rollback, bind, modify, gets, lift, ret.
  cbn [original add_log set_validationErrors].
  destruct (original st) as [orig|]; [|eauto].
  destruct (get_path2 orig _ _ "properties") as [op|e]; [|exact I].
  destruct (negb (truthy_opt op));
    rewrite ?(delete_path2_with_ls schema pm (JObj pm) (JObj ls) HP HL);
    (destruct (get_path2 orig _ _ "default") as [od|e]; [|exact I]);
    destruct (negb (truthy_opt od));
    rewrite ?(delete_path2_with_ls schema pm (JObj pm) (JObj ls) HP HL);
    eexists; (split; [reflexivity|]); intros k N1 N2;
    now rewrite ?obj_get_delete_neq by assumption.
Qed.

Lemma populate_gate_shape plugin schema known dflt st :
  post (populate_gate host plugin schema known dflt) st
    (fun s _ =>
       exists pm ls ls',
         obj_get schema "properties" = Some (JObj pm) /\
         obj_get pm "language_servers" = Some (JObj ls) /\
         s = with_ls schema pm ls' /\
         forall k, k <> "properties" -> k <> "default" ->
                   obj_get ls' k = obj_get ls k)
    (fun _ => True).
Proof.
  destruct (path2_cases schema) as [[e He]|(pm & ls & HP & HL)].
  - unfold post. now rewrite (populate_gate_throws host plugin schema known dflt st e He).
  - eapply post_eq;
      [apply (GateFlow.populate_gate_installs host plugin schema pm ls known dflt st HP HL)|].
    apply post_bind.
    destruct (validateData host _ true) as [errs|].
    + eapply post_conseq.
      * apply (rollback_shape errs schema pm ls _ _ HP HL).
      * intros s st' (l' & -> & F). unfold bind, modify, ret, post.
        exists pm, ls, l'. repeat split; auto.
        intros k N1 N2. rewrite F by assumption.
        now rewrite !obj_get_set_neq by assumption.
      * auto.
    + apply post_ret. unfold bind, modify, ret, post.
      exists pm, ls. eexists. repeat split; auto.
      intros k N1 N2. now rewrite !obj_get_set_neq by assumption.
Qed.

Lemma populate_shape plugin schema st :
  post (populate host plugin schema) st
    (fun s _ =>
       exists pm ls ls',
         obj_get schema "properties" = Some (JObj pm) /\
         obj_get pm "language_servers" = Some (JObj ls) /\
         s = with_ls schema pm ls' /\
         forall k, k <> "properties" -> k <> "default" ->
                   obj_get ls' k = obj_get ls k)
    (fun _ => True).
Proof.
  unfold populate.
  repeat first [ apply populate_gate_shape | exact I | post_step ].
Qed.

Lemma with_ls_members schema pm ls' :
  obj_get schema "properties" = Some (JObj pm) ->
  (forall k, k <> "properties" ->
     obj_get (with_ls schema pm ls') k = obj_get schema k) /\
  exists pm',
    obj_get (with_ls schema pm ls') "properties" = Some (JObj pm') /\
    (forall k, k <> "language_servers" -> obj_get pm' k = obj_get pm k) /\
    (forall ls, obj_get pm "language_servers" = Some ls ->
                obj_get pm' "language_servers" = Some (JObj ls')).
Proof.
  intros HP. split.
  - intros k N. unfold with_ls. now apply obj_get_update_neq.
  - eexists. split; [apply (with_ls_properties schema pm (JObj pm) HP)|].
    split.
    + intros k N. now apply obj_get_update_neq.
    + intros ls HL. now rewrite obj_get_update_eq, HL.
Qed.

(** X11.  A [fetch] that finds the cache empty and returns gives back the
    plugin with its [data], [id], [raw] and [version] as they were and with
    a new schema.  The new schema is the deep copy of the schema of the
    plugin, which has an object under [properties.language_servers], with
    no difference outside the members [properties] and [default] of that
    object: [definitions] and every other member of the schema, every other
    property, and every other member of [language_servers] are those of the
    copy. *)
Theorem fetch_recomposes_two_members_only
    (plugin r : IPlugin) (st st' : State) :
  canonical st = None ->
  fetch host plugin st = (Ok r, st') ->
  data r = data plugin /\ id r = id plugin /\ raw r = raw plugin /\
  version r = version plugin /\
  (forall k, k <> "properties" ->
     obj_get (schema r) k = option_map deepCopy (obj_get (schema plugin) k)) /\
  exists pm pm' ls ls',
    obj_get (deepCopy_obj (schema plugin)) "properties" = Some (JObj pm) /\
    obj_get (schema r) "properties" = Some (JObj pm') /\
    (forall k, k <> "language_servers" -> obj_get pm' k = obj_get pm k) /\
    obj_get pm "language_servers" = Some (JObj ls) /\
    obj_get pm' "language_servers" = Some (JObj ls') /\
    (forall k, k <> "properties" -> k <> "default" ->
               obj_get ls' k = obj_get ls k).
Proof.
  intros Hc F. rewrite fetch_unfolded, Hc in F.
  pose proof (populate_shape plugin (deepCopy_obj (schema plugin))
                (primed plugin st)) as P.
  unfold post in P.
  destruct (populate host plugin _ _) as [[sch|e] st1]; [|discriminate].
  injection F as <- <-. cbn [data id raw version schema].
  destruct P as (pm & ls & ls' & HP & HL & -> & Fr).
  destruct (with_ls_members (deepCopy_obj (Settings.schema plugin)) pm ls' HP)
    as (A & pm' & B & C & D).
  repeat split; auto.
  - intros k N. rewrite A by assumption. apply obj_get_deepCopy.
  - exists pm, pm', ls, ls'. repeat split; auto. now apply D with (JObj ls).
Qed.

Lemma get_member_throws (v : option JSON) (k : string) (e : JSError) :
  get_member v k = Throw e -> e = TypeError.
Proof. destruct v as [[]|]; simpl; congruence. Qed.

(** X12.  On a plugin whose schema has no [definitions], or no
    [properties.language_servers] to read, a [fetch] that finds the cache
    empty throws a [TypeError] before it has looked at any spec: the specs,
    the attempt counter, the log and the recorded defaults are untouched.
    But the snapshot has been taken and the cache has been filled, with the
    deep copy of the schema as it was given: every later [fetch] of the
    epoch returns that copy, not composed, without throwing. *)
Theorem fetch_throws_on_a_schema_without_definitions
    (plugin : IPlugin) (st : State) :
  canonical st = None ->
  nullish (obj_get (schema plugin) "definitions") = true \/
  nullish (obj_get (schema plugin) "properties") = true \/
  (exists pm, obj_get (schema plugin) "properties" = Some (JObj pm) /\
              nullish (obj_get pm "language_servers") = true) ->
  fetch host plugin st = (Throw TypeError, primed plugin st) /\
  specs (primed plugin st) = specs st /\
  validationAttempt (primed plugin st) = validationAttempt st /\
  log (primed plugin st) = log st /\
  _defaults (primed plugin st) = _defaults st /\
  forall later,
    fetch host later (primed plugin st) =
    (Ok (mkPlugin (data later) (id later) (raw later)
           (deepCopy_obj (schema plugin)) (version later)),
     primed plugin st).
Proof.
  intros Hc H.
  assert (F : forall later,
             fetch host later (primed plugin st) =
             (Ok (mkPlugin (data later) (id later) (raw later)
                    (deepCopy_obj (schema plugin)) (version later)),
              primed plugin st)).
  { intros later. unfold primed.
    destruct (original st) as [o|] eqn:Ho.
    - now apply fetch_cached with o.
    - now apply fetch_cached with (deepCopy_obj (schema plugin)). }
  assert (U : specs (primed plugin st) = specs st /\
              validationAttempt (primed plugin st) = validationAttempt st /\
              log (primed plugin st) = log st /\
              _defaults (primed plugin st) = _defaults st).
  { unfold primed. now destruct (original st). }
  split; [|tauto].
  rewrite fetch_unfolded, Hc. unfold populate, bind, lift, get_path2.
  rewrite !obj_get_deepCopy.
  destruct H as [H|[H|(pm & P & H)]].
  - destruct (obj_get (schema plugin) "definitions") as [[]|];
      try discriminate; reflexivity.
  - destruct (get_member _ "language-server") as [base|e] eqn:G;
      [|now rewrite (get_member_throws _ _ _ G)].
    cbn [get_member member obind]. rewrite obj_get_deepCopy.
    destruct (obj_get (schema plugin) "properties") as [[]|];
      try discriminate; reflexivity.
  - destruct (get_member _ "language-server") as [base|e] eqn:G;
      [|now rewrite (get_member_throws _ _ _ G)].
    cbn [get_member member obind]. rewrite obj_get_deepCopy, P.
    cbn [option_map deepCopy get_member member obind].
    fold (deepCopy_obj pm). rewrite obj_get_deepCopy.
    destruct (obj_get pm "language_servers") as [[]|];
      try discriminate; reflexivity.
Qed.

End WithHost.

End LifeFacts.

(* ================================================================== *)
(** ** A reference to a definition that is there *)

Module InlineFacts.
Import JS Settings Vocabulary Terms JSFacts ComposerFacts DanglingRefFacts ObjectFacts.

Local Unset Implicit Arguments.

(** The members of a property after the fields [es] of a definition have
    been assigned to it. *)
Lemma fold_assign_object es vm :
  exists vm',
    fold_left (fun v kv => assign v (fst kv) (snd kv)) es (JObj vm) = JObj vm' /\
    forall f,
      obj_get vm' f =
      match obj_get (List.rev es) f with
      | Some x => Some x
      | None => obj_get vm f
      end.
Proof.
  revert vm. induction es as [|[k x] r IH]; intros vm.
  - exists vm. split; reflexivity.
  - cbn [fold_left fst snd assign].
    destruct (IH (obj_set vm k x)) as (vm' & E & G).
    exists vm'. split; [exact E|]. intros f. rewrite G.
    cbn [List.rev]. rewrite obj_get_app. cbn [obj_get].
    destruct (obj_get (List.rev r) f); [reflexivity|].
    destruct (f =? k) eqn:Ef.
    + apply String.eqb_eq in Ef. subst. apply obj_get_set_eq.
    + apply String.eqb_neq in Ef. now apply obj_get_set_neq.
Qed.


End InlineFacts.

(* ================================================================== *)
(** ** Composing what has been composed *)

Module RecompositionFacts.
Import JS Settings Vocabulary JSFacts ComposerFacts ObjectFacts InlineFacts.

Local Unset Implicit Arguments.

Section WithHost.

Variable host : Host.

(** A turn of the loop over the properties leaves, under the key it has
    looked at, a value that a later turn leaves alone, with the same
    warning. *)
Lemma inline_ref_settles cs pm key value cs1 w1 :
  inline_ref cs key value = (Ok tt, cs1, w1) ->
  obj_get cs "properties" = Some (JObj pm) ->
  obj_get pm key = Some value ->
  exists pm1 value1,
    obj_get cs1 "properties" = Some (JObj pm1) /\
    keys pm1 = keys pm /\
    obj_get pm1 key = Some value1 /\
    (forall cs', inline_ref cs' key value1 = (Ok tt, cs', w1)) /\
    (forall k, k <> key -> obj_get pm1 k = obj_get pm k).
Proof.
  unfold inline_ref. intros H P V.
  destruct (negb (isJSONProperty value)) eqn:J.
  { injection H as <- <-. exists pm, value. repeat split; auto.
    intros cs'. now rewrite J. }
  destruct (member value "$ref") as [[| | |ref| |]|] eqn:R; try discriminate.
  2:{ injection H as <- <-. exists pm, value. repeat split; auto.
      intros cs'. now rewrite J, R. }
  destruct (String.prefix "#/definitions/" ref) eqn:Pr.
  2:{ injection H as <- <-. exists pm, value. repeat split; auto.
      intros cs'. now rewrite J, R, Pr. }
  destruct (get_member _ _) as [definition|e]; [|discriminate].
  destruct (entries definition) as [des|e] eqn:En; [|discriminate].
  injection H as <- <-.
  assert (N : nullish definition = false).
  { destruct definition as [[]|]; try discriminate; reflexivity. }
  rewrite N.
  destruct value as [| | |s|l|vm]; try discriminate.
  destruct (fold_assign_object des vm) as (vm1 & -> & _).
  cbn [delete_member].
  exists (obj_update pm key (fun _ => JObj (obj_delete vm1 "$ref"))),
         (JObj (obj_delete vm1 "$ref")).
  split; [now rewrite obj_get_update_eq, P|].
  split; [apply keys_update|].
  split; [now rewrite obj_get_update_eq, V|].
  split.
  - intros cs'.
    destruct (negb (isJSONProperty (JObj (obj_delete vm1 "$ref")))); [reflexivity|].
    cbn [member]. now rewrite obj_get_delete_eq.
  - intros k K. now apply obj_get_update_neq.
Qed.

Lemma inline_refs_settle es cs pm cs' w :
  inline_refs cs es = (Ok tt, cs', w) ->
  obj_get cs "properties" = Some (JObj pm) ->
  NoDup (keys es) ->
  (forall k v, In (k, v) es -> obj_get pm k = Some v) ->
  exists pm' ws,
    obj_get cs' "properties" = Some (JObj pm') /\
    keys pm' = keys pm /\
    w = concat ws /\
    Forall2
      (fun kv wi =>
         exists value1,
           obj_get pm' (fst kv) = Some value1 /\
           forall cs'', inline_ref cs'' (fst kv) value1 = (Ok tt, cs'', wi))
      es ws /\
    (forall k, ~ In k (keys es) -> obj_get pm' k = obj_get pm k).
Proof.
  revert cs pm cs' w. induction es as [|[key value] rest IH];
    intros cs pm cs' w H P ND Hv.
  - simpl in H. injection H as <- <-. exists pm, []. repeat split; auto.
  - inversion ND as [|? ? Hk ND']; subst. simpl in H.
    destruct (inline_ref cs key value) as [[[[]|e] cs1] w1] eqn:E1; [|discriminate].
    destruct (inline_refs cs1 rest) as [[o2 cs2] w2] eqn:E2.
    injection H as -> <- <-.
    destruct (inline_ref_settles _ _ _ _ _ _ E1 P (Hv key value (or_introl eq_refl)))
      as (pm1 & value1 & P1 & K1 & V1 & I1 & F1).
    destruct (IH _ _ _ _ E2 P1 ND') as (pm' & ws & P' & K' & -> & F2 & Fr).
    { intros k v I. rewrite F1.
      - apply Hv. now right.
      - intros ->. apply Hk. apply in_map_iff. now exists (key, v). }
    exists pm', (w1 :: ws). split; [exact P'|]. split; [congruence|].
    split; [reflexivity|]. split.
    + constructor; [|exact F2]. exists value1. split; [|exact I1].
      cbn [fst]. now rewrite Fr.
    + intros k N. simpl in N. rewrite Fr by tauto. apply F1.
      intros ->. tauto.
Qed.

Lemma inline_refs_idle es ws cs :
  Forall2
    (fun kv wi => forall cs'', inline_ref cs'' (fst kv) (snd kv) = (Ok tt, cs'', wi))
    es ws ->
  inline_refs cs es = (Ok tt, cs, concat ws).
Proof.
  intros F. induction F as [|[key value] wi es ws H F IH]; [reflexivity|].
  cbn [inline_refs concat]. cbn [fst snd] in H. now rewrite H, IH.
Qed.

Lemma settled_entries (es es' : obj) (pm' : obj) ws :
  keys es' = keys es ->
  (forall k v, In (k, v) es' -> obj_get pm' k = Some v) ->
  Forall2
    (fun kv wi =>
       exists value1,
         obj_get pm' (fst kv) = Some value1 /\
         forall cs'', inline_ref cs'' (fst kv) value1 = (Ok tt, cs'', wi))
    es ws ->
  Forall2
    (fun kv wi => forall cs'', inline_ref cs'' (fst kv) (snd kv) = (Ok tt, cs'', wi))
    es' ws.
Proof.
  intros K Hv F. revert es' K Hv.
  induction F as [|[key value] wi es ws H F IH]; intros [|[key' value'] es'] K Hv;
    try discriminate; constructor.
  - simpl in K. injection K as -> K. cbn [fst snd] in *.
    destruct H as (value1 & G & I).
    rewrite (Hv key value' (or_introl eq_refl)) in G. injection G as <-. exact I.
  - simpl in K. injection K as -> K. apply IH; [exact K|].
    intros k v I. apply Hv. now right.
Qed.

(** A fragment that has been composed is composed again to itself. *)
Lemma transform_spec_again ss base shared k s o s' w :
  (forall cs p, config_schema s = Some cs -> obj_get cs "properties" = Some p ->
                truthy p = true -> exists pm, p = JObj pm /\ NoDup (keys pm)) ->
  transform_spec host ss base shared k s = (Ok o, s', w) ->
  transform_spec host ss base shared k s' = (Ok o, s', w).
Proof.
  intros Wf H.
  destruct (skipped k s) eqn:S.
  { destruct (transform_spec_skipped host ss base shared k s S) as (e & T & _).
    rewrite H in T. injection T as -> -> ->. exact H. }
  destruct (transform_spec_not_skipped host ss base shared k s S H)
    as (known & dflt & ->).
  destruct (transform_spec_composed host ss base shared k s H)
    as (cs & cs3 & bm & bp & C & _ & -> & F & (es & E & R) & B & PB & -> & ->).
  unfold skipped in S. apply orb_false_iff in S. destruct S as [S1 S2].
  rewrite C in S2. apply negb_false_iff in S2.
  destruct (obj_get cs "properties") as [p|] eqn:P; [|discriminate].
  cbn [truthy_opt] in S2.
  destruct (Wf cs p C P S2) as (pm & -> & ND).
  cbn [entries entries_of] in E. injection E as <-.
  destruct (inline_refs_settle _ _ pm _ _ R) as (pm' & ws & P' & K' & -> & F2 & _).
  { now rewrite !obj_get_set_neq by discriminate. }
  { now apply NoDup_keys_ownEntries. }
  { intros k0 v I. apply In_obj_get; [exact ND|]. now apply In_ownEntries. }
  unfold transform_spec. rewrite S1. cbn [config_schema display_name].
  rewrite P'. cbn [truthy_opt truthy negb].
  assert (D : obj_set cs3 "description"
                (JStr (description_of host ss k
                         (mkSpec (display_name s) (Some cs3)))) = cs3).
  { apply obj_set_same. rewrite F by discriminate.
    rewrite obj_get_set_neq by discriminate. apply obj_get_set_eq. }
  rewrite D.
  assert (T : obj_set cs3 "title" (JStr (title_text host)) = cs3).
  { apply obj_set_same. rewrite F by discriminate. apply obj_get_set_eq. }
  rewrite T, P'. cbn [entries entries_of].
  rewrite (inline_refs_idle (ownEntries pm') ws cs3).
  2:{ apply settled_entries with (ownEntries pm) pm'.
      - now apply keys_ownEntries_ext.
      - intros k0 v I. apply In_obj_get.
        + rewrite K'. exact ND.
        + now apply In_ownEntries.
      - exact F2. }
  rewrite B. cbn [get_member member obind]. rewrite PB.
  cbn [set_member assign]. rewrite ?P'. reflexivity.
Qed.

Lemma transform_specs_again ss base shared sp known0 dflt0 known dflt sp' w :
  (forall k s cs p, In (k, s) sp -> config_schema s = Some cs ->
     obj_get cs "properties" = Some p -> truthy p = true ->
     exists pm, p = JObj pm /\ NoDup (keys pm)) ->
  transform_specs host ss base shared sp known0 dflt0 = (Ok (known, dflt), sp', w) ->
  transform_specs host ss base shared sp' known0 dflt0 = (Ok (known, dflt), sp', w).
Proof.
  revert known0 dflt0 sp' w.
  induction sp as [|[k s] r IH]; intros known0 dflt0 sp' w Wf H.
  - simpl in H. injection H as <- <- <- <-. reflexivity.
  - simpl in H.
    destruct (transform_spec host ss base shared k s)
      as [[[[[ke de]|]|e] s1] w1] eqn:T; [| |discriminate].
    + destruct (transform_specs host ss base shared r _ _) as [[o2 r2] w2] eqn:R.
      injection H as -> <- <-.
      apply transform_spec_again in T; [|intros cs p; apply (Wf k s); now left].
      apply IH in R; [|intros k0 s0 cs p I; apply (Wf k0 s0); now right].
      simpl. now rewrite T, R.
    + destruct (transform_specs host ss base shared r _ _) as [[o2 r2] w2] eqn:R.
      injection H as -> <- <-.
      apply transform_spec_again in T; [|intros cs p; apply (Wf k s); now left].
      apply IH in R; [|intros k0 s0 cs p I; apply (Wf k0 s0); now right].
      simpl. now rewrite T, R.
Qed.

(** X14.  Composition is idempotent on the specs it has mutated.  When the
    loop over the specs has run to its end, on fragments whose [properties]
    are objects, a second run over the specs as the first run left them, as
    in the epoch after [sessionsChanged] when the sessions are the same,
    ends with the same [knownServersConfig], the same [defaults] and the
    same warnings, and leaves the specs as they are: every reference that
    could be resolved is gone, and the description and the title are
    written over with the same text. *)
Theorem recomposition_is_idempotent
    (ss : list string) (base : option JSON) (shared : obj)
    (sp sp' : list (string * ServerSpec)) (known dflt : obj) (w : list LogEntry) :
  (forall k s cs p, In (k, s) sp -> config_schema s = Some cs ->
     obj_get cs "properties" = Some p -> truthy p = true ->
     exists pm, p = JObj pm /\ NoDup (keys pm)) ->
  transform_specs host ss base shared sp [] [] = (Ok (known, dflt), sp', w) ->
  transform_specs host ss base shared sp' [] [] = (Ok (known, dflt), sp', w).
Proof.
  intros Plain First. now apply transform_specs_again with sp.
Qed.

End WithHost.

End RecompositionFacts.

(* ================================================================== *)
(** ** The pruning *)

Module PruningFacts.
Import JS Settings Vocabulary JSFacts ComposerFacts ObjectFacts Pruning.

Local Unset Implicit Arguments.

Lemma for_each_throws {A B} (f : A -> B -> Outcome A) (l : list B) (x : B) :
  In x l -> (forall a, exists e, f a x = Throw e) ->
  forall a, exists e, for_each f l a = Throw e.
Proof.
  intros I H. induction l as [|b r IH]; intros a; [destruct I|].
  cbn [for_each]. destruct I as [->|I].
  - destruct (H a) as [e ->]. simpl. eauto.
  - destruct (f a b) as [a'|e]; simpl; eauto.
Qed.


Lemma distinct_keys_deepCopy (m : obj) :
  distinct_keys m -> distinct_keys (deepCopy_obj m).
Proof.
  intros [ND G]. split; [now apply NoDup_keys_deepCopy|].
  intros k gm' I. unfold deepCopy_obj in I. apply (proj1 (In_ownEntries _ _)) in I.
  apply in_map_iff in I. destruct I as ([k0 g] & E & I).
  cbn [fst snd] in E. injection E as -> E.
  destruct g as [| | |s|l|gm]; try discriminate.
  cbn [deepCopy] in E. injection E as <-. fold (deepCopy_obj gm).
  destruct (G k gm I) as [NDg Gs]. split; [now apply NoDup_keys_deepCopy|].
  intros sm' S. rewrite obj_get_deepCopy in S.
  destruct (obj_get gm "serverSettings") as [[| | |s|l|sm]|]; try discriminate.
  cbn [option_map deepCopy] in S. injection S as <-.
  fold (deepCopy_obj sm). apply NoDup_keys_deepCopy. now apply Gs.
Qed.

Section WithDeepEqual.

Variable deepEqual : JSON -> option JSON -> Outcome bool.

Lemma get_member_defined (v : option JSON) (k : string) (d : option JSON) :
  get_member v k = Ok d -> get_member_opt v k = d /\ nullish v = false.
Proof.
  destruct v as [[]|]; simpl; intros [= <-]; auto; discriminate.
Qed.

(** *** The loop over the settings of a server *)

Lemma prune_settings_object sd es acc r :
  for_each (prune_setting deepEqual sd) es (JObj acc) = Ok r ->
  r = JObj (filter (fun kv => negb (hit deepEqual sd es (fst kv))) acc).
Proof.
  revert acc. induction es as [|[q v] rest IH]; intros acc H.
  - simpl in H. injection H as <-. f_equal. symmetry. now apply filter_all.
  - cbn [for_each] in H. unfold prune_setting at 1 in H.
    destruct (get_member sd q) as [d|e] eqn:G; [|discriminate].
    apply get_member_defined in G. destruct G as [G _].
    cbn [obind] in H.
    destruct (deepEqual v d) as [[|]|e] eqn:D; cbn [obind] in H; try discriminate.
    + cbn [delete_entry obind] in H. apply IH in H. subst r. f_equal.
      unfold obj_delete. rewrite filter_twice. apply filter_ext.
      intros [k x]. unfold hit, repeats. cbn [existsb fst snd].
      rewrite G, D. rewrite (String.eqb_sym k q).
      destruct (q =? k); reflexivity.
    + apply IH in H. subst r. f_equal. apply filter_ext.
      intros [k x]. unfold hit, repeats. cbn [existsb fst snd].
      rewrite G, D. now rewrite andb_false_r.
Qed.

Lemma prune_settings_other sd es sv r :
  (forall sm, sv <> JObj sm) ->
  for_each (prune_setting deepEqual sd) es sv = Ok r -> r = sv.
Proof.
  intros N. induction es as [|[q v] rest IH]; intros H.
  - simpl in H. now injection H.
  - cbn [for_each] in H. unfold prune_setting at 1 in H.
    destruct (get_member sd q) as [d|e]; [|discriminate]. cbn [obind] in H.
    destruct (deepEqual v d) as [[|]|e]; cbn [obind] in H; try discriminate.
    + destruct sv; try discriminate. exfalso. now apply (N m).
    + now apply IH.
Qed.

Lemma hit_absent sd es q :
  ~ In q (keys es) -> hit deepEqual sd es q = false.
Proof.
  unfold hit. induction es as [|[k v] r IH]; intros N; [reflexivity|].
  simpl in *. rewrite IH by tauto.
  destruct (q =? k) eqn:E; [|reflexivity].
  apply String.eqb_eq in E. subst. tauto.
Qed.

Lemma hit_self sd es kv :
  NoDup (keys es) -> In kv es ->
  hit deepEqual sd es (fst kv) =
  repeats deepEqual (snd kv) (get_member_opt sd (fst kv)).
Proof.
  induction es as [|[k v] r IH]; intros ND I; [destruct I|].
  inversion ND as [|? ? Hk ND']; subst.
  unfold hit. cbn [existsb fst snd]. fold (hit deepEqual sd r (fst kv)).
  destruct I as [<-|I].
  - cbn [fst snd]. rewrite String.eqb_refl, hit_absent by assumption.
    now rewrite orb_false_r.
  - rewrite IH by assumption.
    destruct (fst kv =? k) eqn:E; [|reflexivity].
    apply String.eqb_eq in E. subst. exfalso. apply Hk.
    now apply in_map.
Qed.

Lemma prune_settings_spec sd sv es r :
  (forall sm, sv = JObj sm -> NoDup (keys sm)) ->
  entries (Some sv) = Ok es ->
  for_each (prune_setting deepEqual sd) es sv = Ok r ->
  r = pruned_settings deepEqual sd sv.
Proof.
  intros ND E H.
  destruct sv as [| | |s|l|sm];
    try (apply prune_settings_other in H; [exact H | discriminate]).
  cbn [entries entries_of] in E. injection E as <-.
  apply prune_settings_object in H. subst r. cbn [pruned_settings]. f_equal.
  apply filter_ext_in. intros kv I. f_equal.
  apply hit_self.
  - apply NoDup_keys_ownEntries. now apply ND.
  - now apply In_ownEntries.
Qed.

(** *** The loop over the members of a group *)

Lemma dropped_absent d es p :
  ~ In p (keys es) -> dropped deepEqual d es p = false.
Proof.
  unfold dropped. induction es as [|[k v] r IH]; intros N; [reflexivity|].
  simpl in *. rewrite IH by tauto.
  destruct (p =? k) eqn:E; [|reflexivity].
  apply String.eqb_eq in E. subst. tauto.
Qed.

Lemma dropped_self d es kv :
  NoDup (keys es) -> In kv es ->
  dropped deepEqual d es (fst kv) =
  negb (fst kv =? "serverSettings") &&
  repeats deepEqual (snd kv) (member d (fst kv)).
Proof.
  induction es as [|[k v] r IH]; intros ND I; [destruct I|].
  inversion ND as [|? ? Hk ND']; subst.
  unfold dropped. cbn [existsb fst snd]. fold (dropped deepEqual d r (fst kv)).
  destruct I as [<-|I].
  - cbn [fst snd]. rewrite String.eqb_refl, dropped_absent by assumption.
    now rewrite orb_false_r.
  - rewrite IH by assumption.
    destruct (fst kv =? k) eqn:E; [|reflexivity].
    apply String.eqb_eq in E. subst. exfalso. apply Hk.
    now apply in_map.
Qed.

Lemma prune_members_loop d es acc g' :
  NoDup (keys es) ->
  (forall sv sm, In ("serverSettings", sv) es -> sv = JObj sm -> NoDup (keys sm)) ->
  for_each (prune_member deepEqual d) es acc = Ok g' ->
  g' =
  match obj_get es "serverSettings" with
  | Some sv =>
    obj_update (filter (fun kv => negb (dropped deepEqual d es (fst kv))) acc)
      "serverSettings"
      (fun _ => pruned_settings deepEqual (member d "serverSettings") sv)
  | None => filter (fun kv => negb (dropped deepEqual d es (fst kv))) acc
  end.
Proof.
  revert acc. induction es as [|[p v] rest IH]; intros acc ND W H.
  - simpl in H. injection H as <-. simpl. symmetry. now apply filter_all.
  - inversion ND as [|? ? Hp ND']; subst.
    assert (W' : forall sv sm, In ("serverSettings", sv) rest -> sv = JObj sm ->
                               NoDup (keys sm)).
    { intros sv sm I. apply W. now right. }
    cbn [for_each] in H. unfold prune_member at 1 in H.
    destruct (p =? "serverSettings") eqn:E.
    + apply String.eqb_eq in E. subst p.
      destruct (entries (Some v)) as [es'|e] eqn:En; [|discriminate].
      cbn [obind] in H.
      destruct (for_each (prune_setting deepEqual (member d "serverSettings")) es' v)
        as [pruned|e] eqn:L; [|discriminate].
      cbn [obind] in H.
      apply prune_settings_spec in L; [|intros sm ->; apply (W (JObj sm) sm);
                                        [now left | reflexivity] | exact En].
      subst pruned. apply (IH _ ND' W') in H.
      assert (R : obj_get rest "serverSettings" = None) by now apply obj_get_None.
      rewrite R in H. cbn [obj_get]. rewrite String.eqb_refl.
      rewrite H.
      rewrite (filter_key_update
                 (fun k => negb (dropped deepEqual d rest k))).
      f_equal. apply filter_ext. intros [k x].
      unfold dropped. cbn [existsb fst snd]. rewrite String.eqb_refl.
      now rewrite andb_false_r.
    + destruct (deepEqual v (member d p)) as [[|]|e] eqn:D;
        cbn [obind] in H; try discriminate.
      * apply (IH _ ND' W') in H. cbn [obj_get].
        rewrite (String.eqb_sym "serverSettings" p), E.
        assert (F : filter (fun kv => negb (dropped deepEqual d rest (fst kv)))
                      (obj_delete acc p) =
                    filter (fun kv => negb (dropped deepEqual d ((p, v) :: rest) (fst kv)))
                      acc).
        { unfold obj_delete. rewrite filter_twice. apply filter_ext.
          intros [k x]. unfold dropped, repeats. cbn [existsb fst snd].
          rewrite E, D. rewrite (String.eqb_sym k p).
          destruct (p =? k); reflexivity. }
        now rewrite F in H.
      * apply (IH _ ND' W') in H. cbn [obj_get].
        rewrite (String.eqb_sym "serverSettings" p), E.
        assert (F : filter (fun kv => negb (dropped deepEqual d rest (fst kv))) acc =
                    filter (fun kv => negb (dropped deepEqual d ((p, v) :: rest) (fst kv)))
                      acc).
        { apply filter_ext. intros [k x]. unfold dropped, repeats.
          cbn [existsb fst snd]. rewrite D. now rewrite andb_false_r. }
        now rewrite F in H.
Qed.

Lemma prune_group_spec d gm g' :
  NoDup (keys gm) ->
  (forall sm, obj_get gm "serverSettings" = Some (JObj sm) -> NoDup (keys sm)) ->
  for_each (prune_member deepEqual d) (ownEntries gm) gm = Ok g' ->
  g' = pruned_group deepEqual d gm.
Proof.
  intros ND W H.
  apply prune_members_loop in H.
  2:{ now apply NoDup_keys_ownEntries. }
  2:{ intros sv sm I ->. apply W. apply In_obj_get; [assumption|].
      now apply In_ownEntries. }
  rewrite obj_get_ownEntries in H. subst g'. unfold pruned_group.
  assert (F : filter (fun kv => negb (dropped deepEqual d (ownEntries gm) (fst kv))) gm =
              filter (fun kv => (fst kv =? "serverSettings") ||
                                negb (repeats deepEqual (snd kv) (member d (fst kv))))
                gm).
  { apply filter_ext_in. intros kv I.
    rewrite dropped_self.
    - rewrite negb_andb, negb_involutive. reflexivity.
    - now apply NoDup_keys_ownEntries.
    - now apply In_ownEntries. }
  rewrite F. clear F.
  set (kept := filter _ gm).
  assert (NDk : NoDup (keys kept)) by now apply NoDup_keys_filter.
  assert (Ik : forall kv, In kv kept -> In kv gm).
  { intros kv I. apply filter_In in I. tauto. }
  destruct (obj_get gm "serverSettings") as [sv|] eqn:S.
  - rewrite obj_update_map by assumption. apply map_ext_in.
    intros [k x] I. cbn [fst snd].
    destruct (k =? "serverSettings") eqn:E; [|reflexivity].
    apply String.eqb_eq in E. subst k.
    apply Ik, (In_obj_get gm _ _ ND) in I. congruence.
  - rewrite <- (map_id kept) at 1. apply map_ext_in.
    intros [k x] I. cbn [fst snd].
    destruct (k =? "serverSettings") eqn:E; [|reflexivity].
    apply String.eqb_eq in E. subst k.
    apply Ik, (In_obj_get gm _ _ ND) in I. congruence.
Qed.

(** *** The loop over the servers *)

Lemma prune_server_cases defaults result k g :
  prune_server deepEqual defaults result (k, g) =
  if shadowed defaults k g then Throw TypeError
  else
    match examined defaults k g with
    | Some (d, gm) =>
      pruned <~ for_each (prune_member deepEqual d) (ownEntries gm) gm ;;
      Ok (update_member result k (fun _ => JObj pruned))
    | None => Ok result
    end.
Proof.
  unfold prune_server, examined, shadowed.
  destruct (obj_get defaults k) as [[| | |s|l|m]|]; try reflexivity;
    destruct g as [| | |s'|l'|gm]; try reflexivity;
    destruct (obj_has gm "hasOwnProperty"); try reflexivity;
    destruct (obj_has gm "serverSettings"); reflexivity.
Qed.

Lemma examined_object defaults k g d gm :
  examined defaults k g = Some (d, gm) ->
  g = JObj gm /\ obj_has gm "serverSettings" = true /\
  obj_get defaults k = Some d /\ d <> JNull.
Proof.
  unfold examined.
  destruct (obj_get defaults k) as [[| | |s|l|m]|]; try discriminate;
    destruct g as [| | |s'|l'|gm']; try discriminate;
    destruct (obj_has gm' "serverSettings") eqn:Hs; try discriminate;
    intros [= <- <-]; repeat split; auto; discriminate.
Qed.

Lemma prune_servers_loop defaults es acc r :
  NoDup (keys es) ->
  (forall k gm, In (k, JObj gm) es ->
     NoDup (keys gm) /\
     forall sm, obj_get gm "serverSettings" = Some (JObj sm) -> NoDup (keys sm)) ->
  for_each (prune_server deepEqual defaults) es (JObj acc) = Ok r ->
  exists rm,
    r = JObj rm /\ keys rm = keys acc /\
    forall k,
      obj_get rm k =
      match obj_get es k with
      | Some g =>
        match examined defaults k g with
        | Some (d, gm) =>
          option_map (fun _ => JObj (pruned_group deepEqual d gm)) (obj_get acc k)
        | None => obj_get acc k
        end
      | None => obj_get acc k
      end.
Proof.
  revert acc. induction es as [|[k0 g0] rest IH]; intros acc ND W H.
  - simpl in H. injection H as <-. exists acc. auto.
  - inversion ND as [|? ? Hk ND']; subst.
    assert (W' : forall k gm, In (k, JObj gm) rest ->
                   NoDup (keys gm) /\
                   forall sm, obj_get gm "serverSettings" = Some (JObj sm) ->
                              NoDup (keys sm)).
    { intros k gm I. apply (W k). now right. }
    cbn [for_each] in H. rewrite prune_server_cases in H.
    destruct (shadowed defaults k0 g0); [discriminate|].
    destruct (examined defaults k0 g0) as [[d gm]|] eqn:X.
    + destruct (examined_object _ _ _ _ _ X) as (-> & _ & _ & _).
      destruct (for_each (prune_member deepEqual d) (ownEntries gm) gm)
        as [pruned|e] eqn:L; [|discriminate].
      destruct (W k0 gm (or_introl eq_refl)) as [NDg Ws].
      apply (prune_group_spec d gm pruned NDg Ws) in L. subst pruned.
      cbn [obind update_member] in H.
      destruct (IH _ ND' W' H) as (rm & -> & K & G).
      exists rm. split; [reflexivity|]. split; [now rewrite K, keys_update|].
      intros k. rewrite G. cbn [obj_get].
      destruct (k =? k0) eqn:E.
      * apply String.eqb_eq in E. subst k.
        apply obj_get_None in Hk. rewrite Hk, X. apply obj_get_update_eq.
      * apply String.eqb_neq in E.
        rewrite obj_get_update_neq by assumption. reflexivity.
    + cbn [obind] in H. destruct (IH _ ND' W' H) as (rm & -> & K & G).
      exists rm. split; [reflexivity|]. split; [exact K|].
      intros k. rewrite G. cbn [obj_get].
      destruct (k =? k0) eqn:E; [|reflexivity].
      apply String.eqb_eq in E. subst k.
      apply obj_get_None in Hk. now rewrite Hk, X.
Qed.

Lemma prune_servers_spec defaults rm r :
  distinct_keys rm ->
  for_each (prune_server deepEqual defaults) (ownEntries rm) (JObj rm) = Ok r ->
  r = JObj (map (pruned_entry deepEqual defaults) rm).
Proof.
  intros [ND W] H.
  apply prune_servers_loop in H.
  2:{ now apply NoDup_keys_ownEntries. }
  2:{ intros k gm I. apply W with k. now apply In_ownEntries. }
  destruct H as (rm' & -> & K & G). f_equal.
  apply obj_ext.
  - now rewrite K.
  - rewrite K. unfold keys, pruned_entry. rewrite map_map. reflexivity.
  - intros k. rewrite G, obj_get_ownEntries.
    unfold pruned_entry.
    rewrite (obj_get_map_entry
               (fun k g => match examined defaults k g with
                           | Some (d, gm) => JObj (pruned_group deepEqual d gm)
                           | None => g
                           end)).
    destruct (obj_get rm k) as [g|]; [|reflexivity].
    cbn [option_map]. now destruct (examined defaults k g) as [[d gm]|].
Qed.

(** *** The loops return on settings that are [prunable] *)

Lemma prune_settings_returns sd es acc :
  forallb (fun kv => negb (nullish sd) &&
                     returns deepEqual (snd kv) (get_member_opt sd (fst kv))) es = true ->
  exists r, for_each (prune_setting deepEqual sd) es (JObj acc) = Ok r.
Proof.
  revert acc. induction es as [|[q v] rest IH]; intros acc H; [simpl; eauto|].
  cbn [forallb fst snd] in H. apply andb_true_iff in H. destruct H as [H1 H2].
  apply andb_true_iff in H1. destruct H1 as [N R].
  cbn [for_each]. unfold prune_setting at 1.
  assert (G : get_member sd q = Ok (get_member_opt sd q)).
  { destruct sd as [[]|]; try discriminate; reflexivity. }
  rewrite G. cbn [obind]. unfold returns in R.
  destruct (deepEqual v (get_member_opt sd q)) as [[|]|e]; try discriminate;
    cbn [obind delete_entry]; now apply IH.
Qed.

Lemma prune_members_returns d es acc :
  forallb
    (fun kv =>
       if fst kv =? "serverSettings"
       then prunable_settings deepEqual (member d "serverSettings") (snd kv)
       else returns deepEqual (snd kv) (member d (fst kv)))
    es = true ->
  exists g', for_each (prune_member deepEqual d) es acc = Ok g'.
Proof.
  revert acc. induction es as [|[p v] rest IH]; intros acc H; [simpl; eauto|].
  cbn [forallb fst snd] in H. apply andb_true_iff in H. destruct H as [H1 H2].
  cbn [for_each]. unfold prune_member at 1.
  destruct (p =? "serverSettings") eqn:E.
  - apply String.eqb_eq in E. subst p.
    destruct v as [| | |s|l|sm]; try discriminate.
    cbn [entries entries_of obind]. cbn [prunable_settings] in H1.
    destruct (prune_settings_returns (member d "serverSettings") (ownEntries sm) sm)
      as [r ->].
    { apply forallb_forall. intros kv I.
      apply (proj1 (forallb_forall _ _) H1). now apply In_ownEntries. }
    cbn [obind]. now apply IH.
  - unfold returns in H1.
    destruct (deepEqual v (member d p)) as [[|]|e]; try discriminate;
      cbn [obind]; now apply IH.
Qed.

Lemma prune_servers_returns defaults es acc :
  forallb
    (fun kv =>
       negb (shadowed defaults (fst kv) (snd kv)) &&
       match examined defaults (fst kv) (snd kv) with
       | Some (d, gm) => prunable_group deepEqual d gm
       | None => true
       end)
    es = true ->
  exists r, for_each (prune_server deepEqual defaults) es acc = Ok r.
Proof.
  revert acc. induction es as [|[k g] rest IH]; intros acc H; [simpl; eauto|].
  cbn [forallb fst snd] in H. apply andb_true_iff in H. destruct H as [H1 H2].
  apply andb_true_iff in H1. destruct H1 as [H0 H1].
  apply negb_true_iff in H0.
  cbn [for_each]. rewrite prune_server_cases, H0.
  destruct (examined defaults k g) as [[d gm]|]; [|cbn [obind]; now apply IH].
  destruct (prune_members_returns d (ownEntries gm) gm) as [g' ->].
  { apply forallb_forall. intros kv I.
    apply (proj1 (forallb_forall _ _) H1). now apply In_ownEntries. }
  cbn [obind]. now apply IH.
Qed.

Lemma filter_unfolded settings st :
  _filterOutDefaults deepEqual settings st =
  (es <~ entries (Some (deepCopy_opt settings)) ;;
   for_each (prune_server deepEqual (_defaults st)) es (deepCopy_opt settings),
   st).
Proof.
  unfold _filterOutDefaults, bind, gets, lift.
  now destruct (entries (Some (deepCopy_opt settings))).
Qed.





(** X18.  When the group of a server that has recorded defaults has a
    [serverSettings] member that is [null], the pruning throws: the test of
    line 347 is for the presence of the member, and [Object.entries] is then
    applied to [null].  The state is not touched. *)
Theorem pruning_throws_on_null_settings
    (m gm : obj) (k : string) (d : JSON) (st : State) :
  obj_get m k = Some (JObj gm) ->
  obj_get gm "serverSettings" = Some JNull ->
  obj_get (_defaults st) k = Some d -> d <> JNull ->
  exists e, _filterOutDefaults deepEqual (Some (JObj m)) st = (Throw e, st).
Proof.
  intros G S Dk Dn. rewrite filter_unfolded.
  cbn [deepCopy_opt deepCopy entries entries_of obind]. fold (deepCopy_obj m).
  destruct (for_each_throws (prune_server deepEqual (_defaults st))
              (ownEntries (deepCopy_obj m)) (k, JObj (deepCopy_obj gm)))
    with (a := JObj (deepCopy_obj m)) as [e E].
  - apply obj_get_In. now rewrite obj_get_ownEntries, obj_get_deepCopy, G.
  - intros a. rewrite prune_server_cases.
    destruct (shadowed _ _ _); [eauto|]. unfold examined, obj_has.
    rewrite Dk, obj_get_deepCopy, S. cbn [option_map].
    destruct (for_each_throws (prune_member deepEqual d)
                (ownEntries (deepCopy_obj gm)) ("serverSettings", JNull))
      with (a := deepCopy_obj gm) as [e E].
    + apply obj_get_In. now rewrite obj_get_ownEntries, obj_get_deepCopy, S.
    + intros a'. unfold prune_member. cbn [String.eqb Ascii.eqb Bool.eqb entries obind].
      eauto.
    + destruct d; try congruence; rewrite E; simpl; eauto.
  - rewrite E. eauto.
Qed.

(** X19.  Settings that repeat the recorded defaults are pruned to nothing.
    When the recorded defaults give every server an object that has an
    object as [serverSettings], as composition records them, and no member
    named [hasOwnProperty], and [deepEqual] finds
    the copy of each of their values equal to the value, the pruning of
    settings that are these very defaults returns, for every server, a
    group that has an empty [serverSettings] and no other member. *)
Theorem settings_that_repeat_the_defaults_are_pruned (st : State) :
  distinct_keys (_defaults st) ->
  (forall k d, In (k, d) (_defaults st) ->
     exists dm sm,
       d = JObj dm /\ obj_get dm "serverSettings" = Some (JObj sm) /\
       obj_get dm "hasOwnProperty" = None /\
       (forall p v, In (p, v) dm -> p <> "serverSettings" ->
                    deepEqual (deepCopy v) (Some v) = Ok true) /\
       (forall q x, In (q, x) sm -> deepEqual (deepCopy x) (Some x) = Ok true)) ->
  _filterOutDefaults deepEqual (Some (JObj (_defaults st))) st =
  (Ok (JObj (map (fun kv => (fst kv, JObj [("serverSettings", JObj [])]))
               (deepCopy_obj (_defaults st)))), st).
Proof.
  intros D Hd. rewrite filter_unfolded. f_equal.
  cbn [deepCopy_opt deepCopy entries entries_of obind].
  fold (deepCopy_obj (_defaults st)).
  set (dflt := _defaults st) in *.
  assert (X : forall k g', In (k, g') (deepCopy_obj dflt) ->
            exists d dm sm,
              obj_get dflt k = Some d /\ d = JObj dm /\
              g' = JObj (deepCopy_obj dm) /\
              obj_get dm "serverSettings" = Some (JObj sm) /\
              NoDup (keys dm) /\ NoDup (keys sm) /\
              shadowed dflt k g' = false /\
              examined dflt k g' = Some (d, deepCopy_obj dm) /\
              (forall p v, In (p, v) dm -> p <> "serverSettings" ->
                           deepEqual (deepCopy v) (Some v) = Ok true) /\
              (forall q x, In (q, x) sm -> deepEqual (deepCopy x) (Some x) = Ok true)).
  { intros k g' I. apply In_deepCopy_obj in I. destruct I as (d & I & ->).
    destruct (Hd k d I) as (dm & sm & -> & S & Sh & E1 & E2).
    destruct D as [ND W]. destruct (W k dm I) as [NDm Ws].
    exists (JObj dm), dm, sm. repeat split; auto.
    - now apply In_obj_get.
    - unfold shadowed. rewrite (In_obj_get dflt k (JObj dm) ND I).
      cbn [deepCopy]. fold (deepCopy_obj dm). unfold obj_has.
      now rewrite obj_get_deepCopy, Sh.
    - unfold examined. rewrite (In_obj_get dflt k (JObj dm) ND I).
      cbn [deepCopy]. fold (deepCopy_obj dm). unfold obj_has.
      now rewrite obj_get_deepCopy, S. }
  assert (P : prunable deepEqual dflt (deepCopy_obj dflt) = true).
  { apply forallb_forall. intros [k g'] I. cbn [fst snd].
    destruct (X k g' I)
      as (d & dm & sm & G & -> & -> & S & NDm & NDs & Sh & Ex & E1 & E2).
    rewrite Sh, Ex. cbn [negb andb].
    apply forallb_forall. intros [p v'] Ip. cbn [fst snd].
    apply In_deepCopy_obj in Ip. destruct Ip as (v & Ip & ->).
    cbn [member].
    destruct (p =? "serverSettings") eqn:E.
    - apply String.eqb_eq in E. subst p.
      rewrite (In_obj_get dm _ _ NDm Ip) in S. injection S as ->.
      rewrite (In_obj_get dm _ _ NDm Ip).
      cbn [deepCopy prunable_settings]. fold (deepCopy_obj sm).
      apply forallb_forall. intros [q x'] Iq. cbn [fst snd nullish negb andb].
      apply In_deepCopy_obj in Iq. destruct Iq as (x & Iq & ->).
      cbn [get_member_opt member]. rewrite (In_obj_get sm _ _ NDs Iq).
      unfold returns. now rewrite (E2 q x Iq).
    - apply String.eqb_neq in E. rewrite (In_obj_get dm _ _ NDm Ip).
      unfold returns. now rewrite (E1 p v Ip E). }
  destruct (prune_servers_returns dflt (ownEntries (deepCopy_obj dflt))
              (JObj (deepCopy_obj dflt))) as [r R].
  { apply forallb_forall. intros kv I. unfold prunable in P.
    apply (proj1 (forallb_forall _ _) P).
    exact (proj1 (In_ownEntries (deepCopy_obj dflt) kv) I). }
  rewrite R. f_equal.
  apply prune_servers_spec in R; [|now apply distinct_keys_deepCopy].
  subst r. f_equal. apply map_ext_in. intros [k g'] I.
  unfold pruned_entry. cbn [fst snd].
  destruct (X k g' I)
    as (d & dm & sm & G & -> & -> & S & NDm & NDs & Sh & Ex & E1 & E2).
  rewrite Ex. f_equal. f_equal. unfold pruned_group.
  rewrite (filter_single _ (deepCopy_obj dm) "serverSettings" (JObj (deepCopy_obj sm))).
  - cbn [map fst snd String.eqb Ascii.eqb Bool.eqb member pruned_settings].
    rewrite S. cbn [get_member_opt member]. do 3 f_equal.
    apply filter_none. intros [q x'] Iq. cbn [fst snd].
    apply In_deepCopy_obj in Iq. destruct Iq as (x & Iq & ->).
    rewrite (In_obj_get sm _ _ NDs Iq). unfold repeats.
    now rewrite (E2 q x Iq).
  - now apply NoDup_keys_deepCopy.
  - now rewrite obj_get_deepCopy, S.
  - intros [p v'] Ip. cbn [fst snd].
    apply In_deepCopy_obj in Ip. destruct Ip as (v & Ip & ->).
    destruct (p =? "serverSettings") eqn:E; [reflexivity|].
    apply String.eqb_neq in E. cbn [orb member].
    rewrite (In_obj_get dm _ _ NDm Ip). unfold repeats.
    now rewrite (E1 p v Ip E).
Qed.

End WithDeepEqual.

End PruningFacts.

(* ================================================================== *)
(** ** The completion item *)

Module CompletionFacts.
Import JS CompletionItem.

Local Unset Implicit Arguments.

Lemma or_else_not_empty (a : option string) (b : string) :
  b <> "" -> or_else a b <> "".
Proof.
  intros N. unfold or_else. destruct a as [s|]; [|exact N].
  destruct (s =? "") eqn:E; [exact N|]. now apply String.eqb_neq.
Qed.

(** X20.  Setting [insertText] to a text that is not empty makes the getter
    return that text.  Setting it to the empty string does not empty it: the
    getter falls back to the [insertText] of the match, and to the label of
    the match when that one is missing or empty.  The setter changes nothing
    else.  When the label of the match is not empty, neither [insertText]
    nor [sortText] is ever empty. *)
Theorem insertText_falls_back_when_empty (this : Item) (text : string) :
  insertText (set_insertText text this) =
    (if text =? "" then
       or_else (Protocol.insertText (match_ (options this)))
         (Protocol.label (match_ (options this)))
     else text) /\
  sortText (set_insertText text this) = sortText this /\
  label (set_insertText text this) = label this /\
  documentation (set_insertText text this) = documentation this /\
  detail (set_insertText text this) = detail this /\
  needsResolution (set_insertText text this) = needsResolution this /\
  (Protocol.label (match_ (options this)) <> "" ->
   insertText this <> "" /\ insertText (set_insertText text this) <> "" /\
   sortText this <> "").
Proof.
  split; [|repeat split].
  - unfold insertText, set_insertText. cbn [_currentInsertText options or_else].
    now destruct (text =? "").
  - now apply or_else_not_empty, or_else_not_empty.
  - now apply or_else_not_empty, or_else_not_empty.
  - now apply or_else_not_empty.
Qed.

(** What every action keeps: either nothing has been requested, or one
    request has been sent and the flag is set. *)
Lemma requested_once (options : IOptions) (actions : list Action) :
  let w := play actions (start options) in
  (sent w = 0 /\ pending w = [] /\ _requested_resolution (item w) = false /\
   _resolved (item w) = false) \/
  (sent w = 1 /\ _requested_resolution (item w) = true /\
   ((pending w = [match_ options] /\ _resolved (item w) = false) \/
    pending w = [])).
Proof.
  cbv zeta. unfold play. rewrite <- fold_left_rev_right.
  assert (O : forall l,
             CompletionItem.options
               (item (fold_right (fun a w => act a w) (start options) l)) = options).
  { induction l as [|a l IH]; [reflexivity|]. cbn [fold_right].
    destruct a as [|r|t]; cbn [act].
    - unfold resolve_begin.
      destruct (_resolved _); [exact IH|].
      destruct (_supportsResolution _) as [[[|]|]|e]; try exact IH.
      destruct (_requested_resolution _); exact IH.
    - destruct (pending _); [exact IH|].
      destruct r; cbn [resolve_end item]; try exact IH;
        try (destruct (Protocol.documentation _) as [[]|]; exact IH).
    - exact IH. }
  induction (List.rev actions) as [|a l IH]; [left; repeat split|].
  specialize (O l). cbn [fold_right].
  set (w := fold_right (fun a w => act a w) (start options) l) in *.
  destruct a as [|r|t]; cbn [act].
  - unfold resolve_begin.
    destruct IH as [(S0 & P0 & Q0 & R0)|(S1 & Q1 & P1)].
    + rewrite R0, Q0.
      destruct (_supportsResolution (item w)) as [[[|]|]|e];
        cbn [sent pending item _requested_resolution _resolved]; auto.
      right. rewrite S0, P0, O. auto.
    + destruct (_resolved (item w)) eqn:R.
      * right. cbn [sent pending item]. rewrite R.
        destruct P1 as [[_ F]|P1]; [discriminate|]. auto.
      * rewrite Q1.
        destruct (_supportsResolution (item w)) as [[[|]|]|e];
          cbn [sent pending item]; rewrite ?R; right; auto.
  - destruct IH as [(S0 & P0 & Q0 & R0)|(S1 & Q1 & [[P1 R1]|P1])].
    + rewrite P0. left. auto.
    + rewrite P1. right. cbn [sent pending item].
      split; [exact S1|]. split; [|now right].
      destruct r; cbn [resolve_end _requested_resolution]; auto;
        try (destruct (Protocol.documentation _) as [[]|]); exact Q1.
    + rewrite P1. right. auto.
  - cbn [sent pending item set_insertText _requested_resolution _resolved].
    exact IH.
Qed.

(** X21.  In the life of an item the request [completionItem/resolve] is
    sent at most once, however often [resolve] is called and whatever the
    server answers; it carries the match the item was built with.  As long
    as no request has been sent the item is not resolved. *)
Theorem resolution_is_requested_once
    (options : IOptions) (actions : list Action) :
  sent (play actions (start options)) <= 1 /\
  (forall request, In request (pending (play actions (start options))) ->
                   request = match_ options) /\
  (sent (play actions (start options)) = 0 ->
   isResolved (item (play actions (start options))) = false).
Proof.
  pose proof (requested_once options actions) as H. cbv zeta in H.
  destruct H as [(S0 & P0 & Q0 & R0)|(S1 & Q1 & [[P1 R1]|P1])].
  - rewrite S0, P0. split; [lia|]. split; [intros r []|]. intros _. exact R0.
  - rewrite S1, P1. split; [lia|]. split; [|discriminate].
    intros r [<-|[]]. reflexivity.
  - rewrite S1, P1. split; [lia|]. split; [intros r []|discriminate].
Qed.

Lemma stranded_kept (a : Action) (w : World) :
  pending w = [] /\ sent w = 1 /\
  _requested_resolution (item w) = true /\ _resolved (item w) = false ->
  pending (act a w) = [] /\ sent (act a w) = 1 /\
  _requested_resolution (item (act a w)) = true /\
  _resolved (item (act a w)) = false.
Proof.
  intros (P & S1 & Q & R). destruct a as [|r|t]; cbn [act].
  - unfold resolve_begin. rewrite R, Q.
    destruct (_supportsResolution (item w)) as [[[|]|]|e];
      cbn [sent pending item]; auto.
  - rewrite P. auto.
  - cbn [sent pending item set_insertText _requested_resolution _resolved]. auto.
Qed.

(** X22.  When the server answers the request with [null], or the request
    fails, the item is left unresolved for good.  Whatever is done
    afterwards, it is not resolved, [needsResolution] says [false], no call
    of [resolve] sends a request again, and a call of [resolve] on a server
    that resolves polls for a resolution that does not come. *)
Theorem unanswered_resolution_is_never_retried
    (options : IOptions) (before after : list Action) (response : Response) :
  response = Null \/ response = Failed ->
  pending (play before (start options)) <> [] ->
  isResolved
    (item (play after (act (Answer response) (play before (start options))))) =
    false /\
  needsResolution
    (item (play after (act (Answer response) (play before (start options))))) =
    Ok (Some false) /\
  sent (play after (act (Answer response) (play before (start options)))) = 1 /\
  (forall request,
     fst (resolve_begin
            (item (play after (act (Answer response)
                                 (play before (start options)))))) <>
     Ok (Awaiting request)) /\
  (_supportsResolution
     (item (play after (act (Answer response) (play before (start options))))) =
     Ok (Some true) ->
   fst (resolve_begin
          (item (play after (act (Answer response)
                               (play before (start options)))))) = Ok Polling).
Proof.
  intros Hr Hp.
  assert (I0 : let w := act (Answer response) (play before (start options)) in
               pending w = [] /\ sent w = 1 /\
               _requested_resolution (item w) = true /\ _resolved (item w) = false).
  { pose proof (requested_once options before) as H. cbv zeta in H. cbv zeta.
    destruct H as [(S0 & P0 & Q0 & R0)|(S1 & Q1 & [[P1 R1]|P1])];
      try congruence.
    cbn [act]. rewrite P1. cbn [pending sent item].
    destruct Hr as [-> | ->]; cbn [resolve_end]; auto. }
  cbv zeta in I0.
  assert (I : forall acts w,
             pending w = [] /\ sent w = 1 /\
             _requested_resolution (item w) = true /\ _resolved (item w) = false ->
             pending (play acts w) = [] /\ sent (play acts w) = 1 /\
             _requested_resolution (item (play acts w)) = true /\
             _resolved (item (play acts w)) = false).
  { induction acts as [|a r IH]; intros w H; [exact H|].
    cbn [play fold_left]. apply IH. now apply stranded_kept. }
  destruct (I after _ I0) as (P & S1 & Q & R).
  set (w := play after _) in *.
  split; [exact R|]. split; [|split; [exact S1|split]].
  - unfold needsResolution. rewrite R, Q. now destruct (documentation (item w)).
  - intros request. unfold resolve_begin. rewrite R, Q.
    destruct (_supportsResolution (item w)) as [[[|]|]|e]; discriminate.
  - intros Sp. unfold resolve_begin. now rewrite R, Q, Sp.
Qed.

Lemma life_keeps (options : IOptions) (actions : list Action) :
  CompletionItem.options (item (play actions (start options))) = options /\
  label (item (play actions (start options))) = Protocol.label (match_ options) /\
  ((forall text, ~ In (SetInsertText text) actions) ->
   _currentInsertText (item (play actions (start options))) = None).
Proof.
  unfold play. rewrite <- fold_left_rev_right.
  assert (G : CompletionItem.options
                (item (fold_right (fun a w => act a w) (start options)
                         (List.rev actions))) = options /\
              label (item (fold_right (fun a w => act a w) (start options)
                             (List.rev actions))) =
                Protocol.label (match_ options) /\
              ((forall text, ~ In (SetInsertText text) (List.rev actions)) ->
               _currentInsertText
                 (item (fold_right (fun a w => act a w) (start options)
                          (List.rev actions))) = None)).
  { induction (List.rev actions) as [|a l IH].
    - cbn. repeat split; try intros _;
        now destruct (Protocol.documentation _) as [[]|].
    - destruct IH as (O & L & C). cbn [fold_right].
      set (w := fold_right (fun a w => act a w) (start options) l) in *.
      assert (C' : (forall text, ~ In (SetInsertText text) (a :: l)) ->
                   _currentInsertText (item w) = None).
      { intros N. apply C. intros text I. apply (N text). now right. }
      destruct a as [|r|t]; cbn [act].
      + unfold resolve_begin.
        destruct (_resolved (item w)); [auto|].
        destruct (_supportsResolution (item w)) as [[[|]|]|e]; auto.
        destruct (_requested_resolution (item w)); auto.
      + destruct (pending w); [auto|].
        destruct r; cbn [resolve_end item]; auto;
          destruct (Protocol.documentation _) as [[]|]; auto.
      + cbn [item set_insertText CompletionItem.options label _currentInsertText].
        split; [exact O|]. split; [exact L|].
        intros N. exfalso. apply (N t). now left. }
  destruct G as (O & L & C). split; [exact O|]. split; [exact L|].
  intros N. apply C. intros text I. apply (N text). now apply in_rev.
Qed.

(** X23.  Nothing that happens to an item changes its label, its sort
    text, its filter text, its type or its deprecation: they are those of
    the match and of the options the item was built with, also after the
    server has answered with another label or another text, and so is its
    insert text as long as the setter is not used.  With [showDocumentation]
    off, no documentation is ever shown, whatever the server answers. *)
Theorem answers_change_documentation_and_detail_only
    (options : IOptions) (actions : list Action) :
  label (item (play actions (start options))) = Protocol.label (match_ options) /\
  sortText (item (play actions (start options))) = sortText (new options) /\
  filterText (item (play actions (start options))) =
    Protocol.filterText (match_ options) /\
  type (item (play actions (start options))) = type_ options /\
  deprecated (item (play actions (start options))) = deprecated (new options) /\
  (showDocumentation options = false ->
   documentation (item (play actions (start options))) = None) /\
  ((forall text, ~ In (SetInsertText text) actions) ->
   insertText (item (play actions (start options))) = insertText (new options)).
Proof.
  destruct (life_keeps options actions) as (O & L & C).
  unfold sortText, filterText, type, deprecated, documentation, insertText.
  rewrite O. cbn [new CompletionItem.options _currentInsertText].
  repeat split; auto.
  - intros ->. reflexivity.
  - intros N. rewrite (C N).
    now destruct (Protocol.documentation (match_ options)) as [[]|].
Qed.

(** X24.  [needsResolution] asks the connection last.  It throws exactly
    when no documentation is shown, the item is neither resolved nor
    requested, and there is no connection: the missing connection is
    logged and then read.  It says [true] exactly when no documentation is
    shown, the item is neither resolved nor requested, and the server
    announces [resolveProvider].  Under the same conditions a call of
    [resolve] without a connection is rejected. *)
Theorem needsResolution_asks_the_connection_last (this : Item) :
  (needsResolution this = Throw TypeError <->
   documentation this = None /\ isResolved this = false /\
   _requested_resolution this = false /\ connection (options this) = None) /\
  (needsResolution this = Ok (Some true) <->
   documentation this = None /\ isResolved this = false /\
   _requested_resolution this = false /\
   _supportsResolution this = Ok (Some true)) /\
  (isResolved this = false -> connection (options this) = None ->
   resolve_begin this = (Throw TypeError, this)).
Proof.
  unfold needsResolution, isResolved, resolve_begin, _supportsResolution.
  destruct (documentation this) as [d|];
    destruct (_resolved this); destruct (_requested_resolution this);
    destruct (connection (options this)) as [c|];
    repeat split; try discriminate; try tauto;
    try (intros (A & B & C & D); discriminate);
    try (intros H; repeat split; congruence).
Qed.

End CompletionFacts.

(* ================================================================== *)
(** ** More statements on concrete inputs *)

Module MoreInstances.
Import JS Settings Vocabulary Terms Examples Inputs Pruning.

Local Unset Implicit Arguments.


Lemma server_groups_distinct : NoDup (keys server_groups).
Proof. simpl. repeat constructor; simpl; intuition discriminate. Qed.


Lemma ref_specs_plain k s cs p :
  In (k, s) ref_specs -> config_schema s = Some cs ->
  obj_get cs "properties" = Some p -> truthy p = true ->
  exists pm, p = JObj pm /\ NoDup (keys pm).
Proof.
  intros [E|[E|[]]] C P _; injection E as <- <-; simpl in C; [|discriminate].
  injection C as <-. simpl in P. injection P as <-.
  eexists. split; [reflexivity|].
  simpl. repeat constructor; simpl; intuition discriminate.
Qed.

Lemma ref_specs_evaluated :
  transform_specs Collaborators.accepting ["ref"] (Some base_server_schema)
    shared_defaults ref_specs [] [] =
  (Ok (ref_known, ref_defaults), ref_specs_after, ref_log).
Proof. reflexivity. Qed.

Lemma distinct_one_group (k : string) (gm sm : obj) :
  NoDup (keys gm) -> NoDup (keys sm) ->
  obj_get gm "serverSettings" = Some (JObj sm) ->
  distinct_keys [(k, JObj gm)].
Proof.
  intros Ng Ns S. split.
  - simpl. repeat constructor. intros [].
  - intros k' gm' [E|[]]. injection E as <- <-. split; [exact Ng|].
    intros sm' S'. rewrite S in S'. now injection S' as <-.
Qed.


Lemma loop_defaults_distinct : distinct_keys loop_defaults.
Proof.
  split.
  - simpl. repeat constructor; simpl; intuition discriminate.
  - intros k gm [E|[]]; injection E as <- <-; split;
      try (simpl; repeat constructor; simpl; intuition discriminate);
      intros sm S; simpl in S. injection S as <-.
    simpl. repeat constructor; simpl; intuition discriminate.
Qed.

Lemma loop_defaults_compare k d :
  In (k, d) (_defaults recorded) ->
  exists dm sm,
    d = JObj dm /\ obj_get dm "serverSettings" = Some (JObj sm) /\
    obj_get dm "hasOwnProperty" = None /\
    (forall p v, In (p, v) dm -> p <> "serverSettings" ->
                 Library.deepEqual (deepCopy v) (Some v) = Ok true) /\
    (forall q x, In (q, x) sm ->
                 Library.deepEqual (deepCopy x) (Some x) = Ok true).
Proof.
  intros [E|[]]. injection E as <- <-. do 2 eexists.
  split; [reflexivity|]. split; [reflexivity|]. split; [reflexivity|]. split.
  - intros p v [E|[E|[]]] N; injection E as <- <-; [reflexivity|].
    now destruct N.
  - intros q x [E|[]]. injection E as <- <-. reflexivity.
Qed.



Lemma collapse_replaces_server_settings_only_witness :
  exists r,
    fst (_collapseServerSettingsDotted Collaborators.accepting
           (Some (JObj server_groups)) (initial [] [])) = Ok (JObj r) /\
    keys r = ["pylsp"; "texlab"; "bash"; "r"] /\
    obj_get r "texlab" = Some JNull /\
    obj_get r "bash" = Some (JObj [("priority", JNum 5)]) /\
    obj_get r "pylsp" =
      Some (JObj [("priority", JNum 10);
                  ("serverSettings",
                   JObj [("pylsp",
                          JObj [("plugins",
                                 JObj [("flake8",
                                        JObj [("enabled", JBool false)])])])])]).
Proof.
  destruct (CollapseFrame.collapse_replaces_server_settings_only
              Collaborators.accepting server_groups (initial [] [])
              server_groups_distinct) as (r & E & K & G & _).
  exists r. split; [exact E|]. split; [rewrite K; reflexivity|].
  rewrite !G. repeat split.
Defined.

Lemma compose_throws_without_language_servers_witness :
  compose Collaborators.accepting
    (mkPlugin (mkData [] [("loggingLevel", JStr "warn")]) "p" "{}" [] "1")
    (initial [] []) =
  (Throw TypeError, initial [] []).
Proof.
  exact (proj1
    (ComposeFacts.compose_throws_without_language_servers
       Collaborators.accepting
       (mkPlugin (mkData [] [("loggingLevel", JStr "warn")]) "p" "{}" [] "1")
       (initial [] []) eq_refl)).
Defined.

Lemma accepted_schema_holds_the_composed_maps_witness :
  populate_gate Collaborators.accepting plugin plugin_schema loop_known
    loop_defaults (initial [] []) =
  (Ok (installed plugin_schema plugin_properties plugin_language_servers
         loop_known loop_defaults),
   set_defaults loop_defaults
     (set_validationAttempt 1
        (set_canonical
           (Some (installed plugin_schema plugin_properties
                    plugin_language_servers loop_known loop_defaults))
           (initial [] [])))) /\
  get_path2
    (installed plugin_schema plugin_properties plugin_language_servers
       loop_known loop_defaults)
    "properties" "language_servers" "type" = Ok (Some (JStr "object")).
Proof.
  split.
  - exact (proj1
      (GateFlow.accepted_schema_holds_the_composed_maps
         Collaborators.accepting plugin plugin_schema plugin_properties
         plugin_language_servers loop_known loop_defaults (initial [] [])
         eq_refl eq_refl eq_refl)).
  - reflexivity.
Defined.

Lemma defaults_are_recorded_whatever_the_verdict_witness :
  exists schema' st',
    populate_gate Collaborators.rejecting plugin plugin_schema loop_known
      loop_defaults (set_original (Some plugin_schema) (initial [] [])) =
      (Ok schema', st') /\
    canonical st' = Some schema' /\
    _defaults st' = loop_defaults /\
    validationAttempt st' = 1%N /\
    _validationErrors st' = [Collaborators.schema_error] /\
    log st' = [ErrorValidationFailed [Collaborators.schema_error]].
Proof.
  destruct (GateFlow.defaults_are_recorded_whatever_the_verdict
              Collaborators.rejecting plugin plugin_schema plugin_properties
              plugin_language_servers plugin_schema plugin_properties
              plugin_language_servers loop_known loop_defaults
              (set_original (Some plugin_schema) (initial [] []))
              eq_refl eq_refl eq_refl eq_refl eq_refl)
    as (schema' & st' & E & C & D & A & V).
  exists schema', st'. repeat split; try assumption; apply V.
Defined.

Lemma fetch_recomposes_two_members_only_witness :
  fetch Collaborators.accepting plugin (initial [("pyls", pyls_spec)] ["pyls"]) =
    (Ok (mkPlugin (data plugin) (id plugin) (raw plugin) fetched_schema
           (version plugin)),
     snd (fetch Collaborators.accepting plugin
            (initial [("pyls", pyls_spec)] ["pyls"]))) /\
  obj_get fetched_schema "definitions" =
    option_map deepCopy (obj_get plugin_schema "definitions") /\
  obj_get fetched_schema "title" =
    option_map deepCopy (obj_get plugin_schema "title").
Proof.
  assert (F : fetch Collaborators.accepting plugin
                (initial [("pyls", pyls_spec)] ["pyls"]) =
              (Ok (mkPlugin (data plugin) (id plugin) (raw plugin) fetched_schema
                     (version plugin)),
               snd (fetch Collaborators.accepting plugin
                      (initial [("pyls", pyls_spec)] ["pyls"]))))
    by reflexivity.
  split; [exact F|].
  pose proof (LifeFacts.fetch_recomposes_two_members_only
                Collaborators.accepting plugin _
                (initial [("pyls", pyls_spec)] ["pyls"]) _ eq_refl F) as H.
  destruct H as (_ & _ & _ & _ & H & _).
  split; apply H; discriminate.
Defined.

Lemma fetch_throws_on_a_schema_without_definitions_witness :
  fetch Collaborators.accepting bare_plugin (initial [("pyls", pyls_spec)] ["pyls"]) =
    (Throw TypeError, primed bare_plugin (initial [("pyls", pyls_spec)] ["pyls"])) /\
  fetch Collaborators.accepting plugin
    (primed bare_plugin (initial [("pyls", pyls_spec)] ["pyls"])) =
    (Ok (mkPlugin (data plugin) (id plugin) (raw plugin)
           (deepCopy_obj (schema bare_plugin)) (version plugin)),
     primed bare_plugin (initial [("pyls", pyls_spec)] ["pyls"])).
Proof.
  pose proof (LifeFacts.fetch_throws_on_a_schema_without_definitions
                Collaborators.accepting bare_plugin
                (initial [("pyls", pyls_spec)] ["pyls"]) eq_refl
                (or_introl eq_refl)) as H.
  split; [apply H|]. apply H.
Defined.


Lemma recomposition_is_idempotent_witness :
  transform_specs Collaborators.accepting ["ref"] (Some base_server_schema)
    shared_defaults ref_specs [] [] =
    (Ok (ref_known, ref_defaults), ref_specs_after, ref_log) /\
  transform_specs Collaborators.accepting ["ref"] (Some base_server_schema)
    shared_defaults ref_specs_after [] [] =
    (Ok (ref_known, ref_defaults), ref_specs_after, ref_log).
Proof.
  exact (conj ref_specs_evaluated
           (RecompositionFacts.recomposition_is_idempotent
              Collaborators.accepting ["ref"] (Some base_server_schema)
              shared_defaults ref_specs ref_specs_after ref_known ref_defaults
              ref_log ref_specs_plain ref_specs_evaluated)).
Defined.




Lemma pruning_throws_on_null_settings_witness :
  exists e,
    _filterOutDefaults Library.deepEqual (Some (JObj null_settings)) recorded =
    (Throw e, recorded).
Proof.
  refine (PruningFacts.pruning_throws_on_null_settings
            Library.deepEqual null_settings [("serverSettings", JNull)] "pyls"
            (JObj [("priority", JNum 50);
                   ("serverSettings", JObj [("maxLineLength", JNum 80)])])
            recorded eq_refl eq_refl eq_refl _).
  discriminate.
Defined.

Lemma settings_that_repeat_the_defaults_are_pruned_witness :
  _filterOutDefaults Library.deepEqual (Some (JObj loop_defaults)) recorded =
  (Ok (JObj [("pyls", JObj [("serverSettings", JObj [])])]), recorded).
Proof.
  exact (PruningFacts.settings_that_repeat_the_defaults_are_pruned
           Library.deepEqual recorded loop_defaults_distinct
           loop_defaults_compare).
Defined.

Lemma unanswered_resolution_is_never_retried_witness :
  CompletionItem.pending
    (CompletionItem.play [CompletionItem.CallResolve]
       (CompletionItem.start print_options)) <> [] /\
  CompletionItem.isResolved
    (CompletionItem.item
       (CompletionItem.play
          [CompletionItem.CallResolve;
           CompletionItem.Answer (CompletionItem.Resolved print_resolved);
           CompletionItem.SetInsertText "print"]
          (CompletionItem.act (CompletionItem.Answer CompletionItem.Null)
             (CompletionItem.play [CompletionItem.CallResolve]
                (CompletionItem.start print_options))))) = false /\
  CompletionItem.sent
    (CompletionItem.play
       [CompletionItem.CallResolve;
        CompletionItem.Answer (CompletionItem.Resolved print_resolved);
        CompletionItem.SetInsertText "print"]
       (CompletionItem.act (CompletionItem.Answer CompletionItem.Null)
          (CompletionItem.play [CompletionItem.CallResolve]
             (CompletionItem.start print_options)))) = 1.
Proof.
  assert (P : CompletionItem.pending
                (CompletionItem.play [CompletionItem.CallResolve]
                   (CompletionItem.start print_options)) <> [])
    by discriminate.
  split; [exact P|].
  pose proof (CompletionFacts.unanswered_resolution_is_never_retried
                print_options [CompletionItem.CallResolve]
                [CompletionItem.CallResolve;
                 CompletionItem.Answer (CompletionItem.Resolved print_resolved);
                 CompletionItem.SetInsertText "print"]
                CompletionItem.Null (or_introl eq_refl) P) as H.
  split; apply H.
Defined.

End MoreInstances.
